(** * Hedge local data engine: encryption codec, block storage, metadata store

    A shallow embedding of [src/util/encryption.ts] and
    [src/common/localEngine.ts], with the properties of the engine stated
    and proved over it.

    Conventions of the embedding.
    - A [Buffer] is a [list byte]; indices are [Z] where the source does
      arithmetic on them.
    - A JavaScript string is represented by the bytes of its UTF-8 encoding,
      held in a Rocq [string]; [Buffer.from(s)] and [buf.toString()] are then
      the two conversions of the standard library.  This is exact for
      well-formed text.  The replacement of malformed sequences by U+FFFD
      when Node decodes a buffer is not modelled; the only test made on a
      decoded buffer is a comparison against an ASCII prefix, which the
      replacement cannot affect.
    - Functions of the JavaScript runtime and of npm packages ([sha224],
      [sha256], [JSON.stringify], [JSON.parse], base64 conversion) are
      variables of the sections that use them.
    - A computation either returns, throws, or loops: see [completion]. *)

From Stdlib Require Import ZArith Lia Bool.
From Stdlib Require Import Strings.String Strings.Ascii Strings.Byte.
From Stdlib Require Import Numbers.HexadecimalString Numbers.HexadecimalN.
From Stdlib Require Import Numbers.HexadecimalPos.
From stdpp Require Import gmap strings list list_numbers finite.

#[local] Set Warnings "-register-all".

Local Open Scope Z_scope.

(** ** Completions *)

Inductive exn : Type :=
| TypeError
| SyntaxError
| RangeError
| IOError.

Inductive completion (A : Type) : Type :=
| Normal (a : A)
| Thrown (e : exn)
| Looping.

Arguments Normal {A} a.
Arguments Thrown {A} e.
Arguments Looping {A}.

Definition cbind {A B} (c : completion A) (k : A -> completion B) : completion B :=
  match c with
  | Normal a => k a
  | Thrown e => Thrown e
  | Looping => Looping
  end.

Notation "'do' x <- c ; k" := (cbind c (fun x => k))
  (at level 10, x pattern, c at level 100, k at level 200).

(** A bounded loop that ran out of its bound stands for a loop that does
    not terminate. *)
Definition of_loop {A} (o : option A) : completion A :=
  match o with Some a => Normal a | None => Looping end.

(** ** Buffers *)

Abbreviation Buffer := (list byte).

Definition bits8 : Type :=
  (bool * (bool * (bool * (bool * (bool * (bool * (bool * bool)))))))%type.

Definition xor_bits (a b : bits8) : bits8 :=
  let '(a0, (a1, (a2, (a3, (a4, (a5, (a6, a7))))))) := a in
  let '(b0, (b1, (b2, (b3, (b4, (b5, (b6, b7))))))) := b in
  (xorb a0 b0, (xorb a1 b1, (xorb a2 b2, (xorb a3 b3,
   (xorb a4 b4, (xorb a5 b5, (xorb a6 b6, xorb a7 b7))))))).

(** [a ^ b] on two bytes. *)
Definition byte_xor (a b : byte) : byte :=
  Byte.of_bits (xor_bits (Byte.to_bits a) (Byte.to_bits b)).

(** [a ^ key[j]]: an index past the end of the key reads [undefined],
    which [^] converts to 0. *)
Definition xor_js (a : byte) (k : option byte) : byte :=
  match k with
  | Some b => byte_xor a b
  | None => a
  end.

(** [arr[i]] for a buffer, [undefined] out of range. *)
Definition buf_get (arr : Buffer) (i : Z) : option byte :=
  if i <? 0 then None else arr !! Z.to_nat i.

(** [ret[i] = v]: storing [undefined] in a buffer writes 0. *)
Definition to_octet (v : option byte) : byte := default x00 v.

(** [Buffer.alloc(n)] for a size [n] from 0 up; [Buffer.alloc] refuses a
    negative size with a [RangeError]. *)
Definition Buffer_alloc (n : Z) : Buffer := replicate (Z.to_nat n) x00.

(** ** util/encryption.ts *)

Module Encryption.

(** [turnToBinary] is [Buffer.from(key)], [turnToString] is
  [binary.toString()]. *)
Definition turnToBinary (key : string) : Buffer := list_byte_of_string key.
Definition turnToString (binary : Buffer) : string := string_of_list_byte binary.

(** [while(goal < head) goal += span] *)
Fixpoint while_below (bound : nat) (head span goal : Z) : option Z :=
if goal <? head then
  match bound with
  | O => None
  | S b => while_below b head span (goal + span)
  end
else Some goal.

(** [while(goal >= tail) goal -= span] *)
Fixpoint while_reaching (bound : nat) (tail span goal : Z) : option Z :=
if goal >=? tail then
  match bound with
  | O => None
  | S b => while_reaching b tail span (goal - span)
  end
else Some goal.

(** The body of the loop of [loopChange] at index [i]: the index read.
  With a group size of at least 1 the group [head, tail) holds [i], its
  width is positive and neither loop runs more than [|step|] times.  The
  definition is the code for such a group size: with the group size 0
  the source has [NaN] for [head] and [tail] and both loops end at
  once. *)
Definition loopGoal (length groupSize step i : Z) : option Z :=
let head := (i / groupSize) * groupSize in
let tail := head + groupSize in
let tail := if tail >? length then length else tail in
let goal := i - step in
goal ← while_below (Z.abs_nat step) head (tail - head) goal;
while_reaching (Z.abs_nat step) tail (tail - head) goal.

Definition loopChange (arr : Buffer) (groupSize step : Z) : completion Buffer :=
let length := Z.of_nat (length arr) in
of_loop (mapM (fun i => goal ← loopGoal length groupSize step i;
                        Some (to_octet (buf_get arr goal)))
              (seqZ 0 length)).

Fixpoint xor_from (j : nat) (data key : Buffer) : Buffer :=
match data with
| [] => []
| byte :: rest =>
    let j := if (length key <=? j)%nat then O else j in
    xor_js byte (key !! j) :: xor_from (S j) rest key
end.

Definition xor (data key : Buffer) : Buffer := xor_from 0 data key.

(** JSON values. Numbers are the integers. *)
Inductive Json : Type :=
| JNull
| JBool (b : bool)
| JNum (n : Z)
| JStr (s : string)
| JArr (items : list Json)
| JObj (fields : list (string * Json)).

(** What the codec takes from outside the repository: the two digests of
  js-sha256, as hexadecimal text, [JSON.stringify], and [JSON.parse],
  which throws a [SyntaxError] on text that is not JSON ([None]). *)
Class Runtime : Type := {
sha224 : string -> string;
sha256 : string -> string;
JSON_stringify : Json -> string;
JSON_parse : string -> option Json;
}.

Section Codec.

Context `{Runtime}.

Definition turnToPasswordSequence (key : string) : string :=
  sha224 ("photos." +:+ key +:+ ".heerkirov.com").

Definition turnToFlagSequence (key : string) : string :=
  sha256 ("photos." +:+ key +:+ ".heerkirov.com").

Definition encrypt (key : string) (json : Json) : completion Buffer :=
  let passwd := turnToPasswordSequence key in
  let flag := turnToFlagSequence key in
  let passwdBuf := turnToBinary passwd in
  let data := "DATA:" +:+ flag +:+ ":" +:+ JSON_stringify json in
  do dataBuf <- loopChange (turnToBinary data) 8 1;
  Normal (xor dataBuf passwdBuf).

(** [data.slice(0, n)] and [data.slice(n)] for [0 <= n]. *)
Definition slice_to (n : nat) (s : string) : string := String.substring 0 n s.
Definition slice_from (n : nat) (s : string) : string :=
  String.substring n (String.length s - n)%nat s.

(** The result [null] is [JNull]: a failed decode and a stored document
    that is the JSON text [null] are the same value to the caller. *)
Definition decrypt (key : string) (buf : Buffer) : completion Json :=
  let passwd := turnToPasswordSequence key in
  let flag := turnToFlagSequence key in
  let passwdBuf := turnToBinary passwd in
  let decodeBuf := xor buf passwdBuf in
  do unrolled <- loopChange decodeBuf 8 (-1);
  let data := turnToString unrolled in
  let prefix := "DATA:" +:+ flag +:+ ":" in
  if (String.length prefix <=? String.length data)%nat
     && bool_decide (slice_to (String.length prefix) data = prefix) then
    match JSON_parse (slice_from (String.length prefix) data) with
    | Some json => Normal json
    | None => Thrown SyntaxError
    end
  else Normal JNull.

(** Modelled from the spec: [encryptBuffer] and [decryptBuffer] are
    imported by the engine from util/encryption.ts but are not in the
    source at hand.  "Payload encode/decode: apply only the
    repeating-keystream XOR directly to raw bytes (no envelope framing,
    no rotation)". *)
Definition encryptBuffer (key : string) (buf : Buffer) : Buffer :=
  xor buf (turnToBinary (turnToPasswordSequence key)).
Definition decryptBuffer (key : string) (buf : Buffer) : Buffer :=
  xor buf (turnToBinary (turnToPasswordSequence key)).

End Codec.

End Encryption.

(** ** util/collection.ts *)

Module Arrays.

(** Modelled from the spec: util/collection.ts is not among the sources;
    its helpers are read off their names and their uses in the engine.
    [Arrays.append(arr, x)] adds [x] at the end of [arr]: "appends". *)
Definition append {A} (arr : list A) (x : A) : list A := arr ++ [x].

(** Modelled from the spec: [Arrays.isNotEmpty(arr)] of util/collection.ts,
    the test that the free list or an ordering key list has an element. *)
Definition isNotEmpty {A} (arr : list A) : bool :=
  match arr with
  | [] => false
  | _ :: _ => true
  end.

(** Modelled from the spec: [Arrays.indexOf(arr, condition)] of
    util/collection.ts, the position of the first element "matching by
    id", or -1. *)
Fixpoint indexOf {A} (arr : list A) (condition : A -> bool) : Z :=
  match arr with
  | [] => -1
  | t :: rest =>
      if condition t then 0
      else let index := indexOf rest condition in
           if index <? 0 then -1 else index + 1
  end.

(** Modelled from the spec: [Arrays.removeAt(arr, index)] of
    util/collection.ts, "removes matching entries": the element at
    [index] is taken out. *)
Definition removeAt {A} (arr : list A) (index : Z) : list A :=
  if index <? 0 then arr else delete (Z.to_nat index) arr.

End Arrays.

Module Sets.

(** Modelled from the spec: [Sets.put(arr, x)] of util/collection.ts, on
    an array used as a set: "uniqueness enforced". *)
Definition put (arr : list string) (x : string) : list string :=
  if bool_decide (x ∈ arr) then arr else arr ++ [x].

End Sets.

Module Maps.

(** Modelled from the spec: [Maps.remove(obj, key)] of util/collection.ts:
    the key is deleted.  The result is taken to tell whether the key was
    there; neither the sources nor the spec say what it is, and it is
    read by [BufferCache.remove] only, whose own result no caller
    reads. *)
Definition remove {T} (obj : gmap Z T) (key : Z) : bool * gmap Z T :=
  (bool_decide (is_Some (obj !! key)), delete key obj).

End Maps.

(** ** common/engine.ts: the types the local engine works on *)

(** Modelled from the spec: common/engine.ts is not among the sources.
    "Variants: origin, exhibition, thumbnail". *)
Inductive ImageSpecification : Type :=
| Thumbnail
| Exhibition
| Origin.

#[global] Instance ImageSpecification_eq_dec : EqDecision ImageSpecification.
Proof. solve_decision. Defined.

(** An object with one slot for each variant. *)
Record PerSpec (A : Type) : Type := mkPerSpec {
  at_Thumbnail : A;
  at_Exhibition : A;
  at_Origin : A;
}.
Arguments mkPerSpec {A}.
Arguments at_Thumbnail {A}.
Arguments at_Exhibition {A}.
Arguments at_Origin {A}.

(** [obj[spec]] and [obj[spec] = v] *)
Definition at_spec {A} (spec : ImageSpecification) (obj : PerSpec A) : A :=
  match spec with
  | Thumbnail => at_Thumbnail obj
  | Exhibition => at_Exhibition obj
  | Origin => at_Origin obj
  end.

Definition set_spec {A} (spec : ImageSpecification) (v : A) (obj : PerSpec A) : PerSpec A :=
  match spec with
  | Thumbnail => mkPerSpec v (at_Exhibition obj) (at_Origin obj)
  | Exhibition => mkPerSpec (at_Thumbnail obj) v (at_Origin obj)
  | Origin => mkPerSpec (at_Thumbnail obj) (at_Exhibition obj) v
  end.

(** Modelled from the spec: the interface [Illustration] of common/engine.ts.
    "Sub-item (image): integer id (unique across all sub-items), its own tag
    set."  An id that is [undefined] is [None]. *)
Record Image : Type := mkImage {
  image_id : option Z;
  subTags : list string;
  image_attributes : list (string * Encryption.Json);
}.

(** Modelled from the spec: the interface [Illustration] of common/engine.ts.
    "Entry (illustration): integer id (unique, caller-assignable or
    auto-assigned), tag set, ordered list of Sub-items (images), arbitrary
    other attributes." *)
Record Illustration : Type := mkIllustration {
  illust_id : option Z;
  illust_tags : list string;
  images : list Image;
  illust_attributes : list (string * Encryption.Json);
}.

(** [!x.id]: [undefined] and 0 are falsy. *)
Definition no_id (id : option Z) : bool :=
  match id with
  | None => true
  | Some n => n =? 0
  end.

(** ** common/localEngine.ts: the metadata store *)

Import Encryption.

Definition STORAGE : string := "data.db".
Definition BLOCK_SIZE : Z := 1024 * 64.
Definition BLOCK_IN_FILE : Z := 1024.

(** [n.toString(16)] for an integer [n]. *)
Definition toString16 (n : Z) : string :=
  if n <? 0 then "-" +:+ NilZero.string_of_uint (N.to_hex_uint (Z.to_N (- n)))
  else NilZero.string_of_uint (N.to_hex_uint (Z.to_N n)).

(** [index + 0xa] is a sum of JavaScript numbers, exact below [2^53]. *)
Definition FILE_NAME (index : Z) : string :=
  "block-" +:+ toString16 (index + 10) +:+ ".dat".

(** One record of the block map: [{size, blocks}].  A record that lacks
    the field [blocks] has [None] there. *)
Record BlockRecord : Type := mkBlockRecord {
  rec_size : Z;
  rec_blocks : option (list Z);
}.

Record SaveModel : Type := mkSaveModel {
  nextIllustrationId : Z;
  nextImageId : Z;
  nextBlockIndex : Z;
  unusedBlocks : list Z;
  tags : list string;
  illustrations : list Illustration;
  (* image id -> variant -> record; a variant without record is [None] *)
  blocks : gmap Z (PerSpec (option BlockRecord));
  config : gmap string Json;
}.

Definition with_nextIllustrationId (v : Z) (m : SaveModel) : SaveModel :=
  mkSaveModel v (nextImageId m) (nextBlockIndex m) (unusedBlocks m) (tags m)
    (illustrations m) (blocks m) (config m).
Definition with_nextImageId (v : Z) (m : SaveModel) : SaveModel :=
  mkSaveModel (nextIllustrationId m) v (nextBlockIndex m) (unusedBlocks m) (tags m)
    (illustrations m) (blocks m) (config m).
Definition with_nextBlockIndex (v : Z) (m : SaveModel) : SaveModel :=
  mkSaveModel (nextIllustrationId m) (nextImageId m) v (unusedBlocks m) (tags m)
    (illustrations m) (blocks m) (config m).
Definition with_unusedBlocks (v : list Z) (m : SaveModel) : SaveModel :=
  mkSaveModel (nextIllustrationId m) (nextImageId m) (nextBlockIndex m) v (tags m)
    (illustrations m) (blocks m) (config m).
Definition with_tags (v : list string) (m : SaveModel) : SaveModel :=
  mkSaveModel (nextIllustrationId m) (nextImageId m) (nextBlockIndex m) (unusedBlocks m) v
    (illustrations m) (blocks m) (config m).
Definition with_illustrations (v : list Illustration) (m : SaveModel) : SaveModel :=
  mkSaveModel (nextIllustrationId m) (nextImageId m) (nextBlockIndex m) (unusedBlocks m)
    (tags m) v (blocks m) (config m).
Definition with_blocks (v : gmap Z (PerSpec (option BlockRecord))) (m : SaveModel) : SaveModel :=
  mkSaveModel (nextIllustrationId m) (nextImageId m) (nextBlockIndex m) (unusedBlocks m)
    (tags m) (illustrations m) v (config m).
Definition with_config (v : gmap string Json) (m : SaveModel) : SaveModel :=
  mkSaveModel (nextIllustrationId m) (nextImageId m) (nextBlockIndex m) (unusedBlocks m)
    (tags m) (illustrations m) (blocks m) v.

(** [return this.nextIllustrationId++].  The counters are JavaScript
    numbers: [n++] leaves [n + 1] for the integers from [-2^53] up to
    [2^53 - 1], and leaves [2^53] where it is.  The three steps add one in
    [Z]: they are the code on the counters of that range ([exactCounters]
    below). *)
Definition stepToNextIllustrationId (m : SaveModel) : Z * SaveModel :=
  (nextIllustrationId m, with_nextIllustrationId (nextIllustrationId m + 1) m).

Definition stepToNextImageId (m : SaveModel) : Z * SaveModel :=
  (nextImageId m, with_nextImageId (nextImageId m + 1) m).

(** [unusedBlocks.splice(0, 1)[0]] takes the first element out of the
    array and returns it. *)
Definition stepToNextBlockIndex (m : SaveModel) : Z * SaveModel :=
  if Arrays.isNotEmpty (unusedBlocks m) then
    match unusedBlocks m with
    | first :: rest => (first, with_unusedBlocks rest m)
    | [] => (nextBlockIndex m, with_nextBlockIndex (nextBlockIndex m + 1) m)
    end
  else (nextBlockIndex m, with_nextBlockIndex (nextBlockIndex m + 1) m).

Module BufferCache.

Definition t (T : Type) : Type := PerSpec (gmap Z T).

Definition empty {T} : t T := mkPerSpec ∅ ∅ ∅.

Definition get {T} (c : t T) (specification : ImageSpecification) (id : Z) : option T :=
  at_spec specification c !! id.

Definition set {T} (c : t T) (specification : ImageSpecification) (id : Z) (obj : T) : t T :=
  set_spec specification (<[id := obj]> (at_spec specification c)) c.

Definition remove {T} (c : t T) (id : Z) : bool * t T :=
  let f := false in
  let '(r, thumbnail) := Maps.remove (at_spec Thumbnail c) id in
  let f := if r then true else f in
  let '(r, exhibition) := Maps.remove (at_spec Exhibition c) id in
  let f := if r then true else f in
  let '(r, origin) := Maps.remove (at_spec Origin c) id in
  let f := if r then true else f in
  (f, mkPerSpec thumbnail exhibition origin).

End BufferCache.

Record LocalDataEngine : Type := mkLocalDataEngine {
  storageFolder : string;
  key : string;
  memory : SaveModel;
  imageURLCache : BufferCache.t string;
}.

Definition with_memory (m : SaveModel) (e : LocalDataEngine) : LocalDataEngine :=
  mkLocalDataEngine (storageFolder e) (key e) m (imageURLCache e).
Definition with_imageURLCache (c : BufferCache.t string) (e : LocalDataEngine) : LocalDataEngine :=
  mkLocalDataEngine (storageFolder e) (key e) (memory e) c.

(** [for(let tag of ts) Sets.put(this.memory.tags, tag)] *)
Definition putTags (ts : list string) (m : SaveModel) : SaveModel :=
  foldl (fun m tag => with_tags (Sets.put (tags m) tag) m) m ts.

(** [for(let image of illust.images) for(let tag of image.subTags) ...] *)
Definition putSubTags (imgs : list Image) (m : SaveModel) : SaveModel :=
  foldl (fun m image => putTags (subTags image) m) m imgs.

(** [for(let image of illust.images) if(!image.id) image.id = ...] *)
Fixpoint stepImages (imgs : list Image) (m : SaveModel) : list Image * SaveModel :=
  match imgs with
  | [] => ([], m)
  | image :: rest =>
      let '(image, m) :=
        if no_id (image_id image) then
          let '(n, m) := stepToNextImageId m in
          (mkImage (Some n) (subTags image) (image_attributes image), m)
        else (image, m) in
      let '(rest, m) := stepImages rest m in
      (image :: rest, m)
  end.

(** The body of the loop of [createIllustration]. *)
Definition createOne (illust : Illustration) (m : SaveModel) : Illustration * SaveModel :=
  let '(id, m) :=
    if no_id (illust_id illust) then
      let '(n, m) := stepToNextIllustrationId m in (Some n, m)
    else (illust_id illust, m) in
  let '(imgs, m) := stepImages (images illust) m in
  let illust := mkIllustration id (illust_tags illust) imgs (illust_attributes illust) in
  let m := with_illustrations (Arrays.append (illustrations m) illust) m in
  let m := putTags (illust_tags illust) m in
  let m := putSubTags (images illust) m in
  (illust, m).

(** The entries are objects that the source changes in place; the array
    returned is the array received, holding the entries as changed.  The
    entries are taken as values here, which is the code as long as no
    object that gets an id is met twice ([ownObjects] below). *)
Fixpoint createIllustration (illusts : list Illustration) (e : LocalDataEngine)
  : list Illustration * LocalDataEngine :=
  match illusts with
  | [] => ([], e)
  | illust :: rest =>
      let '(illust, m) := createOne illust (memory e) in
      let '(rest, e) := createIllustration rest (with_memory m e) in
      (illust :: rest, e)
  end.

(** The body of the loop of [deleteIllustration].  [ii] is an entry or a
    number.  [this.memory.blocks[id] = undefined] leaves a key whose value
    is [undefined]: every later read, [!this.memory.blocks[id]], takes that
    for an absent key, and so does [JSON.stringify].  An [id] that is
    [undefined] names the key ["undefined"], which no numeric id reads. *)
Definition deleteOne (ii : Illustration + Z) (st : Z * LocalDataEngine)
  : Z * LocalDataEngine :=
  let '(delNumber, e) := st in
  let id := match ii with inr n => Some n | inl illust => illust_id illust end in
  let index := Arrays.indexOf (illustrations (memory e))
                 (fun t => bool_decide (illust_id t = id)) in
  if index >=? 0 then
    let m := with_illustrations (Arrays.removeAt (illustrations (memory e)) index) (memory e) in
    let delNumber := delNumber + 1 in
    match id with
    | Some id =>
        let cache := snd (BufferCache.remove (imageURLCache e) id) in
        let m := with_blocks (delete id (blocks m)) m in
        (delNumber, with_imageURLCache cache (with_memory m e))
    | None => (delNumber, with_memory m e)
    end
  else (delNumber, e).

Definition deleteIllustration (illusts : list (Illustration + Z)) (e : LocalDataEngine)
  : Z * LocalDataEngine :=
  foldl (fun st ii => deleteOne ii st) (0, e) illusts.

(** ** The file system *)

(** The folders that exist and the content of the files that exist, by
    path. *)
Record FS : Type := mkFS {
  dirs : gset string;
  files : gmap string Buffer;
}.

(** A persisted document read at the types of the store. *)
Record Document : Type := mkDocument {
  doc_illustrations : list Illustration;
  doc_nextIllustrationId : Z;
  doc_nextImageId : Z;
  doc_nextBlockIndex : Z;
  doc_blocks : gmap Z (PerSpec (option BlockRecord));
  doc_unusedBlocks : list Z;
  doc_config : option (gmap string Json);   (* ['config' in data] *)
}.

(** What the engine takes from outside [src/]:
    - the runtime of the codec;
    - whether a file opened with flag ['a'] has every write appended at its
      end whatever the position asked for (Linux), or written at that
      position;
    - [buf.toString('base64')];
    - the constant [PREFIX] of util/nativeImage.ts, opening a data URL;
    - the field accesses [data['illustrations']], [data['nextIndex']],
      [data['blocks']], [data['unusedBlocks']], [data['config']] at the
      types of common/engine.ts, [None] for a document that has not this
      shape, on which the source stops with a [TypeError]. *)
Class Platform : Type := {
  platform_runtime :: Runtime;
  appendIgnoresPosition : bool;
  base64 : Buffer -> string;
  PREFIX : string;
  document_of_json : Json -> option Document;
}.

(** A write of [data] at [position]: the gap past the end of the file, if
    there is one, reads as zeros.  Nothing written changes nothing. *)
Definition pwrite (content : Buffer) (position : nat) (data : Buffer) : Buffer :=
  match data with
  | [] => content
  | _ :: _ =>
      take position content ++ replicate (position - length content)%nat x00
        ++ data ++ drop (position + length data)%nat content
  end.

Section BlockStorage.

Context `{Platform}.

(** [fs.write(fd, buffer, offset, length, position, cb)] on a descriptor
    opened with flag ['a']: the new content of the file. *)
Definition fs_write (content buffer : Buffer) (offset length position : Z)
  : completion Buffer :=
  let byteLength := Z.of_nat (List.length buffer) in
  if (byteLength <? offset) || (byteLength - offset <? length) then Thrown RangeError
  else
    let data := take (Z.to_nat length) (drop (Z.to_nat offset) buffer) in
    if appendIgnoresPosition then Normal (content ++ data)
    else Normal (pwrite content (Z.to_nat position) data).

(** [fs.read(fd, buffer, offset, length, position, cb)]: the buffer once
    the read is done.  A read of length 0 completes at once; a read at the
    end of the file is short. *)
Definition fs_read (content buffer : Buffer) (offset length position : Z)
  : completion Buffer :=
  if length =? 0 then Normal buffer
  else if Z.of_nat (List.length buffer) <? offset + length then Thrown RangeError
  else
    let data := take (Z.to_nat length) (drop (Z.to_nat position) content) in
    Normal (take (Z.to_nat offset) buffer ++ data
            ++ drop (Z.to_nat offset + List.length data)%nat buffer).

(** An element [{id, block, size}] of the table [map]. *)
Record Chunk : Type := mkChunk {
  chunk_id : Z;
  chunk_block : Z;
  chunk_size : Z;
}.

(** [if(filename in map) arr[arr.length] = c else map[filename] = [c]];
    the keys of [map] stay in the order of their insertion. *)
Fixpoint mapPush (filename : string) (c : Chunk) (map : list (string * list Chunk))
  : list (string * list Chunk) :=
  match map with
  | [] => [(filename, [c])]
  | (name, arr) :: rest =>
      if bool_decide (name = filename) then (name, arr ++ [c]) :: rest
      else (name, arr) :: mapPush filename c rest
  end.

(** The loop that fills [map], the same in [saveImageBuffer], where
    [size] is [buffer.byteLength], and in [loadImageBuffer]. *)
Definition chunkMap (folder : string) (blocks : list Z) (size : Z)
  : list (string * list Chunk) :=
  foldl (fun map '(i, block) =>
           let filename := folder +:+ "/" +:+ FILE_NAME (block / BLOCK_IN_FILE) in
           mapPush filename
             (mkChunk i (Z.rem block BLOCK_IN_FILE)
                (if i =? Z.of_nat (List.length blocks) - 1
                 then Z.rem size BLOCK_SIZE else BLOCK_SIZE))
             map)
        [] (zip (seqZ 0 (Z.of_nat (List.length blocks))) blocks).

(** [for(let i = 0; i < blockNum; ++i) blocks[i] = nextBlockIndex()] *)
Fixpoint drawBlocks {S} (blockNum : nat) (nextBlockIndex : S -> Z * S) (s : S)
  : list Z * S :=
  match blockNum with
  | O => ([], s)
  | Datatypes.S n =>
      let '(block, s) := nextBlockIndex s in
      let '(rest, s) := drawBlocks n nextBlockIndex s in
      (block :: rest, s)
  end.

(** The writes to one file, in the order of their issue. *)
Fixpoint writeChunks (buffer : Buffer) (mapBlock : list Chunk) (content : Buffer)
  : completion Buffer :=
  match mapBlock with
  | [] => Normal content
  | c :: rest =>
      do content <- fs_write content buffer (chunk_id c * BLOCK_SIZE) (chunk_size c)
                      (chunk_block c * BLOCK_SIZE);
      writeChunks buffer rest content
  end.

(** The loop over the files of [map] in [saveImageBuffer].  A file is
    opened with flag ['a'], which creates it; in a folder that does not
    exist the open fails, the descriptor is [undefined] and the first
    write stops with a [TypeError].  When the last write to a file is
    done the callback is given [blocks]: the result lists the arguments
    of the calls of the callback. *)
Fixpoint saveFiles (folder : string) (buffer : Buffer) (blocks : list Z)
    (map : list (string * list Chunk)) (fs : FS) : completion (list (list Z) * FS) :=
  match map with
  | [] => Normal ([], fs)
  | (filename, mapBlock) :: rest =>
      if bool_decide (folder ∈ dirs fs) then
        do content <- writeChunks buffer mapBlock (default [] (files fs !! filename));
        do r <- saveFiles folder buffer blocks rest
                  (mkFS (dirs fs) (<[filename := content]> (files fs)));
        Normal (blocks :: fst r, snd r)
      else Thrown TypeError
  end.

(** [saveImageBuffer(folder, buffer, nextBlockIndex, callback)], the
    allocator [nextBlockIndex] acting on a state [S]: the arguments of the
    calls of the callback, the state of the allocator and the file system
    once every operation issued is done.  Operations complete in the
    order of their issue. *)
Definition saveImageBuffer {S} (folder : string) (buffer : Buffer)
    (nextBlockIndex : S -> Z * S) (s : S) (fs : FS)
  : completion (list (list Z) * S * FS) :=
  let byteLength := Z.of_nat (List.length buffer) in
  let blockNum := byteLength / BLOCK_SIZE + 1 in
  let '(blocks, s) := drawBlocks (Z.to_nat blockNum) nextBlockIndex s in
  let map := chunkMap folder blocks byteLength in
  do r <- saveFiles folder buffer blocks map fs;
  Normal (fst r, s, snd r).

(** The reads from one file, in the order of their issue. *)
Fixpoint readChunks (content : Buffer) (chunks : list Chunk) (buf : Buffer)
  : completion Buffer :=
  match chunks with
  | [] => Normal buf
  | c :: rest =>
      do buf <- fs_read content buf (chunk_id c * BLOCK_SIZE) (chunk_size c)
                  (chunk_block c * BLOCK_SIZE);
      readChunks content rest buf
  end.

(** The loop over the files of [map] in [loadImageBuffer].  A file that
    does not exist cannot be opened: the descriptor is [undefined] and the
    first read stops with a [TypeError].  When the last read from a file
    is done the callback is given [buf] as it is then. *)
Fixpoint loadFiles (map : list (string * list Chunk)) (fs : FS) (buf : Buffer)
  : completion (list Buffer) :=
  match map with
  | [] => Normal []
  | (filename, chunks) :: rest =>
      match files fs !! filename with
      | Some content =>
          do buf <- readChunks content chunks buf;
          do calls <- loadFiles rest fs buf;
          Normal (buf :: calls)
      | None => Thrown TypeError
      end
  end.

(** [loadImageBuffer(folder, blocks, size, callback)]: the arguments of
    the calls of the callback. *)
Definition loadImageBuffer (folder : string) (blocks : list Z) (size : Z) (fs : FS)
  : completion (list Buffer) :=
  let map := chunkMap folder blocks size in
  let buf := Buffer_alloc size in
  loadFiles map fs buf.

End BlockStorage.

(** ** common/localEngine.ts: payloads and persistence *)

Section Engine.

Context `{Platform}.

(** [if(callback !== undefined) callback(v)]: the calls made, as the list
    of their arguments; [null] is [None]. *)
Definition notify (callback : bool) (v : option string) : list (option string) :=
  if callback then [v] else [].

(** The callback given to [loadImageBuffer] by [loadImageURL], run on
    each buffer delivered. *)
Fixpoint deliver (spec : ImageSpecification) (imageId : Z) (callback : bool)
    (bufs : list Buffer) (e : LocalDataEngine)
  : list (option string) * LocalDataEngine :=
  match bufs with
  | [] => ([], e)
  | buf :: rest =>
      let dataUrl := PREFIX +:+ base64 (decryptBuffer (key e) buf) in
      let e := with_imageURLCache
                 (BufferCache.set (imageURLCache e) spec imageId dataUrl) e in
      let '(calls, e) := deliver spec imageId callback rest e in
      (notify callback (Some dataUrl) ++ calls, e)
  end.

(** [loadImageURL(imageId, specification, callback)]: the arguments of the
    calls of the callback and the engine afterwards.  [specification] and
    [callback] are optional.  Destructuring [undefined], the value of
    [this.memory.blocks[imageId][spec]] when the variant has no record, is
    a [TypeError]. *)
Definition loadImageURL (imageId : Z) (specification : option ImageSpecification)
    (callback : bool) (e : LocalDataEngine) (fs : FS)
  : completion (list (option string) * LocalDataEngine) :=
  let spec := if bool_decide (specification = Some Origin) then Origin else Exhibition in
  match BufferCache.get (imageURLCache e) spec imageId with
  | Some cache => Normal (notify callback (Some cache), e)
  | None =>
      match blocks (memory e) !! imageId with
      | None => Normal (notify callback None, e)
      | Some variants =>
          match at_spec spec variants with
          | None => Thrown TypeError
          | Some record =>
              match rec_blocks record with
              | None => Normal (notify callback None, e)
              | Some blocks =>
                  do bufs <- loadImageBuffer (storageFolder e) blocks (rec_size record) fs;
                  Normal (deliver spec imageId callback bufs e)
              end
          end
      end
  end.

(** The loop of [load] that collects the tags of the entries. *)
Definition collectTags (illusts : list Illustration) (m : SaveModel) : SaveModel :=
  foldl (fun m illust => putSubTags (images illust) (putTags (illust_tags illust) m))
        m illusts.

(** [load()]: the value returned, the engine and the file system
    afterwards.  [mkdirSync] is taken to succeed. *)
Definition load (e : LocalDataEngine) (fs : FS)
  : completion (bool * LocalDataEngine * FS) :=
  match files fs !! (storageFolder e +:+ "/" +:+ STORAGE) with
  | Some buf =>
      do data <- decrypt (key e) buf;
      match data with
      | JNull => Normal (false, e, fs)
      | _ =>
          match document_of_json data with
          | None => Thrown TypeError
          | Some doc =>
              let m := memory e in
              let m := with_illustrations (doc_illustrations doc) m in
              let m := with_nextIllustrationId (doc_nextIllustrationId doc) m in
              let m := with_nextImageId (doc_nextImageId doc) m in
              let m := with_nextBlockIndex (doc_nextBlockIndex doc) m in
              let m := with_blocks (doc_blocks doc) m in
              let m := with_unusedBlocks (doc_unusedBlocks doc) m in
              let m := match doc_config doc with
                       | Some c => with_config c m
                       | None => m
                       end in
              let m := with_tags [] m in
              let m := collectTags (illustrations m) m in
              Normal (true, with_memory m e, fs)
          end
      end
  | None =>
      let fs := if bool_decide (storageFolder e ∈ dirs fs) then fs
                else mkFS ({[ storageFolder e ]} ∪ dirs fs) (files fs) in
      let m := memory e in
      let m := with_nextIllustrationId 1 m in
      let m := with_nextImageId 1 m in
      let m := with_nextBlockIndex 0 m in
      let m := with_blocks ∅ m in
      let m := with_unusedBlocks [] m in
      let m := with_tags [] m in
      let m := with_illustrations [] m in
      let m := with_config ∅ m in
      Normal (true, with_memory m e, fs)
  end.

End Engine.

(** ** A platform to run the definitions on

    Stand-ins for the digests (the real ones are 56 and 64 hexadecimal
    digits) and for JSON, enough to evaluate the definitions above on
    concrete inputs. *)

Module Sample.

Definition digest (width : nat) (text : Buffer) : string :=
  string_of_list_byte (take width (text ++ replicate width "0"%byte)).

Definition stringify (j : Json) : string :=
  match j with
  | JNull => "null"
  | JBool true => "true"
  | JBool false => "false"
  | _ => "{}"
  end.

Definition parse (s : string) : option Json :=
  if bool_decide (s = "null") then Some JNull
  else if bool_decide (s = "true") then Some (JBool true)
  else if bool_decide (s = "false") then Some (JBool false)
  else if bool_decide (s = "{}") then Some (JObj [])
  else None.

#[export] Instance runtime : Runtime := {|
  sha224 := fun s => digest 56 (drop 7 (list_byte_of_string s));
  sha256 := fun s => digest 64 (reverse (list_byte_of_string s));
  JSON_stringify := stringify;
  JSON_parse := parse;
|}.

Definition platform (appends : bool) : Platform := {|
  platform_runtime := runtime;
  appendIgnoresPosition := appends;
  base64 := string_of_list_byte;
  PREFIX := "data:image/jpeg;base64,";
  document_of_json := fun _ => None;
|}.

End Sample.

(** ** Closed forms used in the statements *)

(** The group of [groupSize] bytes that holds index [i] in a buffer of
    [n] bytes, and the index that [loopChange] reads for index [i]: the
    group is turned by [step] places to the right. *)
Definition groupHead (groupSize i : Z) : Z := i / groupSize * groupSize.
Definition groupTail (n groupSize i : Z) : Z := Z.min (groupHead groupSize i + groupSize) n.
Definition rotatedIndex (n groupSize step i : Z) : Z :=
  groupHead groupSize i
  + (i - step - groupHead groupSize i) mod (groupTail n groupSize i - groupHead groupSize i).


(** The buffer [loopChange] returns. *)
Definition rotated (arr : Buffer) (groupSize step : Z) : Buffer :=
  (fun i => to_octet (buf_get arr (rotatedIndex (Z.of_nat (length arr)) groupSize step i)))
    <$> seqZ 0 (Z.of_nat (length arr)).



(** The text that [encrypt] turns into bytes. *)
Definition envelope `{Runtime} (key : string) (json : Json) : string :=
  "DATA:" +:+ turnToFlagSequence key +:+ ":" +:+ JSON_stringify json.

(** Every character, every string of a given length, and keys that are
    pairwise different: a digest of fixed length cannot tell all keys
    apart. *)
Definition all_ascii : list ascii :=
  (fun '(b0, (b1, (b2, (b3, (b4, (b5, (b6, b7))))))) => Ascii b0 b1 b2 b3 b4 b5 b6 b7)
    <$> enum bits8.

Fixpoint all_strings (n : nat) : list string :=
  match n with
  | O => [EmptyString]
  | S n => a ← all_ascii; s ← all_strings n; [String a s]
  end.

Definition repeated_key (i : nat) : string := string_of_list_byte (replicate i "a"%byte).


(** The result of a computation under a function. *)
Definition cmap {A B} (f : A -> B) (c : completion A) : completion B :=
  do a <- c; Normal (f a).

(** Every chunk of the table [map], and the chunk the loop makes for index
    [i] and block [block] of [count] blocks for [size] bytes. *)
Definition allChunks (map : list (string * list Chunk)) : list Chunk :=
  concat (snd <$> map).

Definition chunkOf (count size : Z) (ib : Z * Z) : Chunk :=
  mkChunk (fst ib) (Z.rem (snd ib) BLOCK_IN_FILE)
    (if fst ib =? count - 1 then Z.rem size BLOCK_SIZE else BLOCK_SIZE).

(** The chunks the loop makes for the blocks [base], [base + 1], ... *)
Definition ownChunks (count size base : Z) (d : nat) : list Chunk :=
  chunkOf count size <$> zip (seqZ base (Z.of_nat d)) (seqZ base (Z.of_nat d)).

(** The bytes in place when the chunks before chunk [k] are done. *)
Definition doneBytes (L k : Z) : nat := Z.to_nat (Z.min (k * BLOCK_SIZE) L).

(** A store to run the engine on: the entry 1 with the sub-item 2; the
    payload of the sub-item, 100000 bytes, is in the blocks 5 and 6, and its
    exhibition form is in the cache. *)
Module Scenario.

Definition entry : Illustration :=
  mkIllustration (Some 1) ["cat"] [mkImage (Some 2) [] []] [].

Definition store : SaveModel :=
  mkSaveModel 2 3 7 [] ["cat"] [entry]
    {[ 2 := mkPerSpec None None (Some (mkBlockRecord 100000 (Some [5; 6]))) ]} ∅.

Definition engine : LocalDataEngine :=
  mkLocalDataEngine "d" "k" store
    (BufferCache.set BufferCache.empty Exhibition 2 "data:image/jpeg;base64,AAAA").

Definition disk : FS := mkFS {[ "d" ]} ∅.

(** An allocator that counts the indices it gave out. *)
Definition counter (n : Z) : Z * Z := (n, n + 1).

End Scenario.

(** C2 as it is stated: the number of block indices obtained for a payload
    of [L] bytes, which is where the counter of a fresh allocator stands
    afterwards, is the ceiling of [L / BLOCK_SIZE], and 1 for no byte. *)
Definition split_claim (P : Platform) : Prop :=
  forall folder buffer m fs calls m' fs',
    unusedBlocks m = [] -> nextBlockIndex m = 0 ->
    saveImageBuffer folder buffer stepToNextBlockIndex m fs = Normal (calls, m', fs') ->
    let L := Z.of_nat (length buffer) in
    nextBlockIndex m' = if L =? 0 then 1 else (L + BLOCK_SIZE - 1) / BLOCK_SIZE.

(** C6 as it is stated: a sub-item and a variant with no cached value and
    no record in the block map are answered with [null], once. *)
Definition absent_is_not_found (P : Platform) : Prop :=
  forall imageId variant e fs,
    BufferCache.get (imageURLCache e) variant imageId = None ->
    (forall variants, blocks (memory e) !! imageId = Some variants ->
                      at_spec variant variants = None) ->
    loadImageURL imageId (Some variant) true e fs = Normal ([None], e).


(** ** common/localEngine.ts: update and save *)

(** The loop over the sub-items in [updateIllustration]. *)
Fixpoint updateImages (imgs : list Image) (m : SaveModel) : list Image * SaveModel :=
  match imgs with
  | [] => ([], m)
  | image :: rest =>
      let m := putTags (subTags image) m in
      let '(image, m) :=
        if no_id (image_id image) then
          let '(n, m) := stepToNextImageId m in
          (mkImage (Some n) (subTags image) (image_attributes image), m)
        else (image, m) in
      let '(rest, m) := updateImages rest m in
      (image :: rest, m)
  end.

(** The body of the loop of [updateIllustration].  The entry stored at
    [index] and added to [success] is the object whose sub-items get their
    ids afterwards: the store and the result hold those ids. *)
Definition updateOne (illust : Illustration) (st : list Illustration * SaveModel)
  : list Illustration * SaveModel :=
  let '(success, m) := st in
  let index := Arrays.indexOf (illustrations m)
                 (fun t => bool_decide (illust_id t = illust_id illust)) in
  if index >=? 0 then
    let m := putTags (illust_tags illust) m in
    let '(imgs, m) := updateImages (images illust) m in
    let illust := mkIllustration (illust_id illust) (illust_tags illust) imgs
                    (illust_attributes illust) in
    let m := with_illustrations (<[Z.to_nat index := illust]> (illustrations m)) m in
    (Arrays.append success illust, m)
  else (success, m).

(** [updateIllustration(illustrations)]: the array [success] and the
    engine afterwards.  The entries given are taken to be objects of
    their own, none given twice and none held by the store at another
    index. *)
Definition updateIllustration (illusts : list Illustration) (e : LocalDataEngine)
  : list Illustration * LocalDataEngine :=
  let '(success, m) := foldl (fun st illust => updateOne illust st) ([], memory e) illusts in
  (success, with_memory m e).

Section Persist.

Context `{Platform}.

(** The object literal that [save] gives to [encrypt], with its version
    tag, as JSON: the writing of the store at the types of
    common/engine.ts. *)
Variable json_of_document : Document -> Json.

(** What [save] puts in that object. *)
Definition storedDocument (m : SaveModel) : Document :=
  mkDocument (illustrations m) (nextIllustrationId m) (nextImageId m) (nextBlockIndex m)
    (blocks m) (unusedBlocks m) (Some (config m)).


End Persist.

(** ** util/encryption.ts: uuid *)

Module Uuid.

Definition chars : string :=
  "0123456789ABCDEFGHIJKLMNOPQRSTUVWXYZabcdefghijklmnopqrstuvwxyz".

(** [chars[d]]: [undefined], here [None], outside the array. *)
Definition charAt (d : Z) : option ascii :=
  if d <? 0 then None else String.get (Z.to_nat d) chars.

(** [uuid.join('')]: an element that is [undefined] prints as nothing. *)
Definition join (arr : list (option ascii)) : string :=
  string_of_list_ascii (omap (fun c => c) arr).

(** The loop of the rfc4122 form over the indices [is]; [k] draws were made
    before, and [draws k] is the value of [0 | Math.random()*16] at the
    draw number [k]. *)
Fixpoint rfc4122 (draws : nat -> Z) (k : nat) (indices : list Z) : list (option ascii) :=
  match indices with
  | [] => []
  | i :: rest =>
      if (i =? 8) || (i =? 13) || (i =? 18) || (i =? 23) then
        Some "-"%char :: rfc4122 draws k rest
      else if i =? 14 then Some "4"%char :: rfc4122 draws k rest
      else
        let r := draws k in
        charAt (if i =? 19 then Z.lor (Z.land r 3) 8 else r) :: rfc4122 draws (S k) rest
  end.

(** [uuid(len, radix)]: [len] is [None] for [undefined]; [draws k] is the
    value of [0 | Math.random()*radix] at the draw number [k], where
    [radix] is the argument, or 62 when that is 0 or [undefined]. *)
Definition uuid (len : option Z) (draws : nat -> Z) : string :=
  match len with
  | Some n =>
      if n =? 0 then join (rfc4122 draws 0 (seqZ 0 36))
      else join ((fun i => charAt (draws i)) <$> seq 0 (Z.to_nat n))
  | None => join (rfc4122 draws 0 (seqZ 0 36))
  end.

End Uuid.

Import Uuid.


(** ** More closed forms used in the statements *)

(** The fields of the store that [putTags] leaves alone. *)
Definition sameButTags (m m' : SaveModel) : Prop :=
  nextIllustrationId m' = nextIllustrationId m /\ nextImageId m' = nextImageId m
  /\ nextBlockIndex m' = nextBlockIndex m /\ unusedBlocks m' = unusedBlocks m
  /\ illustrations m' = illustrations m /\ blocks m' = blocks m /\ config m' = config m.

(** Every tag of an entry: its own and those of its sub-items. *)
Definition allTags (illust : Illustration) : list string :=
  illust_tags illust ++ concat (subTags <$> images illust).

(** The fields of the store that hold the block storage and the config. *)
Definition sameStorage (m m' : SaveModel) : Prop :=
  nextBlockIndex m' = nextBlockIndex m /\ unusedBlocks m' = unusedBlocks m
  /\ blocks m' = blocks m /\ config m' = config m.

(** What an entry created from [x] keeps of [x]. *)
Definition createdFrom (x r : Illustration) : Prop :=
  illust_tags r = illust_tags x
  /\ illust_attributes r = illust_attributes x
  /\ subTags <$> images r = subTags <$> images x
  /\ (no_id (illust_id x) = false -> illust_id r = illust_id x).

(** The id an element of the argument of [deleteIllustration] stands for. *)
Definition idOf (ii : Illustration + Z) : option Z :=
  match ii with
  | inr n => Some n
  | inl illust => illust_id illust
  end.

(** The counter [c] and the [n] steps from it are in the range where
    [c++] adds one exactly. *)
Definition exactCounters (c : Z) (n : nat) : Prop :=
  - 2 ^ 53 <= c /\ c + Z.of_nat n <= 2 ^ 53.

(** The entries and the sub-items that have no id, and every sub-item of
    a list of entries. *)
Definition withoutId (illusts : list Illustration) : list Illustration :=
  filter (fun x => no_id (illust_id x) = true) illusts.

Definition imagesWithoutId (imgs : list Image) : list Image :=
  filter (fun i => no_id (image_id i) = true) imgs.

Definition allImages (illusts : list Illustration) : list Image :=
  concat (images <$> illusts).

(** An entry or a sub-item is an object, and giving it an id changes the
    object wherever it is held.  Two places that hold one object hold
    equal values; so when the entries without id of an argument are
    pairwise different, its sub-items without id are pairwise different,
    and none of them is among the entries and sub-items stored, no object
    that gets an id is held twice, and the entries can be taken as
    values. *)
Definition ownObjects (stored illusts : list Illustration) : Prop :=
  NoDup (withoutId illusts)
  /\ NoDup (imagesWithoutId (allImages illusts))
  /\ (forall x, x ∈ withoutId illusts -> x ∉ stored)
  /\ (forall i, i ∈ imagesWithoutId (allImages illusts) -> i ∉ allImages stored).

(** Modelled from the spec: the release of a block index, which the
    sources do not have ([deleteIllustration] leaves it to do): the index
    goes to the end of the free list, "consumed FIFO",
    "oldest-freed-first". *)
Definition release (block : Z) (m : SaveModel) : SaveModel :=
  with_unusedBlocks (unusedBlocks m ++ [block]) m.


(** What a sub-item and an entry taken by [updateIllustration] keep of the
    sub-item and the entry given, and the place of the first stored entry
    with the id of [t]. *)
Definition imageFrom (i j : Image) : Prop :=
  subTags j = subTags i /\ image_attributes j = image_attributes i
  /\ (if no_id (image_id i) then exists n, image_id j = Some n
      else image_id j = image_id i).

Definition updatedFrom (x r : Illustration) : Prop :=
  illust_id r = illust_id x /\ illust_tags r = illust_tags x
  /\ illust_attributes r = illust_attributes x
  /\ Forall2 imageFrom (images x) (images r).

Definition firstWithId (stored : list Illustration) (t : Illustration) : Z :=
  Arrays.indexOf stored (fun u => bool_decide (illust_id u = illust_id t)).

(** The characters that [uuid] puts at index 19. *)
Definition variantDigit (c : option ascii) : Prop :=
  c = Some "8"%char \/ c = Some "9"%char \/ c = Some "A"%char \/ c = Some "B"%char.

(** The ciphertext of a document, for the runs below. *)
Definition cipher `{Runtime} (k : string) (json : Json) : Buffer :=
  match encrypt k json with
  | Normal c => c
  | _ => []
  end.

(** More to run the engine on: a platform that reads every JSON object as
    the document [doc], the writing of a document as an object without
    fields, an engine with a new store, an engine whose sub-item 2 has its
    origin form, one byte, in the block 0, and a folder that holds that
    block and a data file. *)
Module Runs.

Definition reading (doc : Document) : Platform := {|
  platform_runtime := Sample.runtime;
  appendIgnoresPosition := false;
  base64 := string_of_list_byte;
  PREFIX := "data:image/jpeg;base64,";
  document_of_json := fun j => match j with JObj _ => Some doc | _ => None end;
|}.


Definition fresh : LocalDataEngine :=
  mkLocalDataEngine "d" "k" (mkSaveModel 1 1 0 [] [] [] ∅ ∅) BufferCache.empty.

Definition stored : LocalDataEngine :=
  mkLocalDataEngine "d" "k"
    (mkSaveModel 2 3 1 [] [] [mkIllustration (Some 1) [] [mkImage (Some 2) [] []] []]
       {[ 2 := mkPerSpec None None (Some (mkBlockRecord 1 (Some [0]))) ]} ∅)
    BufferCache.empty.

Definition disk : FS :=
  mkFS {[ "d" ]}
    {[ "d/block-a.dat" := list_byte_of_string "h";
       "d/data.db" := @cipher Sample.runtime "k" (JObj []) ]}.

(** The same data file without its last byte. *)
Definition damaged : FS :=
  mkFS {[ "d" ]} {[ "d/data.db" := removelast (@cipher Sample.runtime "k" (JObj [])) ]}.


End Runs.

(** * Properties *)

(** ** The codec: exclusive or *)

Lemma xor_bits_cancel a b : xor_bits (xor_bits a b) b = a.
Proof.
  destruct a as (a0 & a1 & a2 & a3 & a4 & a5 & a6 & a7).
  destruct b as (b0 & b1 & b2 & b3 & b4 & b5 & b6 & b7).
  cbn. by rewrite !xorb_assoc, !xorb_nilpotent, !xorb_false_r.
Qed.

Lemma byte_xor_cancel a b : byte_xor (byte_xor a b) b = a.
Proof.
  unfold byte_xor. rewrite Byte.to_bits_of_bits, xor_bits_cancel.
  apply Byte.of_bits_to_bits.
Qed.

Lemma xor_js_cancel a k : xor_js (xor_js a k) k = a.
Proof. destruct k; [apply byte_xor_cancel | done]. Qed.

Lemma xor_from_cancel key data j : xor_from j (xor_from j data key) key = data.
Proof.
  revert j. induction data as [|b data IH]; intros j; [done|].
  cbn [xor_from]. by rewrite xor_js_cancel, IH.
Qed.

Lemma xor_cancel data key : xor (xor data key) key = data.
Proof. apply xor_from_cancel. Qed.

Lemma length_xor_from key data j : length (xor_from j data key) = length data.
Proof. revert j. induction data; intros; cbn [xor_from length]; [done | by f_equal]. Qed.

(** ** The codec: rotation inside groups *)

Lemma while_below_closed bound head span goal :
  0 < span -> head - goal <= Z.of_nat bound * span ->
  while_below bound head span goal
  = Some (if goal <? head then head + (goal - head) mod span else goal).
Proof.
  intros Hspan. revert goal. induction bound as [|b IH]; intros goal Hb; cbn [while_below].
  - destruct (Z.ltb_spec goal head); [lia | done].
  - destruct (Z.ltb_spec goal head) as [Hlt|Hge]; [|done].
    rewrite IH by lia.
    replace (goal + span - head) with (goal - head + 1 * span) by lia.
    rewrite Z.mod_add by lia.
    destruct (Z.ltb_spec (goal + span) head); [done|].
    f_equal. symmetry.
    assert ((goal - head) mod span = goal - head + span); [|lia].
    replace (goal - head) with (goal - head + span + (-1) * span) at 1 by lia.
    rewrite Z.mod_add by lia. apply Z.mod_small. lia.
Qed.

Lemma while_reaching_closed bound tail span goal :
  0 < span -> goal - tail < Z.of_nat bound * span ->
  while_reaching bound tail span goal
  = Some (if goal >=? tail then tail - span + (goal - (tail - span)) mod span else goal).
Proof.
  intros Hspan. revert goal. induction bound as [|b IH]; intros goal Hb; cbn [while_reaching].
  - destruct (Z.geb_spec goal tail); [lia | done].
  - destruct (Z.geb_spec goal tail) as [Hge|Hlt]; [|done].
    rewrite IH by lia.
    replace (goal - span - (tail - span)) with (goal - (tail - span) + (-1) * span) by lia.
    rewrite Z.mod_add by lia.
    destruct (Z.geb_spec (goal - span) tail); [done|].
    f_equal. symmetry.
    assert ((goal - (tail - span)) mod span = goal - tail); [|lia].
    replace (goal - (tail - span)) with (goal - tail + 1 * span) by lia.
    rewrite Z.mod_add by lia. apply Z.mod_small. lia.
Qed.

Lemma group_bounds n groupSize i :
  1 <= groupSize -> 0 <= i < n ->
  groupHead groupSize i <= i < groupTail n groupSize i
  /\ groupTail n groupSize i <= groupHead groupSize i + groupSize.
Proof.
  intros Hg Hi. unfold groupTail, groupHead.
  pose proof (Z.mul_div_le i groupSize ltac:(lia)).
  pose proof (Z.mul_succ_div_gt i groupSize ltac:(lia)). lia.
Qed.

Lemma loopGoal_closed n groupSize step i :
  1 <= groupSize -> 0 <= i < n ->
  loopGoal n groupSize step i = Some (rotatedIndex n groupSize step i).
Proof.
  intros Hg Hi. pose proof (group_bounds n groupSize i Hg Hi) as (Hhead & Htail).
  unfold loopGoal, rotatedIndex.
  fold (groupHead groupSize i).
  replace (if groupHead groupSize i + groupSize >? n then n
           else groupHead groupSize i + groupSize) with (groupTail n groupSize i).
  2:{ unfold groupTail. destruct (Z.gtb_spec (groupHead groupSize i + groupSize) n); lia. }
  set (head := groupHead groupSize i) in *. set (tail := groupTail n groupSize i) in *.
  assert (0 < tail - head) as Hspan by lia.
  pose proof (Z.mod_pos_bound (i - step - head) (tail - head) Hspan) as Hmod.
  pose proof (Zabs2Nat.id_abs step) as Habs.
  rewrite while_below_closed by nia.
  cbn [mbind option_bind].
  destruct (Z.ltb_spec (i - step) head) as [Hlow|Hlow].
  - rewrite while_reaching_closed by nia.
    destruct (Z.geb_spec (head + (i - step - head) mod (tail - head)) tail); [lia|done].
  - rewrite while_reaching_closed by nia.
    destruct (Z.geb_spec (i - step) tail) as [Hhigh|Hhigh].
    + f_equal. replace (tail - (tail - head)) with head by lia. done.
    + f_equal. rewrite Z.mod_small; lia.
Qed.

Lemma rotatedIndex_bounds n groupSize step i :
  1 <= groupSize -> 0 <= i < n ->
  groupHead groupSize i <= rotatedIndex n groupSize step i < groupTail n groupSize i.
Proof.
  intros Hg Hi. pose proof (group_bounds n groupSize i Hg Hi) as (Hhead & Htail).
  unfold rotatedIndex.
  pose proof (Z.mod_pos_bound (i - step - groupHead groupSize i)
                (groupTail n groupSize i - groupHead groupSize i) ltac:(lia)). lia.
Qed.

Lemma groupHead_same groupSize i j :
  1 <= groupSize -> groupHead groupSize i <= j < groupHead groupSize i + groupSize ->
  groupHead groupSize j = groupHead groupSize i.
Proof.
  intros Hg Hj. unfold groupHead in *. f_equal.
  symmetry. apply Z.div_unique with (r := j - i / groupSize * groupSize); lia.
Qed.

Lemma rotatedIndex_inverse n groupSize step i :
  1 <= groupSize -> 0 <= i < n ->
  rotatedIndex n groupSize step (rotatedIndex n groupSize (- step) i) = i.
Proof.
  intros Hg Hi. pose proof (group_bounds n groupSize i Hg Hi) as (Hhead & Htail).
  pose proof (rotatedIndex_bounds n groupSize (- step) i Hg Hi) as Hj.
  set (j := rotatedIndex n groupSize (- step) i) in *.
  assert (groupHead groupSize j = groupHead groupSize i) as Hsame
    by (apply groupHead_same; lia).
  unfold rotatedIndex at 1. unfold groupTail. rewrite Hsame. fold (groupTail n groupSize i).
  subst j. unfold rotatedIndex.
  set (head := groupHead groupSize i) in *. set (tail := groupTail n groupSize i) in *.
  replace (i - - step - head) with (i + step - head) by lia.
  replace (head + (i + step - head) mod (tail - head) - step - head)
    with ((i + step - head) mod (tail - head) - step) by lia.
  rewrite Zminus_mod_idemp_l.
  replace (i + step - head - step) with (i - head) by lia.
  rewrite Z.mod_small; lia.
Qed.

Lemma mapM_closed {A B} (f : A -> option B) (h : A -> B) (l : list A) :
  (forall x, x ∈ l -> f x = Some (h x)) -> mapM f l = Some (h <$> l).
Proof.
  intros Hf. apply mapM_Some_2. induction l as [|x l IH]; cbn; constructor.
  - apply Hf. left.
  - apply IH. intros y Hy. apply Hf. by right.
Qed.

Lemma loopChange_closed arr groupSize step :
  1 <= groupSize -> loopChange arr groupSize step = Normal (rotated arr groupSize step).
Proof.
  intros Hg. unfold loopChange, rotated.
  erewrite mapM_closed; [done|].
  intros i Hi. apply elem_of_seqZ in Hi.
  rewrite loopGoal_closed by lia. done.
Qed.

Lemma length_rotated arr groupSize step :
  length (rotated arr groupSize step) = length arr.
Proof. unfold rotated. rewrite length_fmap, length_seqZ. lia. Qed.

Lemma lookup_rotated arr groupSize step (i : nat) :
  1 <= groupSize -> (i < length arr)%nat ->
  rotated arr groupSize step !! i
  = arr !! Z.to_nat (rotatedIndex (Z.of_nat (length arr)) groupSize step (Z.of_nat i)).
Proof.
  intros Hg Hi. unfold rotated. rewrite list_lookup_fmap, lookup_seqZ_lt by lia.
  cbn. rewrite Z.add_0_l.
  pose proof (rotatedIndex_bounds (Z.of_nat (length arr)) groupSize step (Z.of_nat i) Hg
                ltac:(lia)) as Hb.
  pose proof (group_bounds (Z.of_nat (length arr)) groupSize (Z.of_nat i) Hg ltac:(lia)).
  assert (groupTail (Z.of_nat (length arr)) groupSize (Z.of_nat i) <= Z.of_nat (length arr))
    by (unfold groupTail; lia).
  assert (0 <= groupHead groupSize (Z.of_nat i))
    by (unfold groupHead; apply Z.mul_nonneg_nonneg; [apply Z.div_pos|]; lia).
  unfold buf_get. destruct (Z.ltb_spec (rotatedIndex (Z.of_nat (length arr)) groupSize step (Z.of_nat i)) 0); [lia|].
  destruct (lookup_lt_is_Some_2 arr (Z.to_nat (rotatedIndex (Z.of_nat (length arr)) groupSize step (Z.of_nat i)))) as [x Hx]; [lia|].
  by rewrite Hx.
Qed.

Lemma rotated_inverse arr groupSize step :
  1 <= groupSize -> rotated (rotated arr groupSize step) groupSize (- step) = arr.
Proof.
  intros Hg. apply list_eq. intros i.
  destruct (decide (i < length arr)%nat) as [Hi|Hi].
  - rewrite lookup_rotated by (rewrite ?length_rotated; lia).
    rewrite length_rotated.
    pose proof (rotatedIndex_bounds (Z.of_nat (length arr)) groupSize (- step) (Z.of_nat i) Hg
                  ltac:(lia)) as Hb.
    pose proof (group_bounds (Z.of_nat (length arr)) groupSize (Z.of_nat i) Hg ltac:(lia)).
    assert (groupTail (Z.of_nat (length arr)) groupSize (Z.of_nat i) <= Z.of_nat (length arr))
      by (unfold groupTail; lia).
    assert (0 <= groupHead groupSize (Z.of_nat i))
      by (unfold groupHead; apply Z.mul_nonneg_nonneg; [apply Z.div_pos|]; lia).
    rewrite lookup_rotated by lia.
    rewrite Z2Nat.id by lia.
    rewrite rotatedIndex_inverse by lia. by rewrite Nat2Z.id.
  - rewrite !lookup_ge_None_2; [done| lia | rewrite !length_rotated; lia].
Qed.

Lemma loopChange_round_trip arr groupSize step :
  1 <= groupSize ->
  (do r <- loopChange arr groupSize step; loopChange r groupSize (- step)) = Normal arr.
Proof.
  intros Hg. rewrite loopChange_closed by done. cbn [cbind].
  rewrite loopChange_closed by done. by rewrite rotated_inverse.
Qed.

(** ** Strings and their bytes *)

Lemma bytes_of_String a s :
  list_byte_of_string (String a s) = byte_of_ascii a :: list_byte_of_string s.
Proof. reflexivity. Qed.

Lemma bytes_of_append s1 s2 :
  list_byte_of_string (s1 +:+ s2) = list_byte_of_string s1 ++ list_byte_of_string s2.
Proof.
  induction s1 as [|a s1 IH]; [done|].
  change (String a s1 +:+ s2) with (String a (s1 +:+ s2)).
  rewrite !bytes_of_String, IH. done.
Qed.

Lemma length_bytes s : length (list_byte_of_string s) = String.length s.
Proof.
  induction s as [|a s IH]; [done|].
  rewrite bytes_of_String. cbn. by rewrite IH.
Qed.

Lemma bytes_of_substring s n m :
  list_byte_of_string (substring n m s) = take m (drop n (list_byte_of_string s)).
Proof.
  revert n m. induction s as [|a s IH]; intros n m.
  - destruct n, m; done.
  - destruct n as [|n].
    + destruct m as [|m]; [done|]. cbn [substring].
      rewrite !bytes_of_String, IH. done.
    + cbn [substring]. rewrite bytes_of_String, IH. done.
Qed.

Lemma bytes_inj s1 s2 : list_byte_of_string s1 = list_byte_of_string s2 -> s1 = s2.
Proof.
  intros Heq. rewrite <- (string_of_list_byte_of_string s1), Heq.
  apply string_of_list_byte_of_string.
Qed.


(** ** The codec: documents *)

Section CodecFacts.
Context `{Runtime}.

Lemma encrypt_closed key json :
  encrypt key json
  = Normal (xor (rotated (turnToBinary (envelope key json)) 8 1)
                (turnToBinary (turnToPasswordSequence key))).
Proof. unfold encrypt. rewrite loopChange_closed by lia. done. Qed.

Lemma slice_prefix (p rest : string) :
  slice_to (String.length p) (p +:+ rest) = p.
Proof.
  apply bytes_inj. unfold slice_to.
  rewrite bytes_of_substring, bytes_of_append, drop_0.
  rewrite <- length_bytes. by rewrite take_app_length.
Qed.

Lemma slice_suffix (p rest : string) :
  slice_from (String.length p) (p +:+ rest) = rest.
Proof.
  apply bytes_inj. unfold slice_from.
  rewrite bytes_of_substring, bytes_of_append.
  rewrite <- !length_bytes, bytes_of_append, drop_app_length.
  rewrite length_app. apply take_ge. lia.
Qed.

Lemma length_append s1 s2 :
  String.length (s1 +:+ s2) = (String.length s1 + String.length s2)%nat.
Proof. by rewrite <- !length_bytes, bytes_of_append, length_app. Qed.

(** What [decrypt] does to a ciphertext made with a key of the same
    password sequence. *)
Lemma decrypt_same_password k k2 json :
  turnToPasswordSequence k2 = turnToPasswordSequence k ->
  (do c <- encrypt k json; decrypt k2 c)
  = let data := envelope k json in
    let prefix := "DATA:" +:+ turnToFlagSequence k2 +:+ ":" in
    if (String.length prefix <=? String.length data)%nat
       && bool_decide (slice_to (String.length prefix) data = prefix) then
      match JSON_parse (slice_from (String.length prefix) data) with
      | Some json => Normal json
      | None => Thrown SyntaxError
      end
    else Normal JNull.
Proof.
  intros HP. rewrite encrypt_closed. cbn [cbind]. unfold decrypt.
  rewrite HP, xor_cancel, loopChange_closed by lia. cbn [cbind].
  replace (-1) with (- 1) by lia. rewrite rotated_inverse by lia.
  unfold turnToString, turnToBinary. rewrite string_of_list_byte_of_string. done.
Qed.

Lemma decrypt_encrypt k json :
  JSON_parse (JSON_stringify json) = Some json ->
  (do c <- encrypt k json; decrypt k c) = Normal json.
Proof.
  intros Hjson. rewrite decrypt_same_password by done. cbn zeta.
  unfold envelope.
  replace ("DATA:" +:+ turnToFlagSequence k +:+ ":" +:+ JSON_stringify json)
    with (("DATA:" +:+ turnToFlagSequence k +:+ ":") +:+ JSON_stringify json).
  2:{ apply bytes_inj. rewrite !bytes_of_append. by rewrite <- !app_assoc. }
  rewrite slice_prefix, slice_suffix, Hjson.
  rewrite bool_decide_eq_true_2 by done.
  rewrite (proj2 (Nat.leb_le _ _)) by (rewrite !length_append; lia). done.
Qed.

Lemma decrypt_other_flag k k2 json :
  turnToPasswordSequence k2 = turnToPasswordSequence k ->
  String.length (turnToFlagSequence k2) = String.length (turnToFlagSequence k) ->
  turnToFlagSequence k2 <> turnToFlagSequence k ->
  (do c <- encrypt k json; decrypt k2 c) = Normal JNull.
Proof.
  intros HP Hlen Hflag. rewrite decrypt_same_password by done. cbn zeta.
  unfold envelope.
  replace ("DATA:" +:+ turnToFlagSequence k +:+ ":" +:+ JSON_stringify json)
    with (("DATA:" +:+ turnToFlagSequence k +:+ ":") +:+ JSON_stringify json).
  2:{ apply bytes_inj. rewrite !bytes_of_append. by rewrite <- !app_assoc. }
  replace (String.length ("DATA:" +:+ turnToFlagSequence k2 +:+ ":"))
    with (String.length ("DATA:" +:+ turnToFlagSequence k +:+ ":"))
    by (rewrite !length_append; lia).
  rewrite slice_prefix, bool_decide_eq_false_2, andb_false_r; [done|].
  intros Heq. apply Hflag. apply bytes_inj.
  apply (f_equal list_byte_of_string) in Heq. rewrite !bytes_of_append in Heq.
  apply app_inv_head, app_inv_tail in Heq. done.
Qed.

Lemma lookup_xor_from key data (j i : nat) :
  (j + i < length key)%nat ->
  xor_from j data key !! i = (fun b => xor_js b (key !! (j + i)%nat)) <$> data !! i.
Proof.
  revert j i. induction data as [|b data IH]; intros j i Hlt; [done|].
  cbn [xor_from]. destruct (Nat.leb_spec (length key) j); [lia|].
  destruct i as [|i]; cbn.
  - by rewrite Nat.add_0_r.
  - rewrite IH by lia. by replace (S j + i)%nat with (j + S i)%nat by lia.
Qed.

Lemma lookup_xor key data (i : nat) :
  (i < length key)%nat ->
  xor data key !! i = (fun b => xor_js b (key !! i)) <$> data !! i.
Proof. intros. unfold xor. by rewrite lookup_xor_from. Qed.

Lemma length_xor key data : length (xor data key) = length data.
Proof. apply length_xor_from. Qed.

Lemma rotatedIndex_first_group n step i :
  0 <= i < Z.min 8 n ->
  rotatedIndex n 8 step i = (i - step) mod Z.min 8 n.
Proof.
  intros Hi. unfold rotatedIndex, groupTail, groupHead.
  rewrite Z.div_small by lia. change (0 * 8) with 0.
  rewrite !Z.add_0_l, !Z.sub_0_r. done.
Qed.

Lemma xor_bits_comm a b : xor_bits a b = xor_bits b a.
Proof.
  destruct a as (a0 & a1 & a2 & a3 & a4 & a5 & a6 & a7).
  destruct b as (b0 & b1 & b2 & b3 & b4 & b5 & b6 & b7).
  cbn. by rewrite (xorb_comm a0), (xorb_comm a1), (xorb_comm a2), (xorb_comm a3),
    (xorb_comm a4), (xorb_comm a5), (xorb_comm a6), (xorb_comm a7).
Qed.

Lemma byte_xor_comm a b : byte_xor a b = byte_xor b a.
Proof. unfold byte_xor. by rewrite xor_bits_comm. Qed.

Lemma byte_xor_twice_id m a b : byte_xor (byte_xor m a) b = m -> a = b.
Proof.
  intros Heq. apply (f_equal (fun x => byte_xor x b)) in Heq.
  rewrite byte_xor_cancel in Heq.
  rewrite <- (byte_xor_cancel a m), <- (byte_xor_cancel b m).
  by rewrite (byte_xor_comm a m), (byte_xor_comm b m), Heq.
Qed.

Lemma decrypt_other_password k k2 json (j : nat) :
  (1 <= j <= 5)%nat ->
  (5 < String.length (turnToPasswordSequence k))%nat ->
  (5 < String.length (turnToPasswordSequence k2))%nat ->
  turnToBinary (turnToPasswordSequence k2) !! j
    <> turnToBinary (turnToPasswordSequence k) !! j ->
  (do c <- encrypt k json; decrypt k2 c) = Normal JNull.
Proof.
  intros Hj HlenP HlenP2 Hdiff. rewrite encrypt_closed. cbn [cbind]. unfold decrypt.
  rewrite loopChange_closed by lia. cbn [cbind].
  set (e := turnToBinary (envelope k json)).
  set (P := turnToBinary (turnToPasswordSequence k)) in *.
  set (P2 := turnToBinary (turnToPasswordSequence k2)) in *.
  assert (length P = String.length (turnToPasswordSequence k)) as HP by apply length_bytes.
  assert (length P2 = String.length (turnToPasswordSequence k2)) as HP2 by apply length_bytes.
  set (u := rotated (xor (xor (rotated e 8 1) P) P2) 8 (-1)).
  rewrite bool_decide_eq_false_2, andb_false_r; [done|].
  intros Heq. apply Hdiff.
  apply (f_equal list_byte_of_string) in Heq.
  unfold slice_to, turnToString in Heq.
  rewrite bytes_of_substring, list_byte_of_string_of_list_byte, drop_0 in Heq.
  rewrite !bytes_of_append in Heq.
  assert (e = list_byte_of_string "DATA:"
              ++ list_byte_of_string (turnToFlagSequence k +:+ ":" +:+ JSON_stringify json))
    as He by (subst e; unfold envelope, turnToBinary; by rewrite bytes_of_append).
  assert (6 <= length e)%nat as Hn.
  { rewrite He, length_app, !bytes_of_append, !length_app. cbn. lia. }
  assert (length u = length e) as Hu
    by (subst u; by rewrite length_rotated, !length_xor, length_rotated).
  destruct j as [|i]; [lia|].
  assert (u !! i = list_byte_of_string "DATA:" !! i) as Hui.
  { apply (f_equal (fun l => l !! i)) in Heq.
    rewrite lookup_take_lt in Heq by (rewrite <- length_bytes, !bytes_of_append, !length_app; cbn; lia).
    rewrite Heq. apply lookup_app_l. cbn. lia. }
  assert (e !! i = list_byte_of_string "DATA:" !! i) as Hei
    by (rewrite He; apply lookup_app_l; cbn; lia).
  destruct (lookup_lt_is_Some_2 (list_byte_of_string "DATA:") i ltac:(cbn; lia)) as [m Hm].
  rewrite Hm in Hui, Hei.
  subst u. rewrite lookup_rotated in Hui by (rewrite ?length_xor, ?length_rotated; lia).
  rewrite !length_xor, length_rotated in Hui.
  rewrite rotatedIndex_first_group in Hui by lia.
  replace ((Z.of_nat i - -1) mod Z.min 8 (Z.of_nat (length e))) with (Z.of_nat (S i)) in Hui
    by (rewrite Z.mod_small; lia).
  rewrite Nat2Z.id in Hui.
  rewrite !lookup_xor in Hui by lia.
  rewrite lookup_rotated in Hui by lia.
  rewrite rotatedIndex_first_group in Hui by lia.
  replace ((Z.of_nat (S i) - 1) mod Z.min 8 (Z.of_nat (length e))) with (Z.of_nat i) in Hui
    by (rewrite Z.mod_small; lia).
  rewrite Nat2Z.id, Hei in Hui. cbn in Hui.
  destruct (lookup_lt_is_Some_2 P (S i) ltac:(lia)) as [p Hp].
  destruct (lookup_lt_is_Some_2 P2 (S i) ltac:(lia)) as [p2 Hp2].
  rewrite Hp, Hp2 in Hui |- *. cbn in Hui.
  injection Hui as Hui. apply byte_xor_twice_id in Hui. by rewrite Hui.
Qed.

Lemma decrypt_same_digests k k2 buf :
  turnToPasswordSequence k2 = turnToPasswordSequence k ->
  turnToFlagSequence k2 = turnToFlagSequence k ->
  decrypt k2 buf = decrypt k buf.
Proof. intros HP HF. unfold decrypt. by rewrite HP, HF. Qed.

Lemma encrypt_injective k json1 json2 :
  encrypt k json1 = encrypt k json2 <-> JSON_stringify json1 = JSON_stringify json2.
Proof.
  split.
  - rewrite !encrypt_closed. intros Heq. injection Heq as Heq.
    apply (f_equal (fun c => xor c (turnToBinary (turnToPasswordSequence k)))) in Heq.
    rewrite !xor_cancel in Heq.
    apply (f_equal (fun r => rotated r 8 (- 1))) in Heq.
    rewrite !rotated_inverse in Heq by lia.
    apply bytes_inj in Heq. unfold envelope in Heq.
    apply (f_equal list_byte_of_string) in Heq. rewrite !bytes_of_append in Heq.
    do 3 apply app_inv_head in Heq. by apply bytes_inj.
  - intros Heq. unfold encrypt. by rewrite Heq.
Qed.
End CodecFacts.

Lemma elem_of_all_ascii a : a ∈ all_ascii.
Proof.
  destruct a as [b0 b1 b2 b3 b4 b5 b6 b7]. apply list_elem_of_fmap.
  exists (b0, (b1, (b2, (b3, (b4, (b5, (b6, b7))))))). split; [done | apply elem_of_enum].
Qed.

Lemma elem_of_all_strings s : s ∈ all_strings (String.length s).
Proof.
  induction s as [|a s IH]; cbn [all_strings String.length]; [by left|].
  apply list_elem_of_bind. exists a. split; [|apply elem_of_all_ascii].
  apply list_elem_of_bind. exists s. split; [by left | done].
Qed.

Lemma repeated_key_inj i j : repeated_key i = repeated_key j -> i = j.
Proof.
  intros Heq. apply (f_equal list_byte_of_string) in Heq. unfold repeated_key in Heq.
  rewrite !list_byte_of_string_of_list_byte in Heq.
  apply (f_equal length) in Heq. by rewrite !length_replicate in Heq.
Qed.

Section Collisions.
Context `{Runtime}.

(** Digests of a fixed length cannot tell all keys apart. *)
Lemma colliding_keys n m :
  (forall s, String.length (sha224 s) = n) ->
  (forall s, String.length (sha256 s) = m) ->
  exists k k2, k2 <> k
    /\ turnToPasswordSequence k2 = turnToPasswordSequence k
    /\ turnToFlagSequence k2 = turnToFlagSequence k.
Proof.
  intros H224 H256.
  set (digests := fun i => (turnToPasswordSequence (repeated_key i),
                            turnToFlagSequence (repeated_key i))).
  set (l2 := a ← all_strings n; b ← all_strings m; [(a, b)]).
  destruct (list_pigeonhole (digests <$> seq 0 (S (length l2))) l2)
    as (i1 & i2 & x & Hlt & H1 & H2).
  - intros x Hx. apply list_elem_of_fmap in Hx as (i & -> & _).
    apply list_elem_of_bind. exists (turnToPasswordSequence (repeated_key i)).
    split; [|rewrite <- (H224 ("photos." +:+ repeated_key i +:+ ".heerkirov.com")); apply elem_of_all_strings].
    apply list_elem_of_bind. exists (turnToFlagSequence (repeated_key i)).
    split; [by left|].
    rewrite <- (H256 ("photos." +:+ repeated_key i +:+ ".heerkirov.com")); apply elem_of_all_strings.
  - rewrite length_fmap, length_seq. lia.
  - rewrite list_lookup_fmap in H1, H2.
    destruct (seq 0 (S (length l2)) !! i1) as [j1|] eqn:E1; [|done].
    destruct (seq 0 (S (length l2)) !! i2) as [j2|] eqn:E2; [|done].
    apply lookup_seq in E1 as [-> _]. apply lookup_seq in E2 as [-> _].
    cbn in H1, H2. rewrite <- H1 in H2. injection H2 as HP HF.
    exists (repeated_key i1), (repeated_key i2). split; [|done].
    intros Heq. apply repeated_key_inj in Heq. lia.
Qed.
End Collisions.


(** ** The codec: the claims *)

(** X24.  The round trip of the codec: a document that survives
    [JSON.stringify] and [JSON.parse] comes back from [decrypt] out of its
    own ciphertext under the same key, whatever the key and however long
    the document. *)
Theorem codec_round_trip `{Runtime} (k : string) (json : Json) :
  JSON_parse (JSON_stringify json) = Some json ->
  exists c, encrypt k json = Normal c /\ decrypt k c = Normal json.
Proof.
  intros Hjson. pose proof (decrypt_encrypt k json Hjson) as Hround.
  rewrite encrypt_closed in Hround |- *. by eexists.
Qed.

Lemma codec_round_trip_witness :
  let _ := Sample.runtime in
  exists c, encrypt "ak" (JBool true) = Normal c /\ decrypt "ak" c = Normal (JBool true).
Proof.
  intros R. exact (codec_round_trip "ak" (JBool true) eq_refl).
Defined.

(** X25.  A second key whose password sequence differs from that of the
    first key in one of its bytes 1 to 5, the bytes that mask the marker
    [DATA:], gets [null] from [decrypt] for every ciphertext of the first
    key: the prefix test fails before anything is parsed. *)
Theorem decrypt_wrong_password_is_null `{Runtime} (k k2 : string) (json : Json) (j : nat) :
  (1 <= j <= 5)%nat ->
  (5 < String.length (turnToPasswordSequence k))%nat ->
  (5 < String.length (turnToPasswordSequence k2))%nat ->
  turnToBinary (turnToPasswordSequence k2) !! j
    <> turnToBinary (turnToPasswordSequence k) !! j ->
  exists c, encrypt k json = Normal c /\ decrypt k2 c = Normal JNull.
Proof.
  intros Hj Hk Hk2 Hdiff.
  pose proof (decrypt_other_password k k2 json j Hj Hk Hk2 Hdiff) as Hnull.
  rewrite encrypt_closed in Hnull |- *. by eexists.
Qed.

Lemma decrypt_wrong_password_is_null_witness :
  let _ := Sample.runtime in
  exists c, encrypt "ak" (JBool true) = Normal c /\ decrypt "aj" c = Normal JNull.
Proof.
  intros R.
  refine (decrypt_wrong_password_is_null "ak" "aj" (JBool true) 1 _ _ _ _);
    [lia | vm_compute; lia | vm_compute; lia |].
  vm_compute. discriminate.
Defined.

(** C10.  [encrypt] reads nothing but the key and the document: the
    ciphertext is fixed by the key and the serialised document, so that one
    document encrypted twice, or two documents with the same serialisation,
    give the same bytes; and two ciphertexts under one key are equal only
    if the serialised documents are. *)
Theorem encrypt_deterministic `{Runtime} (k : string) (json1 json2 : Json) :
  (encrypt k json1 = encrypt k json2 <-> JSON_stringify json1 = JSON_stringify json2)
  /\ encrypt k json1
     = Normal (xor (rotated (turnToBinary (envelope k json1)) 8 1)
                   (turnToBinary (turnToPasswordSequence k))).
Proof. split; [apply encrypt_injective | apply encrypt_closed]. Qed.

(** ** Block storage *)

Lemma BLOCK_SIZE_pos : 0 < BLOCK_SIZE.
Proof. done. Qed.

Lemma drawBlocks_length {S} n (next : S -> Z * S) s :
  length (fst (drawBlocks n next s)) = n.
Proof.
  revert s. induction n as [|n IH]; intros s; cbn [drawBlocks]; [done|].
  destruct (next s) as [b s1]. specialize (IH s1).
  destruct (drawBlocks n next s1). cbn in *. by rewrite IH.
Qed.

Lemma with_nextBlockIndex_same m : with_nextBlockIndex (nextBlockIndex m) m = m.
Proof. by destruct m. Qed.

Lemma drawBlocks_fresh n m :
  unusedBlocks m = [] ->
  drawBlocks n stepToNextBlockIndex m
  = (seqZ (nextBlockIndex m) (Z.of_nat n),
     with_nextBlockIndex (nextBlockIndex m + Z.of_nat n) m).
Proof.
  revert m. induction n as [|n IH]; intros m Hfree.
  - cbn [drawBlocks]. rewrite Z.add_0_r, with_nextBlockIndex_same. done.
  - cbn [drawBlocks]. unfold stepToNextBlockIndex at 1. rewrite Hfree. cbn [Arrays.isNotEmpty].
    rewrite IH by done. cbn [nextBlockIndex with_nextBlockIndex].
    rewrite (seqZ_cons (nextBlockIndex m)) by lia.
    f_equal; [f_equal; f_equal; lia|].
    unfold with_nextBlockIndex. cbn. f_equal. lia.
Qed.

Lemma allChunks_mapPush f c map : allChunks (mapPush f c map) ≡ₚ allChunks map ++ [c].
Proof.
  unfold allChunks. induction map as [|[name arr] map IH]; cbn [mapPush]; [done|].
  case_bool_decide; cbn [fmap list_fmap snd concat].
  - rewrite <- !(assoc_L (++)). f_equiv. apply Permutation_app_comm.
  - fold (@fmap list _ _ _ (@snd string (list Chunk)) (mapPush f c map)).
    rewrite IH. by rewrite (assoc_L (++)).
Qed.

Lemma allChunks_chunkMap folder blocks size :
  allChunks (chunkMap folder blocks size)
  ≡ₚ chunkOf (Z.of_nat (length blocks)) size
       <$> zip (seqZ 0 (Z.of_nat (length blocks))) blocks.
Proof.
  unfold chunkMap. generalize (zip (seqZ 0 (Z.of_nat (length blocks))) blocks) as l.
  generalize (Z.of_nat (length blocks)) as count. intros count l.
  rewrite <- (app_nil_l (chunkOf count size <$> l)).
  change (@nil Chunk) with (allChunks []) at 1.
  generalize (@nil (string * list Chunk)) as map.
  induction l as [|[i block] l IH]; intros map; cbn [foldl fmap list_fmap].
  - by rewrite app_nil_r.
  - rewrite IH, allChunks_mapPush. by rewrite <- (assoc_L (++)).
Qed.

Lemma take_take_drop {A} (l : list A) (t s : nat) :
  take t l ++ take s (drop t l) = take (t + s) l.
Proof.
  revert l. induction t as [|t IH]; intros l; cbn; [by rewrite drop_0|].
  destruct l as [|x l]; cbn; [by rewrite take_nil|]. by rewrite IH.
Qed.

Lemma foldl_pointwise {A B} (f g : A -> B -> A) (l : list B) (a : A) :
  (forall a b, f a b = g a b) -> foldl f a l = foldl g a l.
Proof.
  intros Hfg. revert a. induction l as [|b l IH]; intros a; cbn; [done|].
  by rewrite Hfg, IH.
Qed.

Lemma pwrite_after (pre rest data : Buffer) :
  pwrite (pre ++ rest) (length pre) data = pre ++ data ++ drop (length data) rest.
Proof.
  unfold pwrite. destruct data as [|x data]; [by rewrite drop_0|].
  rewrite take_app_length.
  replace (length pre - length (pre ++ rest))%nat with 0%nat
    by (rewrite length_app; lia).
  cbn [replicate app]. by rewrite drop_app_add.
Qed.

Lemma ownChunks_S count size base d :
  ownChunks count size base (S d)
  = chunkOf count size (base, base) :: ownChunks count size (base + 1) d.
Proof.
  unfold ownChunks. rewrite (seqZ_cons base) by lia.
  replace (Z.pred (Z.of_nat (S d))) with (Z.of_nat d) by lia.
  replace (Z.succ base) with (base + 1) by lia. done.
Qed.

Section RoundTrip.
Context `{Platform}.

Lemma foldl_mapPush_same (f : string) (step : Z * Z -> Chunk) (name : Z * Z -> string)
    (l : list (Z * Z)) (acc : list Chunk) :
  Forall (fun x => name x = f) l ->
  foldl (fun map x => mapPush (name x) (step x) map) [(f, acc)] l
  = [(f, acc ++ (step <$> l))].
Proof.
  revert acc. induction l as [|x l IH]; intros acc Hall; cbn [foldl fmap list_fmap].
  - by rewrite app_nil_r.
  - apply Forall_cons in Hall as [Hx Hl].
    cbn [mapPush]. rewrite Hx, bool_decide_eq_true_2 by done.
    rewrite IH by done. by rewrite <- (assoc_L (++)).
Qed.

Lemma chunkMap_one_file folder blocks size f :
  blocks <> [] ->
  Forall (fun block => folder +:+ "/" +:+ FILE_NAME (block / BLOCK_IN_FILE) = f) blocks ->
  chunkMap folder blocks size
  = [(f, chunkOf (Z.of_nat (length blocks)) size
           <$> zip (seqZ 0 (Z.of_nat (length blocks))) blocks)].
Proof.
  intros Hne Hall. unfold chunkMap.
  set (count := Z.of_nat (length blocks)).
  assert (Forall (fun x : Z * Z =>
            folder +:+ "/" +:+ FILE_NAME (snd x / BLOCK_IN_FILE) = f)
            (zip (seqZ 0 count) blocks)) as Hzip.
  { apply Forall_forall. intros [i b] Hin. apply elem_of_zip_r in Hin.
    cbn. by eapply Forall_forall in Hall. }
  destruct (zip (seqZ 0 count) blocks) as [|[i b] l] eqn:El.
  { destruct blocks as [|b blocks]; [done|]. subst count.
    rewrite (seqZ_cons 0) in El by (cbn [length]; lia). done. }
  apply Forall_cons in Hzip as [Hx Hl]. cbn [foldl mapPush fmap list_fmap].
  cbn [snd] in Hx. rewrite Hx.
  pose proof (foldl_mapPush_same f (chunkOf count size)
                (fun x => folder +:+ "/" +:+ FILE_NAME (snd x / BLOCK_IN_FILE))
                l [chunkOf count size (i, b)] Hl) as Hfold.
  cbn [app] in Hfold. rewrite <- Hfold.
  apply foldl_pointwise. intros map [i' b']. done.
Qed.

Lemma chunk_arith (L k : Z) :
  0 <= L -> 0 <= k < L / BLOCK_SIZE + 1 ->
  let size := if k =? L / BLOCK_SIZE + 1 - 1 then Z.rem L BLOCK_SIZE else BLOCK_SIZE in
  Z.min (k * BLOCK_SIZE) L = k * BLOCK_SIZE
  /\ 0 <= size
  /\ Z.min ((k + 1) * BLOCK_SIZE) L = k * BLOCK_SIZE + size.
Proof.
  intros HL Hk. pose proof BLOCK_SIZE_pos as HB.
  pose proof (Z.mul_div_le L BLOCK_SIZE HB) as Hle.
  pose proof (Z.mul_succ_div_gt L BLOCK_SIZE HB) as Hgt.
  cbn zeta. destruct (Z.eqb_spec k (L / BLOCK_SIZE + 1 - 1)) as [->|Hne].
  - rewrite Z.rem_mod_nonneg by lia. rewrite Z.mod_eq by lia. lia.
  - assert (k + 1 <= L / BLOCK_SIZE) by lia. nia.
Qed.

Lemma doneBytes_end (L : Z) :
  0 <= L -> doneBytes L (L / BLOCK_SIZE + 1) = Z.to_nat L.
Proof.
  intros HL. unfold doneBytes. pose proof BLOCK_SIZE_pos as HB.
  pose proof (Z.mul_succ_div_gt L BLOCK_SIZE HB). f_equal. lia.
Qed.

Lemma fs_write_chunk (buffer c0 : Buffer) (k : Z) :
  let L := Z.of_nat (length buffer) in
  0 <= k < L / BLOCK_SIZE + 1 -> k < BLOCK_IN_FILE ->
  (appendIgnoresPosition = true -> c0 = []) ->
  let c := chunkOf (L / BLOCK_SIZE + 1) L (k, k) in
  fs_write (take (doneBytes L k) buffer ++ drop (doneBytes L k) c0) buffer
    (chunk_id c * BLOCK_SIZE) (chunk_size c) (chunk_block c * BLOCK_SIZE)
  = Normal (take (doneBytes L (k + 1)) buffer ++ drop (doneBytes L (k + 1)) c0).
Proof.
  intros L Hk Hseg Happ c. subst c. unfold chunkOf. cbn [fst snd chunk_id chunk_size chunk_block].
  destruct (chunk_arith L k ltac:(lia) Hk) as (Ht & Hsize & Hnext). cbn zeta in *.
  set (size := if k =? L / BLOCK_SIZE + 1 - 1 then Z.rem L BLOCK_SIZE else BLOCK_SIZE) in *.
  rewrite Z.rem_small by lia.
  unfold fs_write, doneBytes. fold L. rewrite Ht, Hnext.
  destruct (Z.ltb_spec L (k * BLOCK_SIZE)); [lia|].
  destruct (Z.ltb_spec (L - k * BLOCK_SIZE) size); [lia|]. cbn [orb].
  assert (0 <= k * BLOCK_SIZE) by (pose proof BLOCK_SIZE_pos; nia).
  rewrite (Z2Nat.inj_add (k * BLOCK_SIZE) size) by lia.
  assert (Z.to_nat (k * BLOCK_SIZE) + Z.to_nat size <= length buffer)%nat by lia.
  generalize dependent (Z.to_nat (k * BLOCK_SIZE)). intros t ?.
  generalize dependent (Z.to_nat size). intros s ?.
  assert (length (take s (drop t buffer)) = s) as Hlen
    by (rewrite length_take, length_drop; lia).
  destruct appendIgnoresPosition.
  - rewrite (Happ eq_refl), !drop_nil, !app_nil_r. by rewrite take_take_drop.
  - f_equal.
    pose proof (pwrite_after (take t buffer) (drop t c0) (take s (drop t buffer))) as Hpw.
    rewrite length_take_le in Hpw by lia.
    rewrite Hpw, Hlen, drop_drop.
    by rewrite (assoc_L (++)), take_take_drop.
Qed.

Lemma writeChunks_own (buffer c0 : Buffer) (d : nat) (k : Z) :
  let L := Z.of_nat (length buffer) in
  0 <= k -> k + Z.of_nat d = L / BLOCK_SIZE + 1 -> L / BLOCK_SIZE + 1 <= BLOCK_IN_FILE ->
  (appendIgnoresPosition = true -> c0 = []) ->
  writeChunks buffer (ownChunks (L / BLOCK_SIZE + 1) L k d)
    (take (doneBytes L k) buffer ++ drop (doneBytes L k) c0)
  = Normal (buffer ++ drop (length buffer) c0).
Proof.
  intros L. subst L. revert k. induction d as [|d IH]; intros k Hk Hsum Hseg Happ.
  - cbn [ownChunks writeChunks].
    replace k with (Z.of_nat (length buffer) / BLOCK_SIZE + 1) by lia.
    rewrite doneBytes_end by lia. rewrite Nat2Z.id, firstn_all. done.
  - rewrite ownChunks_S. cbn [writeChunks].
    rewrite (fs_write_chunk buffer c0 k) by (try done; lia). cbn [cbind].
    apply IH; (try done; lia).
Qed.

Lemma fs_read_chunk (buffer rest buf0 : Buffer) (k : Z) :
  let L := Z.of_nat (length buffer) in
  length buf0 = length buffer ->
  0 <= k < L / BLOCK_SIZE + 1 -> k < BLOCK_IN_FILE ->
  let c := chunkOf (L / BLOCK_SIZE + 1) L (k, k) in
  fs_read (buffer ++ rest) (take (doneBytes L k) buffer ++ drop (doneBytes L k) buf0)
    (chunk_id c * BLOCK_SIZE) (chunk_size c) (chunk_block c * BLOCK_SIZE)
  = Normal (take (doneBytes L (k + 1)) buffer ++ drop (doneBytes L (k + 1)) buf0).
Proof.
  intros L Hbuf0 Hk Hseg c. subst c. unfold chunkOf.
  cbn [fst snd chunk_id chunk_size chunk_block].
  destruct (chunk_arith L k ltac:(lia) Hk) as (Ht & Hsize & Hnext). cbn zeta in *.
  set (size := if k =? L / BLOCK_SIZE + 1 - 1 then Z.rem L BLOCK_SIZE else BLOCK_SIZE) in *.
  rewrite Z.rem_small by lia.
  unfold fs_read, doneBytes. fold L. rewrite Ht, Hnext.
  assert (0 <= k * BLOCK_SIZE) by (pose proof BLOCK_SIZE_pos; nia).
  destruct (Z.eqb_spec size 0) as [Hzero|Hpos].
  { by rewrite Hzero, Z.add_0_r. }
  assert (length (take (Z.to_nat (k * BLOCK_SIZE)) buffer
                  ++ drop (Z.to_nat (k * BLOCK_SIZE)) buf0) = length buffer) as Hwhole.
  { rewrite length_app, length_take, length_drop. lia. }
  rewrite Hwhole.
  destruct (Z.ltb_spec (Z.of_nat (length buffer)) (k * BLOCK_SIZE + size)); [lia|].
  rewrite (Z2Nat.inj_add (k * BLOCK_SIZE) size) by lia.
  assert (Z.to_nat (k * BLOCK_SIZE) + Z.to_nat size <= length buffer)%nat by lia.
  generalize dependent (Z.to_nat (k * BLOCK_SIZE)). intros t ? ?.
  generalize dependent (Z.to_nat size). intros s ?.
  f_equal.
  rewrite drop_app_le by lia.
  rewrite (take_app_le (drop t buffer)) by (rewrite length_drop; lia).
  assert (length (take s (drop t buffer)) = s) as Hlen
    by (rewrite length_take, length_drop; lia).
  rewrite Hlen.
  rewrite (take_app_le (take t buffer)) by (rewrite length_take; lia).
  rewrite take_take, Nat.min_id.
  rewrite drop_app_ge by (rewrite length_take; lia).
  rewrite length_take, drop_drop.
  replace (t + (t + s - t `min` length buffer))%nat with (t + s)%nat by lia.
  by rewrite (assoc_L (++)), take_take_drop.
Qed.

Lemma readChunks_own (buffer rest buf0 : Buffer) (d : nat) (k : Z) :
  let L := Z.of_nat (length buffer) in
  length buf0 = length buffer ->
  0 <= k -> k + Z.of_nat d = L / BLOCK_SIZE + 1 -> L / BLOCK_SIZE + 1 <= BLOCK_IN_FILE ->
  readChunks (buffer ++ rest) (ownChunks (L / BLOCK_SIZE + 1) L k d)
    (take (doneBytes L k) buffer ++ drop (doneBytes L k) buf0)
  = Normal buffer.
Proof.
  intros L Hbuf0. subst L. revert k. induction d as [|d IH]; intros k Hk Hsum Hseg.
  - cbn [ownChunks readChunks].
    replace k with (Z.of_nat (length buffer) / BLOCK_SIZE + 1) by lia.
    rewrite doneBytes_end by lia. rewrite Nat2Z.id, firstn_all.
    rewrite drop_ge by lia. by rewrite app_nil_r.
  - rewrite ownChunks_S. cbn [readChunks].
    rewrite (fs_read_chunk buffer rest buf0 k) by (try done; lia). cbn [cbind].
    apply IH; lia.
Qed.

Lemma chunkMap_fresh (folder : string) (n size : Z) :
  1 <= n <= BLOCK_IN_FILE ->
  chunkMap folder (seqZ 0 n) size
  = [(folder +:+ "/" +:+ FILE_NAME 0, ownChunks n size 0 (Z.to_nat n))].
Proof.
  intros Hn. rewrite (chunkMap_one_file folder (seqZ 0 n) size
                        (folder +:+ "/" +:+ FILE_NAME 0)).
  - unfold ownChunks. rewrite length_seqZ, Z2Nat.id by lia. done.
  - intros Hnil. apply (f_equal length) in Hnil. rewrite length_seqZ in Hnil.
    cbn in Hnil. lia.
  - apply Forall_forall. intros b Hb. apply elem_of_seqZ in Hb.
    rewrite Z.div_small by lia. done.
Qed.

(** A payload that fits one segment file, written with an allocator
    that starts at block 0 and has an empty free list, in a folder that
    exists, is read back as it was.  Where every write is appended, the
    segment file must not exist before. *)
Theorem block_storage_round_trip (folder : string) (buffer : Buffer)
    (m : SaveModel) (fs : FS) :
  let L := Z.of_nat (length buffer) in
  let n := L / BLOCK_SIZE + 1 in
  unusedBlocks m = [] -> nextBlockIndex m = 0 ->
  n <= BLOCK_IN_FILE ->
  folder ∈ dirs fs ->
  (appendIgnoresPosition = true -> files fs !! (folder +:+ "/" +:+ FILE_NAME 0) = None) ->
  exists fs',
    saveImageBuffer folder buffer stepToNextBlockIndex m fs
    = Normal ([seqZ 0 n], with_nextBlockIndex n m, fs')
    /\ loadImageBuffer folder (seqZ 0 n) L fs' = Normal [buffer].
Proof.
  intros L n Hfree Hzero Hseg Hdir Happ.
  assert (0 <= L / BLOCK_SIZE) as Hdiv
    by (apply Z.div_pos; [lia | apply BLOCK_SIZE_pos]).
  set (f0 := folder +:+ "/" +:+ FILE_NAME 0) in *.
  set (c0 := default [] (files fs !! f0)).
  exists (mkFS (dirs fs) (<[f0 := buffer ++ drop (length buffer) c0]> (files fs))).
  split.
  - unfold saveImageBuffer. fold L. fold n.
    rewrite drawBlocks_fresh by done. rewrite Hzero, Z.add_0_l, Z2Nat.id by lia.
    rewrite chunkMap_fresh by lia. fold f0. cbn [saveFiles].
    rewrite bool_decide_eq_true_2 by done.
    pose proof (writeChunks_own buffer c0 (Z.to_nat n) 0) as Hwrite.
    cbn zeta in Hwrite. fold L in Hwrite. fold n in Hwrite.
    unfold doneBytes in Hwrite at 1 2. rewrite Z.mul_0_l, Z.min_l in Hwrite by lia.
    change (Z.to_nat 0) with 0%nat in Hwrite.
    rewrite take_0, drop_0, app_nil_l in Hwrite. fold c0.
    rewrite Hwrite; [done | lia | lia | lia |].
    intros Hmode. subst c0. by rewrite (Happ Hmode).
  - unfold loadImageBuffer. rewrite chunkMap_fresh by lia. fold f0. cbn [loadFiles files].
    rewrite lookup_insert_eq.
    pose proof (readChunks_own buffer (drop (length buffer) c0) (Buffer_alloc L)
                  (Z.to_nat n) 0) as Hread.
    cbn zeta in Hread. fold L in Hread. fold n in Hread.
    unfold doneBytes in Hread at 1 2. rewrite Z.mul_0_l, Z.min_l in Hread by lia.
    change (Z.to_nat 0) with 0%nat in Hread.
    rewrite take_0, drop_0, app_nil_l in Hread.
    rewrite Hread; [done | | lia | lia | lia].
    unfold Buffer_alloc. rewrite length_replicate. lia.
Qed.
End RoundTrip.

(** ** Block storage: the claims *)

Lemma scenario_folder_exists : "d" ∈ dirs Scenario.disk.
Proof. unfold Scenario.disk. cbn [dirs]. by apply elem_of_singleton_2. Qed.

(** C2, as the code has it.  For a payload of [L] bytes the allocator is
    asked for [floor (L / BLOCK_SIZE) + 1] indices; the table of chunks has
    one chunk for each, the chunk of the last index with [L mod BLOCK_SIZE]
    bytes, which is none when [L] is a multiple of the block size, and
    every other chunk with [BLOCK_SIZE] bytes.  A payload of 100000 bytes
    takes 2 blocks, of 65536 and 34464 bytes. *)
Theorem saveImageBuffer_split `{Platform} {S : Type} (folder : string) (buffer : Buffer)
    (next : S -> Z * S) (s : S) (fs : FS) :
  let L := Z.of_nat (length buffer) in
  let n := L / BLOCK_SIZE + 1 in
  let blocks := fst (drawBlocks (Z.to_nat n) next s) in
  Z.of_nat (length blocks) = n
  /\ saveImageBuffer folder buffer next s fs
     = (do r <- saveFiles folder buffer blocks (chunkMap folder blocks L) fs;
        Normal (fst r, snd (drawBlocks (Z.to_nat n) next s), snd r))
  /\ allChunks (chunkMap folder blocks L) ≡ₚ chunkOf n L <$> zip (seqZ 0 n) blocks
  /\ (forall i block,
        chunk_size (chunkOf n L (i, block))
        = if i =? L / BLOCK_SIZE then L mod BLOCK_SIZE else BLOCK_SIZE)
  /\ (L = 100000 ->
      n = 2 /\ chunk_size <$> (chunkOf n L <$> zip (seqZ 0 n) blocks) = [65536; 34464]).
Proof.
  intros L n blocks.
  assert (0 <= L / BLOCK_SIZE) as Hdiv
    by (apply Z.div_pos; [lia | apply BLOCK_SIZE_pos]).
  assert (Z.of_nat (length blocks) = n) as Hlen
    by (subst blocks; rewrite drawBlocks_length; lia).
  split; [done|]. split; [|split; [|split]].
  - unfold saveImageBuffer. fold L. fold n. subst blocks.
    by destruct (drawBlocks (Z.to_nat n) next s).
  - rewrite allChunks_chunkMap. by rewrite Hlen.
  - intros i block. unfold chunkOf. cbn [chunk_size fst].
    replace (n - 1) with (L / BLOCK_SIZE) by lia.
    destruct (i =? L / BLOCK_SIZE); [|done].
    apply Z.rem_mod_nonneg; [lia | apply BLOCK_SIZE_pos].
  - intros HL. assert (n = 2) as Hn by (subst n; rewrite HL; done).
    split; [done|]. rewrite Hn in Hlen |- *. rewrite HL.
    destruct blocks as [|b0 [|b1 [|b2 rest]]]; cbn [length] in Hlen; try lia.
    done.
Qed.

Lemma saveImageBuffer_split_witness :
  let buffer := replicate (Z.to_nat 100000) x00 in
  let L := Z.of_nat (length buffer) in
  let blocks := fst (drawBlocks (Z.to_nat (L / BLOCK_SIZE + 1)) Scenario.counter 0) in
  L / BLOCK_SIZE + 1 = 2
  /\ chunk_size <$> (chunkOf (L / BLOCK_SIZE + 1) L
                      <$> zip (seqZ 0 (L / BLOCK_SIZE + 1)) blocks)
     = [65536; 34464].
Proof.
  intros buffer L blocks.
  assert (L = 100000) as HL by (unfold L, buffer; rewrite length_replicate; lia).
  exact (proj2 (proj2 (proj2 (proj2
           (@saveImageBuffer_split (Sample.platform false) Z "d" buffer
              Scenario.counter 0 Scenario.disk)))) HL).
Defined.

(** C2, as stated, fails on a payload of 65536 bytes: two indices are
    taken from the allocator, where the claim has one. *)
Lemma full_block_takes_two : ~ split_claim (Sample.platform false).
Proof.
  intros Hclaim.
  set (buffer := replicate (Z.to_nat 65536) x00).
  set (m := with_nextBlockIndex 0 Scenario.store).
  assert (Z.of_nat (length buffer) = 65536) as HL
    by (unfold buffer; rewrite length_replicate; lia).
  destruct (@block_storage_round_trip (Sample.platform false) "d" buffer m Scenario.disk
              eq_refl eq_refl) as (fs' & Hsave & _);
    [by rewrite HL | apply scenario_folder_exists | done |].
  rewrite HL in Hsave.
  pose proof (Hclaim "d" buffer m Scenario.disk _ _ _ eq_refl eq_refl Hsave) as Hn.
  clearbody buffer. cbv zeta in Hn. rewrite HL in Hn. clear -Hn.
  vm_compute in Hn. discriminate.
Qed.



(** ** The metadata store: the claims *)



(** X26.  When the data file exists and [decrypt] gives [null] for its
    bytes, as it does when the prefix does not decode to the marker and
    the flag of the key (another key, or damage there), [load] returns
    [false] and the engine (entries, counters, block map, free list, tags,
    config, cache) and the files are as they were. *)
Theorem load_decode_failure `{Platform} (e : LocalDataEngine) (fs : FS) (buf : Buffer) :
  files fs !! (storageFolder e +:+ "/" +:+ STORAGE) = Some buf ->
  decrypt (key e) buf = Normal JNull ->
  load e fs = Normal (false, e, fs).
Proof. intros Hfile Hnull. unfold load. by rewrite Hfile, Hnull. Qed.

Lemma load_decode_failure_witness :
  let _ := Sample.platform false in
  let fs := mkFS {[ "d" ]} {[ "d/data.db" := list_byte_of_string "not a store" ]} in
  load Scenario.engine fs = Normal (false, Scenario.engine, fs).
Proof.
  intros P fs.
  exact (load_decode_failure Scenario.engine fs (list_byte_of_string "not a store")
           eq_refl eq_refl).
Defined.

(** C5, on a damaged data file: the ciphertext of the document [{}] under
    the key of the engine, without its last byte.  The prefix decodes, so
    [decrypt] gives what follows it to [JSON.parse], which throws; [load]
    has nothing that catches, and throws where the claim has it return
    [false].  With the whole ciphertext [load] returns [true] on a
    platform that reads the document. *)
Lemma load_throws_on_damaged_document :
  let _ := Sample.platform false in
  decrypt "k" (removelast (cipher "k" (JObj []))) = Thrown SyntaxError
  /\ load Runs.fresh Runs.damaged = Thrown SyntaxError
  /\ length (cipher "k" (JObj [])) = 72%nat
  /\ take 71 (cipher "k" (JObj [])) = removelast (cipher "k" (JObj [])).
Proof. intros P. split; [|split; [|split]]; vm_compute; reflexivity. Qed.

(** C4, on the store of [Scenario].  The entry 1 is deleted; its payload
    was in the blocks 5 and 6.  The free list is empty afterwards, and a
    payload of 100000 bytes written next gets the blocks 7 and 8. *)
Lemma delete_does_not_free_blocks :
  let _ := Sample.platform false in
  let e := snd (deleteIllustration [inr 1] Scenario.engine) in
  fst (deleteIllustration [inr 1] Scenario.engine) = 1
  /\ unusedBlocks (memory e) = []
  /\ cmap (fun r => fst (fst r))
        (saveImageBuffer "d" (replicate (Z.to_nat 100000) x00) stepToNextBlockIndex
           (memory e) Scenario.disk)
     = Normal [[7; 8]].
Proof. intros P e. split; [|split]; vm_compute; reflexivity. Qed.

(** C8, on the store of [Scenario].  The entry 1, which holds the sub-item
    2, is deleted; the cache is searched under the id 1 of the entry, the
    value cached for the sub-item 2 stays and is what [loadImageURL] gives
    for it afterwards. *)
Lemma delete_keeps_cached_payload :
  let _ := Sample.platform false in
  let e := snd (deleteIllustration [inr 1] Scenario.engine) in
  illustrations (memory e) = []
  /\ BufferCache.get (imageURLCache e) Exhibition 2 = Some "data:image/jpeg;base64,AAAA"
  /\ loadImageURL 2 (Some Exhibition) true e Scenario.disk
     = Normal ([Some "data:image/jpeg;base64,AAAA"], e).
Proof. intros P e. split; [|split]; vm_compute; reflexivity. Qed.

(** C6, as the code has it.  The variant asked for counts as origin when
    it is origin and as exhibition otherwise.  With no value cached under
    that variant and no record of the sub-item in the block map, the
    callback is given [null], once, nothing is thrown and the engine stays
    as it is. *)
Theorem loadImageURL_absent `{Platform} (imageId : Z)
    (specification : option ImageSpecification) (callback : bool)
    (e : LocalDataEngine) (fs : FS) :
  BufferCache.get (imageURLCache e)
    (if bool_decide (specification = Some Origin) then Origin else Exhibition) imageId
  = None ->
  blocks (memory e) !! imageId = None ->
  loadImageURL imageId specification callback e fs = Normal (notify callback None, e).
Proof. intros Hcache Hblocks. unfold loadImageURL. by rewrite Hcache, Hblocks. Qed.

Lemma loadImageURL_absent_witness :
  let _ := Sample.platform false in
  loadImageURL 9 (Some Thumbnail) true Scenario.engine Scenario.disk
  = Normal ([None], Scenario.engine).
Proof.
  intros P.
  exact (loadImageURL_absent 9 (Some Thumbnail) true Scenario.engine Scenario.disk
           eq_refl eq_refl).
Defined.

(** C6, as stated, fails: a thumbnail is asked for, nothing is cached for
    the thumbnail and the block map has no record for it, and the callback
    is given the exhibition form that is in the cache. *)
Lemma thumbnail_request_is_served :
  ~ absent_is_not_found (Sample.platform false).
Proof.
  intros Hclaim.
  specialize (Hclaim 2 Thumbnail Scenario.engine Scenario.disk eq_refl).
  assert (@loadImageURL (Sample.platform false) 2 (Some Thumbnail) true
            Scenario.engine Scenario.disk
          = Normal ([Some "data:image/jpeg;base64,AAAA"], Scenario.engine)) as Hrun
    by (vm_compute; reflexivity).
  rewrite Hclaim in Hrun; [discriminate|].
  intros variants Hrecord. vm_compute in Hrecord. by injection Hrecord as <-.
Qed.

(** The sub-item 2 has a record for the origin only; its exhibition form is
    asked for with nothing in the cache: the record read is [undefined] and
    destructuring it is a [TypeError]. *)
Lemma loadImageURL_other_variant_throws :
  let _ := Sample.platform false in
  loadImageURL 2 (Some Exhibition) true
    (with_imageURLCache BufferCache.empty Scenario.engine) Scenario.disk
  = Thrown TypeError.
Proof. intros P. vm_compute. reflexivity. Qed.

(** * Further properties *)

(** ** The codec *)

Lemma xor_from_empty_key data j : xor_from j data [] = data.
Proof.
  revert j. induction data as [|b data IH]; intros j; [done|].
  cbn [xor_from length]. cbn. by rewrite IH.
Qed.

Lemma lookup_xor_from_cyclic key data (j i : nat) :
  key <> [] -> (j <= length key)%nat ->
  xor_from j data key !! i
  = (fun b => xor_js b (key !! ((j + i) mod length key)%nat)) <$> data !! i.
Proof.
  intros Hkey. assert (0 < length key)%nat as Hpos by (destruct key; cbn; [done | lia]).
  revert j i. induction data as [|b data IH]; intros j i Hj; [done|].
  cbn [xor_from]. destruct (Nat.leb_spec (length key) j) as [Hge|Hlt].
  - assert (j = length key) as -> by lia.
    destruct i as [|i]; cbn [lookup list_lookup fmap option_fmap option_map].
    + by rewrite Nat.add_0_r, Nat.Div0.mod_same.
    + rewrite IH by lia.
      replace (length key + S i)%nat with (1 + i + 1 * length key)%nat by lia.
      by rewrite Nat.Div0.mod_add.
  - destruct i as [|i]; cbn [lookup list_lookup fmap option_fmap option_map].
    + by rewrite Nat.add_0_r, Nat.mod_small.
    + rewrite IH by lia. by replace (S j + i)%nat with (j + S i)%nat by lia.
Qed.

(** X1.  With a group size of at least 1, turning the groups by [step] and
    then by [- step] gives the buffer back, and so does turning by
    [- step] first: [loopChange] with the opposite step is the inverse on
    both sides, whatever the length of the buffer and the step. *)
Theorem loopChange_inverse (arr : Buffer) (groupSize step : Z) :
  1 <= groupSize ->
  (do r <- loopChange arr groupSize step; loopChange r groupSize (- step)) = Normal arr
  /\ (do r <- loopChange arr groupSize (- step); loopChange r groupSize step) = Normal arr.
Proof.
  intros Hg. split; [by apply loopChange_round_trip|].
  pose proof (loopChange_round_trip arr groupSize (- step) Hg) as Hback.
  by rewrite Z.opp_involutive in Hback.
Qed.

Lemma loopChange_inverse_witness :
  let arr := list_byte_of_string "0123456789abc" in
  (do r <- loopChange arr 3 5; loopChange r 3 (- 5)) = Normal arr
  /\ (do r <- loopChange arr 3 (- 5); loopChange r 3 5) = Normal arr.
Proof.
  intros arr. exact (loopChange_inverse arr 3 5 ltac:(lia)).
Defined.

(** X2.  With a group size of at least 1, [loopChange] returns a buffer of
    the same length in which the byte at index [i] is a byte of the group
    of [i]: it comes from an index [j] between the head of that group
    (the multiple of [groupSize] at or below [i]) and its tail (the head
    plus [groupSize], or the length for the last group), with [j] equal
    to [i - step] up to a multiple of the size of the group.  No byte
    leaves its group, and the last, shorter group turns on its own
    size. *)
Theorem loopChange_within_groups (arr : Buffer) (groupSize step : Z) :
  1 <= groupSize ->
  exists ret,
    loopChange arr groupSize step = Normal ret
    /\ length ret = length arr
    /\ forall i : nat, (i < length arr)%nat ->
         let n := Z.of_nat (length arr) in
         let head := Z.of_nat i / groupSize * groupSize in
         let tail := Z.min (head + groupSize) n in
         exists j : nat,
           ret !! i = arr !! j
           /\ head <= Z.of_nat j < tail
           /\ (Z.of_nat j - (Z.of_nat i - step)) mod (tail - head) = 0.
Proof.
  intros Hg. exists (rotated arr groupSize step).
  split; [by apply loopChange_closed|]. split; [apply length_rotated|].
  intros i Hi. cbv zeta.
  pose proof (rotatedIndex_bounds (Z.of_nat (length arr)) groupSize step (Z.of_nat i) Hg
                ltac:(lia)) as Hb.
  pose proof (group_bounds (Z.of_nat (length arr)) groupSize (Z.of_nat i) Hg ltac:(lia))
    as Hgb.
  unfold groupTail, groupHead in Hb, Hgb.
  assert (0 <= Z.of_nat i / groupSize * groupSize)
    by (apply Z.mul_nonneg_nonneg; [apply Z.div_pos|]; lia).
  exists (Z.to_nat (rotatedIndex (Z.of_nat (length arr)) groupSize step (Z.of_nat i))).
  split; [by apply lookup_rotated|]. rewrite Z2Nat.id by lia. split; [done|].
  unfold rotatedIndex, groupTail, groupHead.
  set (head := Z.of_nat i / groupSize * groupSize) in *.
  set (tail := Z.min (head + groupSize) (Z.of_nat (length arr))) in *.
  replace (head + (Z.of_nat i - step - head) mod (tail - head) - (Z.of_nat i - step))
    with ((Z.of_nat i - step - head) mod (tail - head) - (Z.of_nat i - step - head)) by lia.
  rewrite Zminus_mod_idemp_l, Z.sub_diag. apply Z.mod_0_l. lia.
Qed.

Lemma loopChange_within_groups_witness :
  let arr := list_byte_of_string "0123456789abc" in
  exists ret,
    loopChange arr 3 5 = Normal ret
    /\ length ret = length arr
    /\ forall i : nat, (i < length arr)%nat ->
         let n := Z.of_nat (length arr) in
         let head := Z.of_nat i / 3 * 3 in
         let tail := Z.min (head + 3) n in
         exists j : nat,
           ret !! i = arr !! j
           /\ head <= Z.of_nat j < tail
           /\ (Z.of_nat j - (Z.of_nat i - 5)) mod (tail - head) = 0.
Proof.
  intros arr. exact (loopChange_within_groups arr 3 5 ltac:(lia)).
Defined.

(** X3.  [xor] with the same key twice gives the data back; the result has
    the length of the data whatever the length of the key; and with an
    empty key, where [key[j]] is [undefined], the data comes back as it
    is. *)
Theorem xor_involutive (data key : Buffer) :
  xor (xor data key) key = data
  /\ length (xor data key) = length data
  /\ xor data [] = data.
Proof.
  split; [apply xor_cancel|]. split; [apply length_xor_from | apply xor_from_empty_key].
Qed.

(** X4.  The key is used cyclically: with a key that is not empty, the
    byte at index [i] of [xor data key] is the byte of the data at [i]
    xor-ed with the byte of the key at [i mod key.length]. *)
Theorem xor_key_cyclic (data key : Buffer) (i : nat) (b : byte) :
  key <> [] -> data !! i = Some b ->
  exists kb, key !! (i mod length key)%nat = Some kb
             /\ xor data key !! i = Some (byte_xor b kb).
Proof.
  intros Hkey Hb.
  assert (0 < length key)%nat as Hpos by (destruct key; cbn; [done | lia]).
  destruct (lookup_lt_is_Some_2 key (i mod length key)%nat) as [kb Hkb];
    [apply Nat.mod_upper_bound; lia|].
  exists kb. split; [done|]. unfold xor.
  rewrite lookup_xor_from_cyclic by (done || lia). cbn [Nat.add]. by rewrite Hb, Hkb.
Qed.

Lemma xor_key_cyclic_witness :
  exists kb, list_byte_of_string "ab" !! (2 mod 2)%nat = Some kb
             /\ xor (list_byte_of_string "xyz") (list_byte_of_string "ab") !! 2%nat
                = Some (byte_xor "z"%byte kb).
Proof.
  exact (xor_key_cyclic (list_byte_of_string "xyz") (list_byte_of_string "ab") 2 "z"%byte
           ltac:(discriminate) eq_refl).
Defined.

Lemma length_string_of_bytes (l : Buffer) : String.length (string_of_list_byte l) = length l.
Proof. by rewrite <- length_bytes, list_byte_of_string_of_list_byte. Qed.

Section CodecExtras.
Context `{Runtime}.

(** X5.  [encrypt] returns for every key and document, and the ciphertext
    has as many bytes as the envelope: the 6 bytes of [DATA:] and the
    second colon, the flag sequence and the serialised document (lengths
    in UTF-8 bytes).  Nothing is padded and nothing is added. *)
Theorem encrypt_length (k : string) (json : Json) :
  exists c, encrypt k json = Normal c
    /\ length c = (6 + String.length (turnToFlagSequence k)
                   + String.length (JSON_stringify json))%nat.
Proof.
  eexists. split; [apply encrypt_closed|].
  rewrite length_xor, length_rotated. unfold turnToBinary, envelope.
  rewrite length_bytes, !length_append. cbn. lia.
Qed.

Lemma decrypt_closed (k : string) (buf : Buffer) :
  decrypt k buf
  = let data := turnToString
                  (rotated (xor buf (turnToBinary (turnToPasswordSequence k))) 8 (-1)) in
    let prefix := "DATA:" +:+ turnToFlagSequence k +:+ ":" in
    if (String.length prefix <=? String.length data)%nat
       && bool_decide (slice_to (String.length prefix) data = prefix) then
      match JSON_parse (slice_from (String.length prefix) data) with
      | Some json => Normal json
      | None => Thrown SyntaxError
      end
    else Normal JNull.
Proof. unfold decrypt. rewrite loopChange_closed by lia. done. Qed.

(** X6.  [decrypt] ends on every key and buffer; the only error it throws
    is the [SyntaxError] of [JSON.parse]; and on a buffer shorter than the
    prefix, 6 bytes and the flag sequence, the empty buffer among them, it
    returns [null] without parsing. *)
Theorem decrypt_outcomes (k : string) (buf : Buffer) :
  decrypt k buf <> Looping
  /\ (forall e, decrypt k buf = Thrown e -> e = SyntaxError)
  /\ ((length buf < 6 + String.length (turnToFlagSequence k))%nat ->
      decrypt k buf = Normal JNull).
Proof.
  rewrite decrypt_closed. cbv zeta.
  set (data := turnToString _). set (prefix := "DATA:" +:+ _ +:+ ":").
  assert (String.length data = length buf) as Hdata
    by (subst data; unfold turnToString;
        by rewrite length_string_of_bytes, length_rotated, length_xor).
  assert (String.length prefix = 6 + String.length (turnToFlagSequence k))%nat as Hprefix
    by (subst prefix; rewrite !length_append; cbn; lia).
  split; [|split].
  - destruct (_ && _); [destruct (JSON_parse _)|]; done.
  - intros e. destruct (_ && _); [destruct (JSON_parse _)|]; congruence.
  - intros Hshort. rewrite (proj2 (Nat.leb_gt _ _)) by lia. done.
Qed.
End CodecExtras.

Lemma decrypt_outcomes_witness :
  let _ := Sample.runtime in decrypt "k" (list_byte_of_string "short") = Normal JNull.
Proof.
  intros R.
  refine (proj2 (proj2 (decrypt_outcomes "k" (list_byte_of_string "short"))) _).
  vm_compute. lia.
Defined.

Lemma lookup_xor_same key (d1 d2 : Buffer) (i : nat) :
  d1 !! i = d2 !! i -> xor d1 key !! i = xor d2 key !! i.
Proof.
  intros Heq. destruct key as [|kb key].
  - unfold xor. by rewrite !xor_from_empty_key.
  - unfold xor. rewrite !lookup_xor_from_cyclic by (done || cbn; lia). by rewrite Heq.
Qed.

Lemma take_ext {A} (l1 l2 : list A) (n : nat) :
  (forall i, (i < n)%nat -> l1 !! i = l2 !! i) -> take n l1 = take n l2.
Proof.
  intros Heq. apply list_eq. intros i. destruct (decide (i < n)%nat).
  - rewrite !lookup_take_lt by done. by apply Heq.
  - rewrite !lookup_take_ge by lia. done.
Qed.

Section Tamper.
Context `{Runtime}.

(** X7.  [decrypt] checks the prefix and nothing else.  A buffer of the
    length of a ciphertext of the key that agrees with it on the groups of
    8 bytes that hold the prefix is never answered with [null]: what
    follows the prefix goes to [JSON.parse] as it decodes, so a change
    there gives another document or a [SyntaxError]. *)
Theorem decrypt_ignores_changes_after_prefix (k : string) (json : Json) (c c' : Buffer) :
  let plen := (6 + String.length (turnToFlagSequence k))%nat in
  encrypt k json = Normal c ->
  length c' = length c ->
  take ((plen + 7) / 8 * 8) c' = take ((plen + 7) / 8 * 8) c ->
  decrypt k c'
  = match JSON_parse
            (slice_from plen
               (turnToString
                  (rotated (xor c' (turnToBinary (turnToPasswordSequence k))) 8 (-1)))) with
    | Some json' => Normal json'
    | None => Thrown SyntaxError
    end.
Proof.
  intros plen Henc Hlen Htake.
  rewrite encrypt_closed in Henc. injection Henc as Hc.
  set (P := turnToBinary (turnToPasswordSequence k)) in *.
  set (e := turnToBinary (envelope k json)) in *.
  set (prefix := "DATA:" +:+ turnToFlagSequence k +:+ ":").
  assert (String.length prefix = plen) as Hplen
    by (subst prefix plen; rewrite !length_append; cbn; lia).
  assert (e = list_byte_of_string prefix ++ list_byte_of_string (JSON_stringify json)) as He.
  { subst e prefix. unfold turnToBinary, envelope. rewrite !bytes_of_append.
    by rewrite <- !app_assoc. }
  assert (length e = length c) as Hec
    by (subst c; by rewrite length_xor, length_rotated).
  assert (plen <= length e)%nat as Hple
    by (rewrite He, length_app, length_bytes; lia).
  assert (rotated (xor c P) 8 (-1) = e) as Hu.
  { subst c. rewrite xor_cancel. replace (-1) with (- 1) by lia.
    by rewrite rotated_inverse. }
  set (u' := rotated (xor c' P) 8 (-1)).
  assert (length u' = length e) as Hu'len
    by (subst u'; by rewrite length_rotated, length_xor, Hlen).
  assert (take plen u' = list_byte_of_string prefix) as Hprefix.
  { transitivity (take plen e).
    2:{ rewrite He, <- Hplen, <- length_bytes. by rewrite take_app_length. }
    rewrite <- Hu. apply take_ext. intros i Hi. subst u'.
    rewrite !lookup_rotated by (rewrite ?length_xor; lia).
    rewrite !length_xor, Hlen.
    pose proof (rotatedIndex_bounds (Z.of_nat (length c)) 8 (-1) (Z.of_nat i) ltac:(lia)
                  ltac:(lia)) as Hb.
    unfold groupTail, groupHead in Hb.
    apply lookup_xor_same.
    apply (f_equal (fun l => l !! Z.to_nat (rotatedIndex (Z.of_nat (length c)) 8 (-1)
                                              (Z.of_nat i)))) in Htake.
    assert (Z.to_nat (rotatedIndex (Z.of_nat (length c)) 8 (-1) (Z.of_nat i))
            < (plen + 7) / 8 * 8)%nat as Hin.
    { assert (0 <= Z.of_nat i / 8 * 8) by (Z.div_mod_to_equations; lia).
      assert (Z.of_nat i / 8 * 8 + 8 <= Z.of_nat ((plen + 7) / 8 * 8)%nat); [|lia].
      rewrite Nat2Z.inj_mul, Nat2Z.inj_div, Nat2Z.inj_add. cbn [Z.of_nat Pos.of_succ_nat Pos.succ].
      assert (Z.of_nat i < Z.of_nat plen) by lia.
      Z.div_mod_to_equations. lia. }
    by rewrite !lookup_take_lt in Htake by done. }
  rewrite decrypt_closed. cbv zeta. fold P. fold u'. fold prefix.
  unfold turnToString at 1 2. rewrite length_string_of_bytes, Hplen.
  rewrite (proj2 (Nat.leb_le _ _)) by lia.
  rewrite bool_decide_eq_true_2; [done|].
  apply bytes_inj. unfold slice_to.
  by rewrite bytes_of_substring, list_byte_of_string_of_list_byte, drop_0.
Qed.
End Tamper.

Lemma decrypt_ignores_changes_after_prefix_witness :
  let _ := Sample.runtime in
  let c := cipher "k" (JBool false) in
  let c' := take 72 c ++ replicate 3 x00 in
  decrypt "k" c' = Thrown SyntaxError.
Proof.
  intros R c c'.
  assert (encrypt "k" (JBool false) = Normal c) as Henc by (vm_compute; reflexivity).
  assert (length c' = length c) as Hlen by (vm_compute; reflexivity).
  rewrite (decrypt_ignores_changes_after_prefix "k" (JBool false) c c' Henc Hlen);
    vm_compute; reflexivity.
Defined.

(** ** uuid *)

Lemma charAt_defined d : 0 <= d < 62 -> exists c, charAt d = Some c.
Proof.
  intros Hd. unfold charAt. destruct (Z.ltb_spec d 0); [lia|].
  assert (Z.to_nat d < 62)%nat as Hlt by lia.
  generalize dependent (Z.to_nat d). intros n Hlt.
  do 62 (destruct n as [|n]; [by eexists|]). lia.
Qed.

Lemma charAt_variant r : 0 <= r < 16 -> variantDigit (charAt (Z.lor (Z.land r 3) 8)).
Proof.
  intros Hr. unfold variantDigit.
  assert (r = 0 \/ r = 1 \/ r = 2 \/ r = 3 \/ r = 4 \/ r = 5 \/ r = 6 \/ r = 7 \/ r = 8
          \/ r = 9 \/ r = 10 \/ r = 11 \/ r = 12 \/ r = 13 \/ r = 14 \/ r = 15) as Hcases by lia.
  repeat (destruct Hcases as [->|Hcases]; [vm_compute; tauto|]).
  subst r. vm_compute. tauto.
Qed.

(** X8.  Without a length, or with the length 0, [uuid] returns 36
    characters with a hyphen at the indices 8, 13, 18 and 23, the digit 4
    at index 14 and one of 8, 9, A, B at index 19, whatever is drawn:
    every draw is [0 | Math.random()*16], a number from 0 to 15. *)
Theorem uuid_rfc4122_shape (draws : nat -> Z) :
  (forall k, 0 <= draws k < 16) ->
  let s := uuid None draws in
  String.length s = 36%nat
  /\ String.get 8 s = Some "-"%char /\ String.get 13 s = Some "-"%char
  /\ String.get 18 s = Some "-"%char /\ String.get 23 s = Some "-"%char
  /\ String.get 14 s = Some "4"%char
  /\ variantDigit (String.get 19 s)
  /\ uuid (Some 0) draws = s.
Proof.
  intros Hdraws s. subst s. unfold uuid.
  change (seqZ 0 36) with
    [0;1;2;3;4;5;6;7;8;9;10;11;12;13;14;15;16;17;18;19;20;21;22;23;24;25;26;27;28;29;30;
     31;32;33;34;35].
  cbn [rfc4122 Z.eqb Pos.eqb orb].
  pose proof (charAt_variant (draws 15%nat) (Hdraws _)) as Hvariant.
  destruct (charAt (Z.lor (Z.land (draws 15%nat) 3) 8)) as [v|] eqn:Ev;
    [|exfalso; unfold variantDigit in Hvariant; intuition discriminate].
  repeat match goal with
         | |- context [charAt (draws ?k)] =>
             let c := fresh "c" in
             destruct (charAt_defined (draws k)) as [c Hc];
               [specialize (Hdraws k); lia|]; rewrite Hc; clear Hc
         end.
  cbn [join omap list_omap string_of_list_ascii String.length String.get].
  repeat split; done.
Qed.

Lemma uuid_rfc4122_shape_witness :
  let s := uuid None (fun _ => 5) in
  String.length s = 36%nat
  /\ String.get 8 s = Some "-"%char /\ String.get 13 s = Some "-"%char
  /\ String.get 18 s = Some "-"%char /\ String.get 23 s = Some "-"%char
  /\ String.get 14 s = Some "4"%char
  /\ variantDigit (String.get 19 s)
  /\ uuid (Some 0) (fun _ => 5) = s.
Proof.
  exact (uuid_rfc4122_shape (fun _ => 5) (fun _ => ltac:(lia))).
Defined.

Lemma join_all_defined (arr : list (option ascii)) :
  Forall (fun c => is_Some c) arr -> String.length (join arr) = length arr.
Proof.
  unfold join. induction arr as [|c arr IH]; intros Hall; [done|].
  apply Forall_cons in Hall as [[a ->] Hall]. cbn. f_equal. by apply IH.
Qed.

(** X9.  With a length [n] that is not 0 and the default radix, where
    every draw is a number from 0 to 61, [uuid] returns exactly [n]
    characters, and none when [n] is negative. *)
Theorem uuid_compact_length (n : Z) (draws : nat -> Z) :
  n <> 0 -> (forall k, 0 <= draws k < 62) ->
  String.length (uuid (Some n) draws) = Z.to_nat n.
Proof.
  intros Hn Hdraws. unfold uuid. destruct (Z.eqb_spec n 0); [done|].
  rewrite join_all_defined; [by rewrite length_fmap, length_seq|].
  apply Forall_fmap, Forall_forall. intros k _. cbn.
  destruct (charAt_defined (draws k) (Hdraws k)) as [c ->]. by eexists.
Qed.

Lemma uuid_compact_length_witness :
  String.length (uuid (Some 5) (fun _ => 61)) = Z.to_nat 5.
Proof.
  exact (uuid_compact_length 5 (fun _ => 61) ltac:(lia) (fun _ => ltac:(lia))).
Defined.

(** ** Block storage *)

Lemma to_hex_uint_nonnil (n : N) : N.to_hex_uint n <> Hexadecimal.Nil.
Proof. destruct n; [done | apply HexadecimalPos.Unsigned.to_uint_nonnil]. Qed.

Lemma toString16_inj (a b : Z) : 0 <= a -> 0 <= b -> toString16 a = toString16 b -> a = b.
Proof.
  intros Ha Hb. unfold toString16.
  destruct (Z.ltb_spec a 0); [lia|]. destruct (Z.ltb_spec b 0); [lia|].
  intros Heq. apply (f_equal NilZero.uint_of_string) in Heq.
  rewrite !NilZero.usu in Heq by apply to_hex_uint_nonnil.
  injection Heq as Heq. apply HexadecimalN.Unsigned.to_uint_inj in Heq. lia.
Qed.

Lemma FILE_NAME_inj (i j : Z) :
  -10 <= i -> -10 <= j -> FILE_NAME i = FILE_NAME j -> i = j.
Proof.
  intros Hi Hj Heq. unfold FILE_NAME in Heq.
  apply (f_equal list_byte_of_string) in Heq. rewrite !bytes_of_append in Heq.
  apply app_inv_head, app_inv_tail, bytes_inj, toString16_inj in Heq; lia.
Qed.

(** X10.  Two segments have two files: for segment indices from 0 up,
    different indices give different names, so the blocks of different
    segments, whose indices differ in their quotient by [BLOCK_IN_FILE],
    are never written to the same file of a folder. *)
Theorem segment_files_distinct (i j : Z) :
  0 <= i -> 0 <= j -> i <> j ->
  FILE_NAME i <> FILE_NAME j
  /\ forall folder, folder +:+ "/" +:+ FILE_NAME i <> folder +:+ "/" +:+ FILE_NAME j.
Proof.
  intros Hi Hj Hne. split.
  - intros Heq. apply FILE_NAME_inj in Heq; lia.
  - intros folder Heq. apply (f_equal list_byte_of_string) in Heq.
    rewrite !bytes_of_append in Heq.
    apply app_inv_head, app_inv_head, bytes_inj, FILE_NAME_inj in Heq; lia.
Qed.

Lemma segment_files_distinct_witness :
  FILE_NAME 0 <> FILE_NAME 16
  /\ forall folder, folder +:+ "/" +:+ FILE_NAME 0 <> folder +:+ "/" +:+ FILE_NAME 16.
Proof.
  exact (segment_files_distinct 0 16 ltac:(lia) ltac:(lia) ltac:(lia)).
Defined.

Lemma drawBlocks_free_first (n : nat) (m : SaveModel) :
  drawBlocks n stepToNextBlockIndex m
  = (take n (unusedBlocks m)
       ++ seqZ (nextBlockIndex m) (Z.of_nat (n - length (unusedBlocks m))),
     with_nextBlockIndex (nextBlockIndex m + Z.of_nat (n - length (unusedBlocks m)))
       (with_unusedBlocks (drop n (unusedBlocks m)) m)).
Proof.
  revert m. induction n as [|n IH]; intros m.
  - cbn [drawBlocks take drop Nat.sub Z.of_nat]. rewrite Z.add_0_r. by destruct m.
  - cbn [drawBlocks]. unfold stepToNextBlockIndex at 1.
    destruct (unusedBlocks m) as [|first rest] eqn:Hfree; cbn [Arrays.isNotEmpty].
    + rewrite IH. cbn [unusedBlocks nextBlockIndex with_nextBlockIndex].
      rewrite Hfree, take_nil, drop_nil. cbn [length app]. rewrite !Nat.sub_0_r.
      rewrite (seqZ_cons (nextBlockIndex m)) by lia.
      replace (Z.pred (Z.of_nat (S n))) with (Z.of_nat n) by lia.
      replace (Z.succ (nextBlockIndex m)) with (nextBlockIndex m + 1) by lia.
      f_equal. unfold with_nextBlockIndex, with_unusedBlocks. cbn. f_equal. lia.
    + rewrite IH. cbn [unusedBlocks nextBlockIndex with_unusedBlocks].
      cbn [take drop length Nat.sub app]. done.
Qed.

Lemma foldl_release freed m :
  foldl (fun m b => release b m) m freed = with_unusedBlocks (unusedBlocks m ++ freed) m.
Proof.
  revert m. induction freed as [|b freed IH]; intros m; cbn [foldl].
  - rewrite app_nil_r. by destruct m.
  - rewrite IH. unfold release. cbn. by rewrite <- app_assoc.
Qed.

(** C7.  With a free list that is not empty the index returned is its
    first element, which leaves the list, and the counter of block
    indices stays as it is; with an empty free list the index returned is
    the counter, which goes up by one, the counter being in the range
    where [n++] adds one exactly.  The first element is the index
    released first: an index released while others are free goes behind
    them, and the indices released one after the other on an empty free
    list are returned in the order of their release, the counter staying
    as it is. *)
Theorem stepToNextBlockIndex_free_list_first (m : SaveModel) :
  (forall first rest, unusedBlocks m = first :: rest ->
     stepToNextBlockIndex m = (first, with_unusedBlocks rest m)
     /\ unusedBlocks (snd (stepToNextBlockIndex m)) = rest
     /\ nextBlockIndex (snd (stepToNextBlockIndex m)) = nextBlockIndex m)
  /\ (unusedBlocks m = [] -> exactCounters (nextBlockIndex m) 1 ->
      stepToNextBlockIndex m
      = (nextBlockIndex m, with_nextBlockIndex (nextBlockIndex m + 1) m)
      /\ unusedBlocks (snd (stepToNextBlockIndex m)) = []
      /\ nextBlockIndex (snd (stepToNextBlockIndex m)) = nextBlockIndex m + 1)
  /\ (forall first rest block, unusedBlocks m = first :: rest ->
      stepToNextBlockIndex (release block m)
      = (first, release block (with_unusedBlocks rest m)))
  /\ (forall freed, unusedBlocks m = [] ->
      drawBlocks (length freed) stepToNextBlockIndex
        (foldl (fun m block => release block m) m freed)
      = (freed, m)).
Proof.
  unfold stepToNextBlockIndex. split; [|split; [|split]].
  - intros first rest Hfree. rewrite Hfree. cbn. auto.
  - intros Hfree _. rewrite Hfree. cbn. auto.
  - intros first rest block Hfree. unfold release. cbn. rewrite Hfree. cbn. done.
  - intros freed Hfree. fold (stepToNextBlockIndex). rewrite drawBlocks_free_first.
    rewrite foldl_release, Hfree. cbn [app unusedBlocks nextBlockIndex with_unusedBlocks].
    rewrite firstn_all, skipn_all, Nat.sub_diag. cbn [Z.of_nat]. rewrite app_nil_r.
    f_equal. rewrite Z.add_0_r. unfold with_nextBlockIndex, with_unusedBlocks. cbn.
    rewrite <- Hfree. by destruct m.
Qed.

Lemma stepToNextBlockIndex_free_list_first_witness :
  stepToNextBlockIndex (with_unusedBlocks [5; 6] Scenario.store)
  = (5, with_unusedBlocks [6] Scenario.store)
  /\ stepToNextBlockIndex Scenario.store
     = (7, with_nextBlockIndex 8 Scenario.store)
  /\ stepToNextBlockIndex (release 9 (with_unusedBlocks [5; 6] Scenario.store))
     = (5, with_unusedBlocks [6; 9] Scenario.store)
  /\ drawBlocks 3 stepToNextBlockIndex
       (release 4 (release 6 (release 5 Scenario.store)))
     = ([5; 6; 4], Scenario.store).
Proof.
  assert (exactCounters 7 1) as Hrange by (unfold exactCounters; lia).
  split; [|split; [|split]].
  - exact (proj1 (proj1 (stepToNextBlockIndex_free_list_first
                           (with_unusedBlocks [5; 6] Scenario.store)) 5 [6] eq_refl)).
  - exact (proj1 (proj1 (proj2 (stepToNextBlockIndex_free_list_first Scenario.store))
                    eq_refl Hrange)).
  - exact (proj1 (proj2 (proj2 (stepToNextBlockIndex_free_list_first
                                  (with_unusedBlocks [5; 6] Scenario.store))))
             5 [6] 9 eq_refl).
  - exact (proj2 (proj2 (proj2 (stepToNextBlockIndex_free_list_first Scenario.store)))
             [5; 6; 4] eq_refl).
Defined.

(** X11.  [n] calls of [stepToNextBlockIndex], with the counter in the
    range where [n++] adds one exactly for each of them, give the first
    [n] indices of the free list, in its order, and then the counter and
    the numbers after it.  If the free list has no index twice and none
    that the counter has not passed, the indices given are pairwise different, none
    of them is still in the free list or at or above the counter
    afterwards, so none can be given again, and the free list and the
    counter are again as required. *)
Theorem allocation_never_repeats (n : nat) (m : SaveModel) :
  exactCounters (nextBlockIndex m) n ->
  NoDup (unusedBlocks m) ->
  Forall (fun b => b < nextBlockIndex m) (unusedBlocks m) ->
  let blocks := fst (drawBlocks n stepToNextBlockIndex m) in
  let m' := snd (drawBlocks n stepToNextBlockIndex m) in
  blocks = take n (unusedBlocks m)
             ++ seqZ (nextBlockIndex m) (Z.of_nat (n - length (unusedBlocks m)))
  /\ NoDup blocks
  /\ NoDup (unusedBlocks m')
  /\ Forall (fun b => b < nextBlockIndex m') (unusedBlocks m')
  /\ Forall (fun b => (b ∉ unusedBlocks m') /\ b < nextBlockIndex m') blocks
  /\ nextBlockIndex m <= nextBlockIndex m'.
Proof.
  intros _ Hnodup Hbelow. rewrite drawBlocks_free_first. cbn [fst snd].
  cbn [unusedBlocks nextBlockIndex with_nextBlockIndex with_unusedBlocks].
  set (free := unusedBlocks m) in *. set (c := nextBlockIndex m) in *.
  rewrite <- (take_drop n free) in Hnodup. apply NoDup_app in Hnodup as (Htake & Hdisj & Hdrop).
  assert (Forall (fun b => b < c) (take n free)) as Htb by (by apply Forall_take).
  assert (Forall (fun b => b < c) (drop n free)) as Hdb by (by apply Forall_drop).
  split; [done|]. split; [|split; [done|split; [|split; [|lia]]]].
  - apply NoDup_app. split; [done|]. split; [|apply NoDup_seqZ].
    intros b Hb Hin. apply elem_of_seqZ in Hin.
    eapply Forall_forall in Htb; [|done]. lia.
  - eapply Forall_impl; [done|]. cbn. lia.
  - apply Forall_app. split.
    + apply Forall_forall. intros b Hb. split; [by apply Hdisj|].
      eapply Forall_forall in Htb; [|done]. lia.
    + apply Forall_forall. intros b Hb. apply elem_of_seqZ in Hb. split; [|lia].
      intros Hin. eapply Forall_forall in Hdb; [|done]. lia.
Qed.

Lemma allocation_never_repeats_witness :
  let m := mkSaveModel 2 3 7 [3; 1] [] [] ∅ ∅ in
  let blocks := fst (drawBlocks 3 stepToNextBlockIndex m) in
  let m' := snd (drawBlocks 3 stepToNextBlockIndex m) in
  blocks = take 3 (unusedBlocks m)
             ++ seqZ (nextBlockIndex m) (Z.of_nat (3 - length (unusedBlocks m)))
  /\ NoDup blocks
  /\ NoDup (unusedBlocks m')
  /\ Forall (fun b => b < nextBlockIndex m') (unusedBlocks m')
  /\ Forall (fun b => (b ∉ unusedBlocks m') /\ b < nextBlockIndex m') blocks
  /\ nextBlockIndex m <= nextBlockIndex m'.
Proof.
  intros m.
  refine (allocation_never_repeats 3 m _ _ _).
  - unfold exactCounters. cbn. lia.
  - apply NoDup_cons_2; [|apply NoDup_singleton].
    intros Hin. apply list_elem_of_singleton in Hin. discriminate.
  - repeat constructor.
Defined.

Lemma keys_mapPush f c map :
  fst <$> mapPush f c map
  = if bool_decide (f ∈ fst <$> map) then fst <$> map else (fst <$> map) ++ [f].
Proof.
  induction map as [|[name arr] map IH]; [done|].
  cbn [mapPush]. destruct (decide (name = f)) as [Hname|Hname].
  - rewrite (bool_decide_eq_true_2 (name = f)) by done. subst name.
    cbn [fmap list_fmap fst]. rewrite bool_decide_eq_true_2; [done | left].
  - rewrite (bool_decide_eq_false_2 (name = f)) by done.
    cbn [fmap list_fmap fst]. fold (@fmap list _ _ _ (@fst string (list Chunk)) (mapPush f c map)).
    fold (@fmap list _ _ _ (@fst string (list Chunk)) map).
    rewrite IH. case_bool_decide as Hin.
    + rewrite bool_decide_eq_true_2; [done | by right].
    + rewrite bool_decide_eq_false_2; [done|]. intros Hin'. apply elem_of_cons in Hin'.
      destruct Hin'; congruence.
Qed.

Section Callbacks.
Context `{Platform}.

Lemma keys_chunkMap folder blocks size :
  NoDup (fst <$> chunkMap folder blocks size)
  /\ forall f, f ∈ fst <$> chunkMap folder blocks size
             <-> exists block, block ∈ blocks
                   /\ f = folder +:+ "/" +:+ FILE_NAME (block / BLOCK_IN_FILE).
Proof.
  unfold chunkMap. set (count := Z.of_nat (length blocks)).
  assert (snd <$> zip (seqZ 0 count) blocks = blocks) as Hsnd
    by (apply snd_zip; subst count; rewrite length_seqZ; lia).
  clearbody count. revert Hsnd. generalize (zip (seqZ 0 count) blocks) as l. intros l <-.
  enough (forall (map0 : list (string * list Chunk)),
            NoDup (fst <$> map0) ->
            let map1 := foldl (fun map '(i, block) =>
                         let filename := folder +:+ "/" +:+ FILE_NAME (block / BLOCK_IN_FILE) in
                         mapPush filename
                           (mkChunk i (Z.rem block BLOCK_IN_FILE)
                              (if i =? count - 1 then Z.rem size BLOCK_SIZE else BLOCK_SIZE))
                           map) map0 l in
            NoDup (fst <$> map1)
            /\ forall f, f ∈ fst <$> map1
                 <-> f ∈ fst <$> map0
                     \/ exists block, block ∈ snd <$> l
                          /\ f = folder +:+ "/" +:+ FILE_NAME (block / BLOCK_IN_FILE)) as Hgen.
  { destruct (Hgen [] ltac:(constructor)) as [Hnd Hin]. split; [done|].
    intros f. rewrite Hin. split; [intros [Hnil|?]; [by apply elem_of_nil in Hnil | done] | by right]. }
  induction l as [|[i block] l IH]; intros map0 Hnd; cbn [foldl].
  - split; [done|]. intros f. split; [by left|]. intros [?|(b & Hb & _)]; [done|].
    by apply elem_of_nil in Hb.
  - cbn zeta in IH |- *.
    set (filename := folder +:+ "/" +:+ FILE_NAME (block / BLOCK_IN_FILE)).
    set (c := mkChunk _ _ _).
    assert (NoDup (fst <$> mapPush filename c map0)) as Hnd'.
    { rewrite keys_mapPush. case_bool_decide as Hnot; [done|].
      apply NoDup_app. split; [done|]. split; [|apply NoDup_singleton].
      intros x Hx Hx'. apply list_elem_of_singleton in Hx'. apply Hnot. by rewrite <- Hx'. }
    destruct (IH _ Hnd') as [Hres Hin]. split; [done|].
    intros f. rewrite Hin, keys_mapPush. cbn [fmap list_fmap snd].
    split.
    + intros [Hf|(b & Hb & ->)].
      * case_bool_decide; [by left|]. apply elem_of_app in Hf as [?|Hf]; [by left|].
        apply list_elem_of_singleton in Hf. right. exists block. split; [left | done].
      * right. exists b. split; [by right | done].
    + intros [Hf|(b & Hb & ->)].
      * left. case_bool_decide; [done|]. apply elem_of_app. by left.
      * apply elem_of_cons in Hb as [->|Hb].
        -- left. fold filename. case_bool_decide; [done|]. apply elem_of_app. right. left.
        -- right. by exists b.
Qed.

Lemma saveFiles_calls folder buffer blocks map fs calls fs' :
  saveFiles folder buffer blocks map fs = Normal (calls, fs') ->
  calls = replicate (length map) blocks.
Proof.
  revert fs calls fs'. induction map as [|[filename mapBlock] map IH]; intros fs calls fs'.
  - cbn. by intros [= <- _].
  - cbn [saveFiles]. case_bool_decide; [|done].
    destruct (writeChunks _ _ _) as [content| |]; cbn [cbind]; [|done|done].
    destruct (saveFiles _ _ _ _ _) as [[calls1 fs1]| |] eqn:Hrest; cbn [cbind]; [|done|done].
    intros [= <- _]. cbn [length replicate fst]. f_equal. by eapply IH.
Qed.

Lemma loadFiles_calls map fs buf bufs :
  loadFiles map fs buf = Normal bufs -> length bufs = length map.
Proof.
  revert buf bufs. induction map as [|[filename chunks] map IH]; intros buf bufs.
  - cbn. by intros [= <-].
  - cbn [loadFiles]. destruct (files fs !! filename) as [content|]; [|done].
    destruct (readChunks _ _ _) as [buf1| |]; cbn [cbind]; [|done|done].
    destruct (loadFiles _ _ _) as [calls| |] eqn:Hrest; cbn [cbind]; [|done|done].
    intros [= <-]. cbn [length]. f_equal. by eapply IH.
Qed.

(** X12.  When every write of [saveImageBuffer] is done, its callback has
    been called once for each segment file that holds one of the blocks
    obtained, each time with the whole list of blocks: once when the
    blocks are in one segment, and more than once when they span
    segments.  The files are those of the quotients of the blocks by
    [BLOCK_IN_FILE], each opened once. *)
Theorem callback_once_per_segment_file {S : Type} (folder : string) (buffer : Buffer)
    (next : S -> Z * S) (s : S) (fs : FS) calls s' fs' :
  saveImageBuffer folder buffer next s fs = Normal (calls, s', fs') ->
  let L := Z.of_nat (length buffer) in
  let blocks := fst (drawBlocks (Z.to_nat (L / BLOCK_SIZE + 1)) next s) in
  let names := fst <$> chunkMap folder blocks L in
  calls = replicate (length names) blocks
  /\ NoDup names
  /\ forall f, f ∈ names
       <-> exists block, block ∈ blocks
             /\ f = folder +:+ "/" +:+ FILE_NAME (block / BLOCK_IN_FILE).
Proof.
  intros Hsave L blocks names. split; [|apply keys_chunkMap].
  unfold saveImageBuffer in Hsave. fold L in Hsave.
  subst names blocks. destruct (drawBlocks _ next s) as [blocks s1]. cbn [fst].
  destruct (saveFiles _ _ _ _ _) as [[calls1 fs1]| |] eqn:Hfiles; cbn [cbind] in Hsave;
    [|done|done].
  cbn [fst snd] in Hsave. injection Hsave as <- _ _.
  rewrite length_fmap. by eapply saveFiles_calls.
Qed.

(** X13.  For a size from 0 up: when every read of [loadImageBuffer] is
    done, its callback has been called once for each segment file that
    holds one of the blocks asked for, and never when the list of blocks
    is empty: a caller that waits for the callback of a record without
    blocks waits for ever. *)
Theorem read_callback_per_segment_file (folder : string) (blocks : list Z) (size : Z)
    (fs : FS) (bufs : list Buffer) :
  0 <= size ->
  loadImageBuffer folder blocks size fs = Normal bufs ->
  length bufs = length (chunkMap folder blocks size)
  /\ NoDup (fst <$> chunkMap folder blocks size)
  /\ (forall f, f ∈ fst <$> chunkMap folder blocks size
        <-> exists block, block ∈ blocks
              /\ f = folder +:+ "/" +:+ FILE_NAME (block / BLOCK_IN_FILE))
  /\ (blocks = [] -> bufs = []).
Proof.
  intros _ Hload. unfold loadImageBuffer in Hload. apply loadFiles_calls in Hload.
  split; [done|]. split; [apply keys_chunkMap|]. split; [apply keys_chunkMap|].
  intros ->. by destruct bufs.
Qed.
End Callbacks.

Lemma callback_once_per_segment_file_witness :
  let _ := Sample.platform false in
  let buffer := list_byte_of_string "hello" in
  let m := with_nextBlockIndex 0 Scenario.store in
  let L := Z.of_nat (length buffer) in
  let blocks := fst (drawBlocks (Z.to_nat (L / BLOCK_SIZE + 1)) stepToNextBlockIndex m) in
  let names := fst <$> chunkMap "d" blocks L in
  exists calls m' fs',
    saveImageBuffer "d" buffer stepToNextBlockIndex m Scenario.disk = Normal (calls, m', fs')
    /\ calls = replicate (length names) blocks
    /\ NoDup names
    /\ forall f, f ∈ names
         <-> exists block, block ∈ blocks
               /\ f = "d" +:+ "/" +:+ FILE_NAME (block / BLOCK_IN_FILE).
Proof.
  intros P buffer m L blocks names.
  destruct (@block_storage_round_trip P "d" buffer m Scenario.disk eq_refl eq_refl)
    as (fs' & Hsave & _); [done | apply scenario_folder_exists | done |].
  eexists _, _, fs'. split; [exact Hsave|].
  exact (callback_once_per_segment_file "d" buffer stepToNextBlockIndex m Scenario.disk
           _ _ _ Hsave).
Defined.

Lemma read_callback_per_segment_file_witness :
  let _ := Sample.platform false in
  length [list_byte_of_string "h"] = length (chunkMap "d" [0] 1)
  /\ NoDup (fst <$> chunkMap "d" [0] 1)
  /\ (forall f, f ∈ fst <$> chunkMap "d" [0] 1
        <-> exists block, block ∈ [0]
              /\ f = "d" +:+ "/" +:+ FILE_NAME (block / BLOCK_IN_FILE))
  /\ ([0] = [] -> [list_byte_of_string "h"] = []).
Proof.
  intros P.
  exact (read_callback_per_segment_file "d" [0] 1 Runs.disk [list_byte_of_string "h"]
           ltac:(lia) eq_refl).
Defined.

Section ReadLength.
Context `{Platform}.

Lemma fs_read_length content buf offset len position buf' :
  0 <= offset ->
  fs_read content buf offset len position = Normal buf' -> length buf' = length buf.
Proof.
  intros Hoff. unfold fs_read. destruct (Z.eqb_spec len 0); [by intros [= <-]|].
  destruct (Z.ltb_spec (Z.of_nat (length buf)) (offset + len)); [done|].
  intros [= <-]. rewrite !length_app, length_take, length_drop.
  pose proof (length_take_le' := length_take (drop (Z.to_nat position) content) (Z.to_nat len)).
  lia.
Qed.

Lemma readChunks_length content chunks buf buf' :
  Forall (fun c => 0 <= chunk_id c) chunks ->
  readChunks content chunks buf = Normal buf' -> length buf' = length buf.
Proof.
  revert buf. induction chunks as [|c chunks IH]; intros buf Hids; cbn [readChunks].
  - by intros [= <-].
  - apply Forall_cons in Hids as [Hc Hrest].
    destruct (fs_read _ _ _ _ _) as [buf1| |] eqn:Hread; cbn [cbind]; [|done|done].
    intros Hchunks. apply IH in Hchunks; [|done].
    apply fs_read_length in Hread; [lia|]. pose proof BLOCK_SIZE_pos. nia.
Qed.

Lemma loadFiles_length map fs buf bufs :
  Forall (fun c => 0 <= chunk_id c) (allChunks map) ->
  loadFiles map fs buf = Normal bufs -> Forall (fun b => length b = length buf) bufs.
Proof.
  revert buf bufs. induction map as [|[filename chunks] map IH]; intros buf bufs Hids.
  - cbn. intros [= <-]. constructor.
  - unfold allChunks in Hids. cbn [fmap list_fmap snd concat] in Hids.
    apply Forall_app in Hids as [Hhere Hrest].
    cbn [loadFiles]. destruct (files fs !! filename) as [content|]; [|done].
    destruct (readChunks _ _ _) as [buf1| |] eqn:Hread; cbn [cbind]; [|done|done].
    destruct (loadFiles _ _ _) as [calls| |] eqn:Hfiles; cbn [cbind]; [|done|done].
    intros [= <-]. apply readChunks_length in Hread; [|done].
    constructor; [done|]. rewrite <- Hread. by eapply IH.
Qed.

(** X14.  Every buffer that [loadImageBuffer] gives to its callback has
    exactly [size] bytes, whatever the blocks and the files hold: a
    record whose size is not that of its payload is answered with a
    buffer cut or filled with zeros, not with an error. *)
Theorem loadImageBuffer_length (folder : string) (blocks : list Z) (size : Z) (fs : FS)
    (bufs : list Buffer) :
  0 <= size ->
  loadImageBuffer folder blocks size fs = Normal bufs ->
  Forall (fun buf => Z.of_nat (length buf) = size) bufs.
Proof.
  intros Hsize Hload. unfold loadImageBuffer in Hload.
  apply loadFiles_length in Hload.
  - eapply Forall_impl; [done|]. cbn. intros buf ->. unfold Buffer_alloc.
    rewrite length_replicate. lia.
  - rewrite allChunks_chunkMap. apply Forall_fmap, Forall_forall.
    intros [i b] Hin. apply elem_of_zip_l, elem_of_seqZ in Hin. cbn. lia.
Qed.

(** X15.  Every payload that fits one segment file, with its
    [floor (L / BLOCK_SIZE) + 1] blocks among the [BLOCK_IN_FILE] of the
    segment, so of every length below 64 MiB, and not of the lengths at
    the block boundaries only, is read back as it was: written with an
    allocator that starts at block 0 with an empty free list in a folder
    that exists (and, where every write is appended, has no segment file
    yet), the callback of the write is called once with the blocks 0, 1,
    ..., and reading those blocks with the length of the payload calls
    the callback once, with the payload. *)
Theorem payload_round_trip_one_segment (folder : string) (buffer : Buffer)
    (m : SaveModel) (fs : FS) :
  let L := Z.of_nat (length buffer) in
  let n := L / BLOCK_SIZE + 1 in
  unusedBlocks m = [] -> nextBlockIndex m = 0 ->
  n <= BLOCK_IN_FILE ->
  folder ∈ dirs fs ->
  (appendIgnoresPosition = true -> files fs !! (folder +:+ "/" +:+ FILE_NAME 0) = None) ->
  exists fs',
    saveImageBuffer folder buffer stepToNextBlockIndex m fs
    = Normal ([seqZ 0 n], with_nextBlockIndex n m, fs')
    /\ loadImageBuffer folder (seqZ 0 n) L fs' = Normal [buffer]
    /\ dirs fs' = dirs fs
    /\ forall f, f <> folder +:+ "/" +:+ FILE_NAME 0 -> files fs' !! f = files fs !! f.
Proof.
  intros L n Hfree Hzero Hseg Hdir Happ.
  destruct (block_storage_round_trip folder buffer m fs Hfree Hzero Hseg Hdir Happ)
    as (fs' & Hsave & Hload).
  exists fs'. split; [done|]. split; [done|].
  assert (0 <= L / BLOCK_SIZE) as Hdiv
    by (apply Z.div_pos; [lia | apply BLOCK_SIZE_pos]).
  unfold saveImageBuffer in Hsave. fold L in Hsave. fold n in Hsave.
  rewrite drawBlocks_fresh in Hsave by done.
  rewrite Hzero, Z.add_0_l, Z2Nat.id in Hsave by lia.
  rewrite chunkMap_fresh in Hsave by lia. cbn [saveFiles] in Hsave.
  rewrite bool_decide_eq_true_2 in Hsave by done.
  destruct (writeChunks _ _ _) as [content| |]; cbn [cbind fst snd] in Hsave; [|done|done].
  injection Hsave as <-. cbn [dirs files]. split; [done|].
  intros f Hf. by apply lookup_insert_ne.
Qed.
End ReadLength.

Lemma loadImageBuffer_length_witness :
  let _ := Sample.platform false in
  Forall (fun buf => Z.of_nat (length buf) = 1) [list_byte_of_string "h"].
Proof.
  intros P.
  exact (loadImageBuffer_length "d" [0] 1 Runs.disk [list_byte_of_string "h"]
           ltac:(lia) eq_refl).
Defined.

Lemma payload_round_trip_one_segment_witness :
  let _ := Sample.platform true in
  let buffer := list_byte_of_string "hello" in
  let m := with_nextBlockIndex 0 Scenario.store in
  exists fs',
    saveImageBuffer "d" buffer stepToNextBlockIndex m Scenario.disk
    = Normal ([seqZ 0 1], with_nextBlockIndex 1 m, fs')
    /\ loadImageBuffer "d" (seqZ 0 1) 5 fs' = Normal [buffer]
    /\ dirs fs' = dirs Scenario.disk
    /\ forall f, f <> "d" +:+ "/" +:+ FILE_NAME 0 -> files fs' !! f = files Scenario.disk !! f.
Proof.
  intros P buffer m.
  exact (payload_round_trip_one_segment "d" buffer m Scenario.disk eq_refl eq_refl
           ltac:(done) scenario_folder_exists (fun _ => eq_refl)).
Defined.

(** ** The metadata store *)

Lemma indexOf_spec {A} (arr : list A) (p : A -> bool) :
  let index := Arrays.indexOf arr p in
  (index = -1 /\ Forall (fun t => p t = false) arr)
  \/ (0 <= index < Z.of_nat (length arr)
      /\ exists t, arr !! Z.to_nat index = Some t /\ p t = true
      /\ Forall (fun t => p t = false) (take (Z.to_nat index) arr)).
Proof.
  induction arr as [|t arr IH]; cbn [Arrays.indexOf]; [by left|].
  destruct (p t) eqn:Hp.
  - right. cbn [length]. split; [lia|]. exists t. by repeat split.
  - cbn zeta in IH. destruct IH as [[Hidx Hall]|(Hidx & u & Hu & Hpu & Hbefore)].
    + left. rewrite Hidx. cbn. split; [done|]. by constructor.
    + right. destruct (Z.ltb_spec (Arrays.indexOf arr p) 0); [lia|].
      cbn [length]. split; [lia|]. exists u.
      replace (Z.to_nat (Arrays.indexOf arr p + 1)) with (S (Z.to_nat (Arrays.indexOf arr p)))
        by lia.
      cbn. repeat split; [done | done |]. by constructor.
Qed.

Lemma elem_of_put arr x y : y ∈ Sets.put arr x <-> y ∈ arr \/ y = x.
Proof.
  unfold Sets.put. case_bool_decide.
  - split; [by left|]. intros [?| ->]; done.
  - rewrite elem_of_app, list_elem_of_singleton. done.
Qed.

Lemma NoDup_put arr x : NoDup arr -> NoDup (Sets.put arr x).
Proof.
  intros Hnd. unfold Sets.put. case_bool_decide as Hin; [done|].
  apply NoDup_app. split; [done|]. split; [|apply NoDup_singleton].
  intros y Hy Hy'. apply list_elem_of_singleton in Hy'. apply Hin. by rewrite <- Hy'.
Qed.

Lemma putTags_spec ts m :
  sameButTags m (putTags ts m)
  /\ (NoDup (tags m) -> NoDup (tags (putTags ts m)))
  /\ forall tag, tag ∈ tags (putTags ts m) <-> tag ∈ tags m \/ tag ∈ ts.
Proof.
  unfold putTags. revert m. induction ts as [|t ts IH]; intros m; cbn [foldl].
  - split; [by repeat split|]. split; [done|]. intros tag. split; [by left|].
    intros [?|Hnil]; [done | by apply elem_of_nil in Hnil].
  - destruct (IH (with_tags (Sets.put (tags m) t) m)) as (Hsame & Hnd & Hin).
    split; [|split].
    + destruct Hsame as (? & ? & ? & ? & ? & ? & ?). by repeat split.
    + intros Hm. apply Hnd. cbn. by apply NoDup_put.
    + intros tag. rewrite Hin. cbn [tags with_tags]. rewrite elem_of_put, elem_of_cons.
      tauto.
Qed.

Lemma putSubTags_spec imgs m :
  sameButTags m (putSubTags imgs m)
  /\ (NoDup (tags m) -> NoDup (tags (putSubTags imgs m)))
  /\ forall tag, tag ∈ tags (putSubTags imgs m)
       <-> tag ∈ tags m \/ exists image, image ∈ imgs /\ tag ∈ subTags image.
Proof.
  unfold putSubTags. revert m. induction imgs as [|image imgs IH]; intros m; cbn [foldl].
  - split; [by repeat split|]. split; [done|]. intros tag. split; [by left|].
    intros [?|(image & Hnil & _)]; [done | by apply elem_of_nil in Hnil].
  - destruct (putTags_spec (subTags image) m) as (Hsame1 & Hnd1 & Hin1).
    destruct (IH (putTags (subTags image) m)) as (Hsame & Hnd & Hin).
    split; [|split].
    + destruct Hsame as (? & ? & ? & ? & ? & ? & ?), Hsame1 as (? & ? & ? & ? & ? & ? & ?).
      repeat split; congruence.
    + auto.
    + intros tag. rewrite Hin, Hin1. split.
      * intros [[?|?]|(img & ? & ?)]; [by left | right; exists image; split; [left|done] |].
        right. exists img. split; [by right | done].
      * intros [?|(img & Himg & ?)]; [by left; left|].
        apply elem_of_cons in Himg as [->|?]; [by left; right|]. right. by exists img.
Qed.

Lemma elem_of_subTags tag imgs :
  (exists image, image ∈ imgs /\ tag ∈ subTags image) <-> tag ∈ concat (subTags <$> imgs).
Proof.
  induction imgs as [|image imgs IH]; cbn [fmap list_fmap concat].
  - split; [intros (image & Hnil & _); by apply elem_of_nil in Hnil|].
    intros Hnil. by apply elem_of_nil in Hnil.
  - rewrite elem_of_app, <- IH. split.
    + intros (img & Him & Htag). apply elem_of_cons in Him as [->|Him]; [by left|].
      right. by exists img.
    + intros [Htag|(img & Him & Htag)]; [exists image; split; [left | done]|].
      exists img. split; [by right | done].
Qed.

Lemma stepImages_spec imgs m :
  let imgs' := fst (stepImages imgs m) in
  let m' := snd (stepImages imgs m) in
  subTags <$> imgs' = subTags <$> imgs
  /\ Forall2 (fun x r => if no_id (image_id x) then exists n, image_id r = Some n /\ nextImageId m <= n < nextImageId m'
                         else r = x) imgs imgs'
  /\ nextImageId m <= nextImageId m'
  /\ nextIllustrationId m' = nextIllustrationId m
  /\ tags m' = tags m /\ illustrations m' = illustrations m
  /\ sameStorage m m'.
Proof.
  revert m. induction imgs as [|image imgs IH]; intros m; cbn [stepImages].
  - cbn. repeat split; try done; try lia; constructor.
  - destruct (no_id (image_id image)) eqn:Hid.
    + cbn [stepToNextImageId].
      specialize (IH (with_nextImageId (nextImageId m + 1) m)).
      destruct (stepImages imgs _) as [rest m1]. cbn [fst snd] in *.
      destruct IH as (Htags & Hids & Hle & Hill & Ht & Hi & Hs1 & Hs2 & Hs3 & Hs4).
      cbn [nextImageId with_nextImageId] in *.
      split; [by cbn; f_equal|]. split.
      { constructor.
        - rewrite Hid. exists (nextImageId m). split; [done | lia].
        - eapply Forall2_impl; [done|]. cbn. intros x r. destruct (no_id (image_id x)); [|done].
          intros (n & ? & ?). exists n. split; [done | lia]. }
      repeat split; try done; lia.
    + specialize (IH m). destruct (stepImages imgs m) as [rest m1]. cbn [fst snd] in *.
      destruct IH as (Htags & Hids & Hle & Hill & Ht & Hi & Hs1 & Hs2 & Hs3 & Hs4).
      split; [by cbn; f_equal|]. split; [constructor; [by rewrite Hid | done]|].
      by repeat split.
Qed.

Lemma createOne_spec illust m :
  let r := fst (createOne illust m) in
  let m' := snd (createOne illust m) in
  illustrations m' = illustrations m ++ [r]
  /\ illust_id r = (if no_id (illust_id illust) then Some (nextIllustrationId m)
                    else illust_id illust)
  /\ nextIllustrationId m'
     = nextIllustrationId m + (if no_id (illust_id illust) then 1 else 0)
  /\ illust_tags r = illust_tags illust
  /\ illust_attributes r = illust_attributes illust
  /\ subTags <$> images r = subTags <$> images illust
  /\ nextImageId m <= nextImageId m'
  /\ (NoDup (tags m) -> NoDup (tags m'))
  /\ (forall tag, tag ∈ tags m' <-> tag ∈ tags m \/ tag ∈ allTags illust)
  /\ sameStorage m m'.
Proof.
  unfold createOne.
  set (st := if no_id (illust_id illust) then _ else _).
  assert (fst st = (if no_id (illust_id illust) then Some (nextIllustrationId m)
                    else illust_id illust)
          /\ snd st = with_nextIllustrationId
                        (nextIllustrationId m + (if no_id (illust_id illust) then 1 else 0)) m)
    as [Hid Hm0].
  { subst st. destruct (no_id (illust_id illust)); cbn; [done|].
    split; [done|]. rewrite Z.add_0_r. by destruct m. }
  destruct st as [id m0]. cbn [fst snd] in Hid, Hm0. subst id m0.
  set (m0 := with_nextIllustrationId _ m).
  pose proof (stepImages_spec (images illust) m0) as Hstep. cbn zeta in Hstep.
  destruct (stepImages (images illust) m0) as [imgs m1]. cbn [fst snd] in *.
  destruct Hstep as (Hsub & _ & Hle & Hill & Ht & Hi & Hs1 & Hs2 & Hs3 & Hs4).
  set (r := mkIllustration _ _ imgs _).
  set (m2 := with_illustrations (Arrays.append (illustrations m1) r) m1).
  destruct (putTags_spec (illust_tags r) m2) as (Hsame3 & Hnd3 & Hin3).
  destruct (putSubTags_spec (images r) (putTags (illust_tags r) m2)) as (Hsame4 & Hnd4 & Hin4).
  destruct Hsame3 as (? & ? & ? & ? & ? & ? & ?), Hsame4 as (? & ? & ? & ? & ? & ? & ?).
  subst m0 m2. cbn [illustrations nextIllustrationId nextImageId tags nextBlockIndex
                     unusedBlocks blocks config with_illustrations with_nextIllustrationId] in *.
  split; [unfold Arrays.append in *; congruence|].
  split; [done|]. split; [congruence|]. split; [done|]. split; [done|]. split; [done|].
  split; [lia|]. split; [intros Hnd; apply Hnd4, Hnd3; by rewrite Ht|].
  split; [|repeat split; congruence].
  intros tag. rewrite Hin4, Hin3, Ht. unfold allTags. rewrite elem_of_app.
  rewrite elem_of_subTags. subst r. cbn [images illust_tags]. rewrite Hsub. tauto.
Qed.

Lemma createIllustration_run illusts e :
  let result := fst (createIllustration illusts e) in
  let e' := snd (createIllustration illusts e) in
  illustrations (memory e') = illustrations (memory e) ++ result
  /\ Forall2 createdFrom illusts result
  /\ nextIllustrationId (memory e')
     = nextIllustrationId (memory e)
       + Z.of_nat (length (filter (fun x => no_id (illust_id x) = true) illusts))
  /\ nextImageId (memory e) <= nextImageId (memory e')
  /\ (NoDup (tags (memory e)) -> NoDup (tags (memory e')))
  /\ (forall tag, tag ∈ tags (memory e')
        <-> tag ∈ tags (memory e) \/ exists x, x ∈ illusts /\ tag ∈ allTags x)
  /\ sameStorage (memory e) (memory e')
  /\ imageURLCache e' = imageURLCache e /\ key e' = key e
  /\ storageFolder e' = storageFolder e.
Proof.
  revert e. induction illusts as [|x illusts IH]; intros e; cbn [createIllustration].
  - cbn [fst snd]. rewrite app_nil_r.
    split; [done|]. split; [constructor|]. split; [cbn; lia|]. split; [lia|].
    split; [done|]. split; [|by repeat split].
    intros tag. split; [by left|].
    intros [?|(x & Hnil & _)]; [done | by apply elem_of_nil in Hnil].
  - pose proof (createOne_spec x (memory e)) as Hone. cbn zeta in Hone.
    destruct (createOne x (memory e)) as [r m1]. cbn [fst snd] in Hone.
    specialize (IH (with_memory m1 e)).
    destruct (createIllustration illusts (with_memory m1 e)) as [rest e1].
    cbn [fst snd memory with_memory imageURLCache key storageFolder] in *.
    destruct Hone as (Hill & Hid & Hnext & Htags & Hattrs & Hsub & Himg & Hnd & Hin
                      & Hs1 & Hs2 & Hs3 & Hs4).
    destruct IH as (Hill' & Hall & Hnext' & Himg' & Hnd' & Hin' & (Hs1' & Hs2' & Hs3' & Hs4')
                    & Hcache & Hkey & Hfolder).
    split; [by rewrite Hill', Hill, <- app_assoc|].
    split.
    { constructor; [|done]. repeat split; try done. intros Hno. by rewrite Hno in Hid. }
    split.
    { rewrite Hnext', Hnext, filter_cons. destruct (no_id (illust_id x)) eqn:Hno.
      - rewrite decide_True by done. cbn [length]. lia.
      - rewrite decide_False by congruence. lia. }
    split; [lia|]. split; [auto|]. split.
    { intros tag. rewrite Hin', Hin. split.
      - intros [[?|?]|(y & Hy & ?)]; [by left | right; exists x; split; [left | done] |].
        right. exists y. split; [by right | done].
      - intros [?|(y & Hy & ?)]; [by left; left|].
        apply elem_of_cons in Hy as [->|Hy]; [by left; right|]. right. by exists y. }
    repeat split; congruence.
Qed.

(** X16.  For entries that are objects of their own and counters in the
    range where [n++] adds one exactly: [createIllustration] adds the
    entries it returns at the end of the stored entries, in the order of
    the argument, and leaves the entries stored before as they are.  Each
    entry returned keeps the tags, the attributes and the sub-item tags
    of the entry given, and its id when that is a number other than 0;
    ids given by the caller are not compared with the ids in use.  The
    entry counter goes up by the number of entries given without id and
    the sub-item counter never goes down.  The tag cache gets exactly the
    tags of the entries given and of their sub-items, and stays free of
    duplicates.  The block map, the free list, the block counter, the
    config and the payload cache are not touched. *)
Theorem createIllustration_spec illusts e :
  ownObjects (illustrations (memory e)) illusts ->
  exactCounters (nextIllustrationId (memory e)) (length illusts) ->
  exactCounters (nextImageId (memory e)) (length (allImages illusts)) ->
  let result := fst (createIllustration illusts e) in
  let e' := snd (createIllustration illusts e) in
  illustrations (memory e') = illustrations (memory e) ++ result
  /\ Forall2 createdFrom illusts result
  /\ nextIllustrationId (memory e')
     = nextIllustrationId (memory e)
       + Z.of_nat (length (filter (fun x => no_id (illust_id x) = true) illusts))
  /\ nextImageId (memory e) <= nextImageId (memory e')
  /\ (NoDup (tags (memory e)) -> NoDup (tags (memory e')))
  /\ (forall tag, tag ∈ tags (memory e')
        <-> tag ∈ tags (memory e) \/ exists x, x ∈ illusts /\ tag ∈ allTags x)
  /\ sameStorage (memory e) (memory e')
  /\ imageURLCache e' = imageURLCache e /\ key e' = key e
  /\ storageFolder e' = storageFolder e.
Proof. intros _ _ _. apply createIllustration_run. Qed.

Lemma createIllustration_spec_witness :
  let illusts := [mkIllustration None ["a"] [mkImage None ["b"] []] [];
                  mkIllustration (Some 7) ["a"; "c"] [] []] in
  let result := fst (createIllustration illusts Runs.fresh) in
  let e' := snd (createIllustration illusts Runs.fresh) in
  illustrations (memory e') = illustrations (memory Runs.fresh) ++ result
  /\ Forall2 createdFrom illusts result
  /\ nextIllustrationId (memory e')
     = nextIllustrationId (memory Runs.fresh)
       + Z.of_nat (length (filter (fun x => no_id (illust_id x) = true) illusts))
  /\ illust_id <$> result = [Some 1; Some 7]
  /\ tags (memory e') = ["a"; "b"; "c"].
Proof.
  intros illusts result e'.
  assert (ownObjects (illustrations (memory Runs.fresh)) illusts) as Hown.
  { unfold ownObjects.
    assert (withoutId illusts = [mkIllustration None ["a"] [mkImage None ["b"] []] []])
      as -> by (vm_compute; reflexivity).
    assert (imagesWithoutId (allImages illusts) = [mkImage None ["b"] []]) as ->
      by (vm_compute; reflexivity).
    split; [apply NoDup_singleton|]. split; [apply NoDup_singleton|]. split.
    - intros y _. apply not_elem_of_nil.
    - intros y _. apply not_elem_of_nil. }
  assert (exactCounters (nextIllustrationId (memory Runs.fresh)) (length illusts))
    as Hids by (unfold exactCounters; cbn; lia).
  assert (exactCounters (nextImageId (memory Runs.fresh)) (length (allImages illusts)))
    as Himgs by (unfold exactCounters; cbn; lia).
  pose proof (createIllustration_spec illusts Runs.fresh Hown Hids Himgs) as Hspec.
  cbn zeta in Hspec.
  split; [exact (proj1 Hspec)|]. split; [exact (proj1 (proj2 Hspec))|].
  split; [exact (proj1 (proj2 (proj2 Hspec)))|].
  split; vm_compute; reflexivity.
Defined.

(** X17.  For entries that are objects of their own and counters in the
    range where [n++] adds one exactly: entries given without id (or with
    the id 0) get the value of the entry counter and the numbers after
    it, in the order of the argument, with no gap. *)
Theorem createIllustration_ids illusts e :
  ownObjects (illustrations (memory e)) illusts ->
  exactCounters (nextIllustrationId (memory e)) (length illusts) ->
  exactCounters (nextImageId (memory e)) (length (allImages illusts)) ->
  Forall (fun x => no_id (illust_id x) = true) illusts ->
  illust_id <$> fst (createIllustration illusts e)
  = Some <$> seqZ (nextIllustrationId (memory e)) (Z.of_nat (length illusts)).
Proof.
  intros _ _ _. revert e.
  induction illusts as [|x illusts IH]; intros e Hall; cbn [createIllustration].
  - done.
  - apply Forall_cons in Hall as [Hx Hall].
    pose proof (createOne_spec x (memory e)) as Hone. cbn zeta in Hone.
    destruct (createOne x (memory e)) as [r m1]. cbn [fst snd] in Hone.
    specialize (IH (with_memory m1 e) Hall).
    destruct (createIllustration illusts (with_memory m1 e)) as [rest e1].
    cbn [fst snd memory with_memory] in *.
    destruct Hone as (_ & Hid & Hnext & _). rewrite Hx in Hid, Hnext.
    rewrite (seqZ_cons (nextIllustrationId (memory e))) by (cbn [length]; lia).
    cbn [fmap list_fmap]. rewrite Hid, IH, Hnext. do 3 f_equal; cbn [length]; lia.
Qed.

Lemma createIllustration_ids_witness :
  let illusts := [mkIllustration None ["a"] [] []; mkIllustration (Some 0) [] [] []] in
  illust_id <$> fst (createIllustration illusts Runs.fresh)
  = Some <$> seqZ (nextIllustrationId (memory Runs.fresh)) (Z.of_nat (length illusts)).
Proof.
  intros illusts.
  assert (ownObjects (illustrations (memory Runs.fresh)) illusts) as Hown.
  { unfold ownObjects.
    assert (withoutId illusts = illusts) as -> by (vm_compute; reflexivity).
    assert (imagesWithoutId (allImages illusts) = []) as -> by (vm_compute; reflexivity).
    split; [|split; [apply NoDup_nil_2|split]].
    - apply NoDup_cons_2; [|apply NoDup_singleton].
      intros Hin. apply list_elem_of_singleton in Hin. discriminate.
    - intros y _. apply not_elem_of_nil.
    - intros y _. apply not_elem_of_nil. }
  assert (exactCounters (nextIllustrationId (memory Runs.fresh)) (length illusts))
    as Hids by (unfold exactCounters; cbn; lia).
  assert (exactCounters (nextImageId (memory Runs.fresh)) (length (allImages illusts)))
    as Himgs by (unfold exactCounters; cbn; lia).
  exact (createIllustration_ids illusts Runs.fresh Hown Hids Himgs
           ltac:(repeat constructor)).
Defined.











Lemma removeAt_found {A} (arr : list A) (index : Z) :
  0 <= index < Z.of_nat (length arr) ->
  S (length (Arrays.removeAt arr index)) = length arr
  /\ sublist (Arrays.removeAt arr index) arr.
Proof.
  intros Hidx. unfold Arrays.removeAt. destruct (Z.ltb_spec index 0); [lia|].
  split.
  - rewrite length_delete; [lia|]. apply lookup_lt_is_Some_2. lia.
  - apply sublist_delete.
Qed.

Lemma deleteOne_spec ii n e :
  let n' := fst (deleteOne ii (n, e)) in
  let e' := snd (deleteOne ii (n, e)) in
  ((n' = n /\ e' = e /\ idOf ii ∉ illust_id <$> illustrations (memory e))
   \/ (n' = n + 1 /\ idOf ii ∈ illust_id <$> illustrations (memory e)
       /\ S (length (illustrations (memory e'))) = length (illustrations (memory e))))
  /\ sublist (illustrations (memory e')) (illustrations (memory e))
  /\ tags (memory e') = tags (memory e)
  /\ nextIllustrationId (memory e') = nextIllustrationId (memory e)
  /\ nextImageId (memory e') = nextImageId (memory e)
  /\ nextBlockIndex (memory e') = nextBlockIndex (memory e)
  /\ unusedBlocks (memory e') = unusedBlocks (memory e)
  /\ config (memory e') = config (memory e)
  /\ (forall spec j, Some j <> idOf ii ->
        BufferCache.get (imageURLCache e') spec j = BufferCache.get (imageURLCache e) spec j)
  /\ (forall j, Some j <> idOf ii -> blocks (memory e') !! j = blocks (memory e) !! j).
Proof.
  unfold deleteOne. fold (idOf ii).
  pose proof (indexOf_spec (illustrations (memory e))
                (fun t => bool_decide (illust_id t = idOf ii))) as Hidx.
  cbn zeta in Hidx.
  set (index := Arrays.indexOf _ _) in *.
  destruct Hidx as [[Hm1 Hall]|(Hrange & t & Ht & Hpt & _)].
  - rewrite Hm1. cbn [Z.geb Z.compare fst snd]. split; [|by repeat split].
    left. repeat split; try done. intros Hin.
    apply list_elem_of_fmap in Hin as (t & Heq & Ht).
    eapply Forall_forall in Hall; [|done]. cbn in Hall.
    apply bool_decide_eq_false in Hall. by symmetry in Heq.
  - destruct (Z.geb_spec index 0); [|lia].
    destruct (removeAt_found (illustrations (memory e)) index Hrange) as [Hlen Hsub].
    apply bool_decide_eq_true in Hpt.
    assert (idOf ii ∈ illust_id <$> illustrations (memory e)) as Hin.
    { apply list_elem_of_fmap. exists t. split; [done|]. by eapply list_elem_of_lookup_2. }
    destruct (idOf ii) as [id|] eqn:Hid; cbn [fst snd memory with_memory with_imageURLCache
      imageURLCache illustrations with_illustrations with_blocks tags nextIllustrationId
      nextImageId nextBlockIndex unusedBlocks config blocks].
    + split; [right; by repeat split|]. repeat split; try done.
      * intros spec j Hj. unfold BufferCache.remove, BufferCache.get, Maps.remove.
        cbn [snd]. destruct spec; cbn [at_spec at_Thumbnail at_Exhibition at_Origin];
          apply lookup_delete_ne; congruence.
      * intros j Hj. apply lookup_delete_ne. congruence.
    + split; [right; by repeat split|]. by repeat split.
Qed.

Lemma deleteIllustration_fold illusts n e :
  let n' := fst (foldl (fun st ii => deleteOne ii st) (n, e) illusts) in
  let e' := snd (foldl (fun st ii => deleteOne ii st) (n, e) illusts) in
  Z.of_nat (length (illustrations (memory e'))) + (n' - n)
    = Z.of_nat (length (illustrations (memory e)))
  /\ 0 <= n' - n <= Z.of_nat (length illusts)
  /\ sublist (illustrations (memory e')) (illustrations (memory e))
  /\ tags (memory e') = tags (memory e)
  /\ nextIllustrationId (memory e') = nextIllustrationId (memory e)
  /\ nextImageId (memory e') = nextImageId (memory e)
  /\ nextBlockIndex (memory e') = nextBlockIndex (memory e)
  /\ unusedBlocks (memory e') = unusedBlocks (memory e)
  /\ config (memory e') = config (memory e)
  /\ (forall spec j, Some j ∉ idOf <$> illusts ->
        BufferCache.get (imageURLCache e') spec j = BufferCache.get (imageURLCache e) spec j)
  /\ (forall j, Some j ∉ idOf <$> illusts -> blocks (memory e') !! j = blocks (memory e) !! j)
  /\ ((forall ii, ii ∈ illusts -> idOf ii ∉ illust_id <$> illustrations (memory e)) ->
      n' = n /\ e' = e).
Proof.
  revert n e. induction illusts as [|ii illusts IH]; intros n e; cbn [foldl].
  - cbn [fst snd length]. repeat split; try done; lia.
  - pose proof (deleteOne_spec ii n e) as Hone. cbn zeta in Hone.
    destruct (deleteOne ii (n, e)) as [n1 e1]. cbn [fst snd] in Hone.
    specialize (IH n1 e1). cbn zeta in IH.
    destruct (foldl _ (n1, e1) illusts) as [n2 e2]. cbn [fst snd] in *.
    destruct Hone as (Hcase & Hsub & Ht & Hi1 & Hi2 & Hb & Hu & Hc & Hcache & Hblocks).
    destruct IH as (Hlen' & Hn' & Hsub' & Ht' & Hi1' & Hi2' & Hb' & Hu' & Hc' & Hcache'
                    & Hblocks' & Hunknown').
    assert (n1 = n /\ length (illustrations (memory e1)) = length (illustrations (memory e))
            \/ n1 = n + 1
               /\ S (length (illustrations (memory e1))) = length (illustrations (memory e)))
      as Hcount by (destruct Hcase as [(-> & -> & _)|(-> & _ & ?)]; [by left | by right]).
    split; [cbn [length]; lia|]. split; [cbn [length]; lia|].
    split; [by etrans|]. do 6 (split; [congruence|]).
    split; [|split].
    + intros spec j Hj. rewrite Hcache'.
      * apply Hcache. intros Heq. apply Hj. cbn. rewrite Heq. left.
      * intros Hin. apply Hj. cbn. by right.
    + intros j Hj. rewrite Hblocks'.
      * apply Hblocks. intros Heq. apply Hj. cbn. rewrite Heq. left.
      * intros Hin. apply Hj. cbn. by right.
    + intros Hunknown. destruct Hcase as [(-> & -> & _)|(_ & Hin & _)].
      * apply Hunknown'. intros ii' Hii'. apply Hunknown. by right.
      * exfalso. apply (Hunknown ii); [left | done].
Qed.

(** X18.  [deleteIllustration] returns the number of entries it removed,
    at most one for each element of the argument, given as an entry or as
    an id; what stays is a sublist of the stored entries, in their order.
    When no element names a stored id it returns 0 and changes nothing.
    It never changes the tag cache (the tags of a removed entry stay
    known), the three counters, the free list or the config, and it
    touches the payload cache and the block map under the ids of the
    argument only: what is recorded under another id, the ids of the
    sub-items among them, stays. *)
Theorem deleteIllustration_spec illusts e :
  let n' := fst (deleteIllustration illusts e) in
  let e' := snd (deleteIllustration illusts e) in
  Z.of_nat (length (illustrations (memory e'))) + n'
    = Z.of_nat (length (illustrations (memory e)))
  /\ 0 <= n' <= Z.of_nat (length illusts)
  /\ sublist (illustrations (memory e')) (illustrations (memory e))
  /\ tags (memory e') = tags (memory e)
  /\ nextIllustrationId (memory e') = nextIllustrationId (memory e)
  /\ nextImageId (memory e') = nextImageId (memory e)
  /\ nextBlockIndex (memory e') = nextBlockIndex (memory e)
  /\ unusedBlocks (memory e') = unusedBlocks (memory e)
  /\ config (memory e') = config (memory e)
  /\ (forall spec j, Some j ∉ idOf <$> illusts ->
        BufferCache.get (imageURLCache e') spec j = BufferCache.get (imageURLCache e) spec j)
  /\ (forall j, Some j ∉ idOf <$> illusts -> blocks (memory e') !! j = blocks (memory e) !! j)
  /\ ((forall ii, ii ∈ illusts -> idOf ii ∉ illust_id <$> illustrations (memory e)) ->
      n' = 0 /\ e' = e).
Proof.
  pose proof (deleteIllustration_fold illusts 0 e) as Hfold. cbn zeta in *.
  unfold deleteIllustration. rewrite !Z.sub_0_r in Hfold. exact Hfold.
Qed.

Lemma set_spec_at {A} (s s' : ImageSpecification) (v : A) (obj : PerSpec A) :
  at_spec s' (set_spec s v obj) = if decide (s' = s) then v else at_spec s' obj.
Proof. destruct s, s'; done. Qed.

Lemma BufferCache_get_set {T : Type} (c : BufferCache.t T) (s : ImageSpecification)
    (id : Z) (obj : T) :
  BufferCache.get (BufferCache.set c s id obj) s id = Some obj.
Proof.
  unfold BufferCache.get, BufferCache.set.
  rewrite set_spec_at, decide_True by done. apply lookup_insert_eq.
Qed.

(** X19.  The payload cache is a map from a variant and an id: a value set
    is the value got, under another variant or id nothing changes;
    [remove] takes the id out under every variant and leaves the other
    ids; a new cache holds nothing. *)
Theorem BufferCache_laws {T : Type} (c : BufferCache.t T) (s : ImageSpecification)
    (id : Z) (obj : T) :
  BufferCache.get (BufferCache.set c s id obj) s id = Some obj
  /\ (forall s' id', (s', id') <> (s, id) ->
        BufferCache.get (BufferCache.set c s id obj) s' id' = BufferCache.get c s' id')
  /\ (forall s', BufferCache.get (snd (BufferCache.remove c id)) s' id = None)
  /\ (forall s' id', id' <> id ->
        BufferCache.get (snd (BufferCache.remove c id)) s' id' = BufferCache.get c s' id')
  /\ (forall s', BufferCache.get (@BufferCache.empty T) s' id = None).
Proof.
  split; [apply BufferCache_get_set|].
  unfold BufferCache.get, BufferCache.set, BufferCache.remove, Maps.remove.
  split; [|split; [|split]].
  - intros s' id' Hne. rewrite set_spec_at. case_decide as Hs; [|done].
    subst s'. apply lookup_insert_ne. congruence.
  - intros s'. cbn [snd]. destruct s'; cbn; apply lookup_delete_eq.
  - intros s' id' Hne. cbn [snd]. destruct s'; cbn; by apply lookup_delete_ne.
  - intros s'. destruct s'; cbn; apply lookup_empty.
Qed.

Lemma updateImages_spec imgs m :
  let imgs' := fst (updateImages imgs m) in
  let m' := snd (updateImages imgs m) in
  subTags <$> imgs' = subTags <$> imgs
  /\ nextImageId m <= nextImageId m'
  /\ nextIllustrationId m' = nextIllustrationId m
  /\ illustrations m' = illustrations m
  /\ (NoDup (tags m) -> NoDup (tags m'))
  /\ (forall tag, tag ∈ tags m' <-> tag ∈ tags m \/ tag ∈ concat (subTags <$> imgs))
  /\ sameStorage m m'.
Proof.
  revert m. induction imgs as [|image imgs IH]; intros m; cbn [updateImages].
  - cbn [fst snd fmap list_fmap concat]. split; [done|]. split; [lia|].
    do 3 (split; [done|]). split; [|by repeat split].
    intros tag. split; [by left|]. intros [?|Hnil]; [done | by apply elem_of_nil in Hnil].
  - destruct (putTags_spec (subTags image) m) as (Hsame0 & Hnd0 & Hin0).
    destruct Hsame0 as (Ha & Hb & Hc & Hd & He & Hf & Hg).
    set (m0 := putTags (subTags image) m) in *.
    set (st := if no_id (image_id image) then _ else _).
    assert (subTags (fst st) = subTags image
            /\ nextImageId m0 <= nextImageId (snd st)
            /\ nextIllustrationId (snd st) = nextIllustrationId m0
            /\ illustrations (snd st) = illustrations m0
            /\ tags (snd st) = tags m0 /\ sameStorage m0 (snd st)) as Hst.
    { subst st. destruct (no_id (image_id image)); cbn; repeat split; try done; lia. }
    destruct st as [image1 m1]. cbn [fst snd] in Hst.
    destruct Hst as (Hsub1 & Hle1 & Hi1 & Hill1 & Ht1 & Hs1 & Hs2 & Hs3 & Hs4).
    specialize (IH m1). destruct (updateImages imgs m1) as [rest m2]. cbn [fst snd] in *.
    destruct IH as (Hsub & Hle & Hi & Hill & Hnd & Hin & Hs1' & Hs2' & Hs3' & Hs4').
    split; [cbn; by f_equal|]. split; [lia|]. do 2 (split; [congruence|]).
    split; [intros Hm; apply Hnd; rewrite Ht1; by apply Hnd0|].
    split; [|repeat split; congruence].
    intros tag. rewrite Hin, Ht1, Hin0. cbn [fmap list_fmap concat]. rewrite elem_of_app. tauto.
Qed.

Lemma length_ids_insert (l : list Illustration) (i : nat) (r t : Illustration) :
  l !! i = Some t -> illust_id r = illust_id t ->
  illust_id <$> <[i := r]> l = illust_id <$> l.
Proof.
  intros Hl Hid. rewrite list_fmap_insert, Hid.
  apply list_insert_id. by rewrite list_lookup_fmap, Hl.
Qed.

Lemma updateOne_spec illust success m :
  let success' := fst (updateOne illust (success, m)) in
  let m' := snd (updateOne illust (success, m)) in
  illust_id <$> illustrations m' = illust_id <$> illustrations m
  /\ (((illust_id illust ∉ illust_id <$> illustrations m) /\ success' = success /\ m' = m)
      \/ (illust_id illust ∈ illust_id <$> illustrations m
          /\ exists r, success' = success ++ [r] /\ illust_id r = illust_id illust
               /\ illust_tags r = illust_tags illust
               /\ illust_attributes r = illust_attributes illust
               /\ subTags <$> images r = subTags <$> images illust
               /\ r ∈ illustrations m'
               /\ forall tag, tag ∈ allTags illust -> tag ∈ tags m'))
  /\ (forall tag, tag ∈ tags m -> tag ∈ tags m')
  /\ (NoDup (tags m) -> NoDup (tags m'))
  /\ nextIllustrationId m' = nextIllustrationId m
  /\ nextImageId m <= nextImageId m'
  /\ sameStorage m m'.
Proof.
  unfold updateOne.
  pose proof (indexOf_spec (illustrations m)
                (fun t => bool_decide (illust_id t = illust_id illust))) as Hidx.
  cbn zeta in Hidx. set (index := Arrays.indexOf _ _) in *.
  destruct Hidx as [[Hm1 Hall]|(Hrange & t & Ht & Hpt & _)].
  - rewrite Hm1. cbn [Z.geb Z.compare fst snd]. split; [done|]. split.
    { left. split; [|done]. intros Hin. apply list_elem_of_fmap in Hin as (t & Heq & Ht).
      eapply Forall_forall in Hall; [|done]. cbn in Hall.
      apply bool_decide_eq_false in Hall. by symmetry in Heq. }
    split; [done|]. split; [done|]. split; [done|]. split; [lia|]. by repeat split.
  - destruct (Z.geb_spec index 0); [|lia]. apply bool_decide_eq_true in Hpt.
    destruct (putTags_spec (illust_tags illust) m) as (Hsame0 & Hnd0 & Hin0).
    destruct Hsame0 as (Ha & Hb & Hc & Hd & He & Hf & Hg).
    set (m0 := putTags (illust_tags illust) m) in *.
    pose proof (updateImages_spec (images illust) m0) as Himgs. cbn zeta in Himgs.
    destruct (updateImages (images illust) m0) as [imgs m1]. cbn [fst snd] in *.
    destruct Himgs as (Hsub & Hle & Hi & Hill & Hnd & Hin & Hs1 & Hs2 & Hs3 & Hs4).
    cbn [illustrations with_illustrations tags nextIllustrationId nextImageId].
    assert (illustrations m1 !! Z.to_nat index = Some t) as Ht1 by congruence.
    split; [rewrite (length_ids_insert _ _ _ t) by done; congruence|].
    split.
    { right. split.
      { apply list_elem_of_fmap. exists t. split; [done|]. by eapply list_elem_of_lookup_2. }
      eexists. split; [done|]. do 4 (split; [done|]). split.
      { eapply list_elem_of_lookup_2. apply list_lookup_insert_eq.
        by eapply lookup_lt_Some. }
      intros tag Htag. unfold allTags in Htag. apply elem_of_app in Htag.
      apply Hin. rewrite Hin0. tauto. }
    split; [intros tag Htag; apply Hin; rewrite Hin0; tauto|].
    split; [auto|]. split; [congruence|]. split; [lia|].
    unfold sameStorage. cbn. repeat split; congruence.
Qed.

Lemma with_memory_same e : with_memory (memory e) e = e.
Proof. by destruct e. Qed.

Lemma updateIllustration_fold illusts success m :
  let success' := fst (foldl (fun st illust => updateOne illust st) (success, m) illusts) in
  let m' := snd (foldl (fun st illust => updateOne illust st) (success, m) illusts) in
  illust_id <$> illustrations m' = illust_id <$> illustrations m
  /\ (exists added, success' = success ++ added
        /\ illust_id <$> added
           = filter (fun id => id ∈ illust_id <$> illustrations m) (illust_id <$> illusts))
  /\ (forall tag, tag ∈ tags m -> tag ∈ tags m')
  /\ (NoDup (tags m) -> NoDup (tags m'))
  /\ nextIllustrationId m' = nextIllustrationId m
  /\ nextImageId m <= nextImageId m'
  /\ sameStorage m m'
  /\ ((forall x, x ∈ illusts -> illust_id x ∉ illust_id <$> illustrations m) ->
      success' = success /\ m' = m)
  /\ (forall x tag, x ∈ illusts -> illust_id x ∈ illust_id <$> illustrations m ->
        tag ∈ allTags x -> tag ∈ tags m').
Proof.
  revert success m. induction illusts as [|x illusts IH]; intros success m; cbn [foldl].
  - cbn [fst snd]. split; [done|]. split; [exists []; by rewrite app_nil_r|].
    split; [done|]. split; [done|]. split; [done|]. split; [lia|].
    split; [by repeat split|]. split; [done|].
    intros x tag Hnil. by apply elem_of_nil in Hnil.
  - pose proof (updateOne_spec x success m) as Hone. cbn zeta in Hone.
    destruct (updateOne x (success, m)) as [success1 m1]. cbn [fst snd] in Hone.
    specialize (IH success1 m1). cbn zeta in IH.
    destruct (foldl _ (success1, m1) illusts) as [success2 m2]. cbn [fst snd] in *.
    destruct Hone as (Hids & Hcase & Hgrow & Hnd & Hi & Hle & Hs1 & Hs2 & Hs3 & Hs4).
    destruct IH as (Hids' & (added & Hadd & Hfilter) & Hgrow' & Hnd' & Hi' & Hle'
                    & (Hs1' & Hs2' & Hs3' & Hs4') & Hunknown' & Hcover').
    split; [congruence|]. split.
    { rewrite Hids in Hfilter. cbn [fmap list_fmap]. rewrite filter_cons.
      destruct Hcase as [(Hnot & -> & ->)|(Hyes & r & -> & Hrid & _)].
      - rewrite decide_False by done. exists added. by repeat split.
      - rewrite decide_True by done. exists (r :: added). split; [by rewrite Hadd, <- app_assoc|].
        cbn [fmap list_fmap]. by rewrite Hrid, Hfilter. }
    split; [auto|]. split; [auto|]. split; [congruence|]. split; [lia|].
    split; [repeat split; congruence|]. split.
    { intros Hunknown. destruct Hcase as [(_ & -> & ->)|(Hyes & _)].
      + apply Hunknown'. intros y Hy. apply Hunknown. by right.
      + exfalso. apply (Hunknown x); [left | done]. }
    intros y tag Hy Hknown Htag. apply elem_of_cons in Hy as [->|Hy].
    + destruct Hcase as [(Hnot & _)|(_ & r & _ & _ & _ & _ & _ & _ & Hall)]; [done|].
      by apply Hgrow', Hall.
    + apply (Hcover' y); [done | by rewrite Hids | done].
Qed.

Lemma updateImages_from imgs m : Forall2 imageFrom imgs (fst (updateImages imgs m)).
Proof.
  revert m. induction imgs as [|image imgs IH]; intros m; cbn [updateImages].
  - constructor.
  - set (m0 := putTags (subTags image) m).
    destruct (no_id (image_id image)) eqn:Hno.
    + cbn [stepToNextImageId]. specialize (IH (with_nextImageId (nextImageId m0 + 1) m0)).
      destruct (updateImages imgs _) as [rest m2]. cbn [fst] in *.
      constructor; [|done]. unfold imageFrom. rewrite Hno. cbn. by eauto.
    + specialize (IH m0). destruct (updateImages imgs m0) as [rest m2]. cbn [fst] in *.
      constructor; [|done]. unfold imageFrom. by rewrite Hno.
Qed.

Lemma updateOne_shape x success m :
  let index := firstWithId (illustrations m) x in
  (index = -1 /\ updateOne x (success, m) = (success, m))
  \/ (0 <= index < Z.of_nat (length (illustrations m))
      /\ exists r t,
           illustrations m !! Z.to_nat index = Some t /\ illust_id t = illust_id x
           /\ updatedFrom x r
           /\ fst (updateOne x (success, m)) = success ++ [r]
           /\ illustrations (snd (updateOne x (success, m)))
              = <[Z.to_nat index := r]> (illustrations m)).
Proof.
  unfold updateOne, firstWithId.
  pose proof (indexOf_spec (illustrations m)
                (fun t => bool_decide (illust_id t = illust_id x))) as Hidx.
  cbn zeta in Hidx. set (index := Arrays.indexOf _ _) in *. cbn zeta.
  destruct Hidx as [[Hm1 _]|(Hrange & t & Ht & Hpt & _)].
  - left. by rewrite Hm1.
  - right. split; [done|]. destruct (Z.geb_spec index 0); [|lia].
    apply bool_decide_eq_true in Hpt.
    set (m0 := putTags (illust_tags x) m).
    pose proof (updateImages_from (images x) m0) as Hfrom.
    pose proof (updateImages_spec (images x) m0) as Hspec. cbn zeta in Hspec.
    destruct (updateImages (images x) m0) as [imgs m1]. cbn [fst snd] in *.
    destruct Hspec as (_ & _ & _ & Hill & _).
    destruct (putTags_spec (illust_tags x) m) as ((_ & _ & _ & _ & Hill0 & _) & _).
    exists (mkIllustration (illust_id x) (illust_tags x) imgs (illust_attributes x)), t.
    split; [done|]. split; [done|]. split; [by repeat split|].
    split; [done|]. cbn [illustrations with_illustrations]. fold m0 in Hill0. congruence.
Qed.

Lemma indexOf_ids (l1 l2 : list Illustration) (a b : option Z) :
  illust_id <$> l1 = illust_id <$> l2 -> a = b ->
  Arrays.indexOf l1 (fun u => bool_decide (illust_id u = a))
  = Arrays.indexOf l2 (fun u => bool_decide (illust_id u = b)).
Proof.
  intros Hids ->. revert l2 Hids. induction l1 as [|t l1 IH]; intros [|u l2] Hids;
    try done. cbn in Hids. injection Hids as Hid Hids.
  cbn [Arrays.indexOf]. rewrite Hid, (IH l2) by done. done.
Qed.

Lemma last_cons_default {A} (a : A) (l : list A) : last (a :: l) = Some (default a (last l)).
Proof. rewrite last_cons. by destruct (last l). Qed.

Lemma updateIllustration_store illusts success m :
  let success' := fst (foldl (fun st illust => updateOne illust st) (success, m) illusts) in
  let m' := snd (foldl (fun st illust => updateOne illust st) (success, m) illusts) in
  exists added,
    success' = success ++ added
    /\ Forall2 updatedFrom
         (filter (fun x => illust_id x ∈ illust_id <$> illustrations m) illusts) added
    /\ forall (p : nat) t, illustrations m !! p = Some t ->
         illustrations m' !! p
         = Some (if bool_decide (firstWithId (illustrations m) t = Z.of_nat p)
                 then default t (last (filter (fun r => illust_id r = illust_id t) added))
                 else t).
Proof.
  revert success m. induction illusts as [|x illusts IH]; intros success m; cbn [foldl].
  - cbn [fst snd]. exists []. split; [by rewrite app_nil_r|]. split; [constructor|].
    intros p t Ht. rewrite Ht. by destruct (bool_decide _).
  - pose proof (updateOne_shape x success m) as Hone. cbn zeta in Hone.
    pose proof (updateOne_spec x success m) as Hspec. cbn zeta in Hspec.
    destruct Hspec as (Hids & Hcase & _).
    destruct Hone as [[Hm1 Hrun]|(Hrange & r & t0 & Ht0 & Hid0 & Hfrom & Hsucc & Hstore)].
    + rewrite Hrun. rewrite Hrun in Hcase. cbn [fst snd] in Hcase.
      destruct Hcase as [(Hnot & _)|(Hyes & r & Habs & _)].
      2:{ exfalso. apply (f_equal length) in Habs. rewrite length_app in Habs.
          cbn in Habs. lia. }
      destruct (IH success m) as (added & Hadd & Hall & Hat).
      exists added. split; [done|]. split; [|done].
      rewrite filter_cons, decide_False by done. done.
    + destruct Hcase as [(Hnot & _)|(Hyes & _)].
      { exfalso. apply Hnot. apply list_elem_of_fmap. exists t0. split; [done|].
        by eapply list_elem_of_lookup_2. }
      destruct (updateOne x (success, m)) as [success1 m1]. cbn [fst snd] in *.
      destruct (IH success1 m1) as (added & Hadd & Hall & Hat).
      destruct Hfrom as (Hrid & Hfrom).
      exists (r :: added). split; [by rewrite Hadd, Hsucc, <- app_assoc|]. split.
      { rewrite filter_cons, decide_True by done. constructor; [by split|].
        replace (filter (fun x0 => illust_id x0 ∈ illust_id <$> illustrations m) illusts)
          with (filter (fun x0 => illust_id x0 ∈ illust_id <$> illustrations m1) illusts);
          [done|].
        apply list_filter_iff. intros y. by rewrite Hids. }
      intros p t Ht.
      assert (forall u, firstWithId (illustrations m1) u = firstWithId (illustrations m) u)
        as Hfirst by (intros u; by apply indexOf_ids).
      assert (firstWithId (illustrations m) t0 = firstWithId (illustrations m) x) as Hfirst0
        by (by apply indexOf_ids).
      set (index := firstWithId (illustrations m) x) in *.
      destruct (decide (p = Z.to_nat index)) as [->|Hp].
      * assert (t = t0) as -> by congruence.
        assert (illustrations m1 !! Z.to_nat index = Some r) as Hr.
        { rewrite Hstore. apply list_lookup_insert_eq. by eapply lookup_lt_Some. }
        rewrite (Hat _ _ Hr), Hfirst.
        assert (firstWithId (illustrations m) r = index) as -> by (by apply indexOf_ids).
        rewrite Hfirst0. rewrite !bool_decide_eq_true_2 by lia.
        rewrite filter_cons, decide_True by congruence.
        rewrite last_cons_default.
        replace (filter (fun r0 => illust_id r0 = illust_id r) added)
          with (filter (fun r0 => illust_id r0 = illust_id t0) added); [done|].
        apply list_filter_iff. intros y. by rewrite Hrid, Hid0.
      * assert (illustrations m1 !! p = Some t) as Ht1
          by (rewrite Hstore, list_lookup_insert_ne; done).
        rewrite (Hat _ _ Ht1), Hfirst. case_bool_decide as Hfp; [|done].
        rewrite filter_cons, decide_False; [done|].
        intros Hrt. apply Hp.
        assert (firstWithId (illustrations m) t = index) as Heq
          by (apply indexOf_ids; [done | congruence]).
        lia.
Qed.

(** X20.  For entries that are objects of their own and a sub-item counter
    in the range where [n++] adds one exactly: [updateIllustration] takes
    the entries given whose id is stored and returns them, in the order
    of the argument, each with its id, tags and attributes and with its
    sub-items as given, those without id having got one; an entry given
    whose id is not stored is left out and not added.  Each entry taken
    is put in the place of the first stored entry with its id: afterwards
    that place holds the last entry taken with that id, and every other
    place holds what it held.  The ids stored, and so the number of
    entries, stay as they are.  The tag cache only grows, stays free of
    duplicates and holds the tags of every entry taken and of its
    sub-items.  The entry counter, the block map, the free list, the
    block counter, the config and the payload cache are not touched, and
    the sub-item counter never goes down.  When no entry given has a
    stored id the result is empty and nothing changes. *)
Theorem updateIllustration_spec illusts e :
  ownObjects (illustrations (memory e)) illusts ->
  exactCounters (nextImageId (memory e)) (length (allImages illusts)) ->
  let success := fst (updateIllustration illusts e) in
  let e' := snd (updateIllustration illusts e) in
  illust_id <$> illustrations (memory e') = illust_id <$> illustrations (memory e)
  /\ Forall2 updatedFrom
       (filter (fun x => illust_id x ∈ illust_id <$> illustrations (memory e)) illusts)
       success
  /\ (forall (p : nat) t, illustrations (memory e) !! p = Some t ->
        illustrations (memory e') !! p
        = Some (if bool_decide (firstWithId (illustrations (memory e)) t = Z.of_nat p)
                then default t (last (filter (fun r => illust_id r = illust_id t) success))
                else t))
  /\ (forall tag, tag ∈ tags (memory e) -> tag ∈ tags (memory e'))
  /\ (forall x tag, x ∈ illusts -> illust_id x ∈ illust_id <$> illustrations (memory e) ->
        tag ∈ allTags x -> tag ∈ tags (memory e'))
  /\ (NoDup (tags (memory e)) -> NoDup (tags (memory e')))
  /\ nextIllustrationId (memory e') = nextIllustrationId (memory e)
  /\ nextImageId (memory e) <= nextImageId (memory e')
  /\ sameStorage (memory e) (memory e')
  /\ imageURLCache e' = imageURLCache e /\ key e' = key e
  /\ storageFolder e' = storageFolder e
  /\ ((forall x, x ∈ illusts -> illust_id x ∉ illust_id <$> illustrations (memory e)) ->
      success = [] /\ e' = e).
Proof.
  intros _ _.
  pose proof (updateIllustration_fold illusts [] (memory e)) as Hfold.
  pose proof (updateIllustration_store illusts [] (memory e)) as Hstore.
  cbn zeta in *. unfold updateIllustration.
  destruct (foldl _ ([], memory e) illusts) as [success m']. cbn [fst snd] in *.
  destruct Hfold as (Hids & _ & Hgrow & Hnd & Hi & Hle & Hsame & Hunknown & Hcover).
  destruct Hstore as (added & Hadd & Hfrom & Hat).
  cbn [app] in Hadd. subst added.
  cbn [memory with_memory imageURLCache key storageFolder].
  do 12 (split; [done|]).
  intros Hnone. destruct (Hunknown Hnone) as [-> ->]. split; [done|].
  apply with_memory_same.
Qed.

Lemma updateIllustration_spec_witness :
  let illusts := [mkIllustration (Some 1) ["dog"] [mkImage None ["x"] []] [];
                  mkIllustration (Some 9) [] [] []] in
  let success := fst (updateIllustration illusts Scenario.engine) in
  let e' := snd (updateIllustration illusts Scenario.engine) in
  illust_id <$> illustrations (memory e')
  = illust_id <$> illustrations (memory Scenario.engine)
  /\ Forall2 updatedFrom
       (filter (fun x => illust_id x ∈ illust_id <$> illustrations (memory Scenario.engine))
          illusts)
       success
  /\ success = [mkIllustration (Some 1) ["dog"] [mkImage (Some 3) ["x"] []] []]
  /\ illustrations (memory e') = success.
Proof.
  intros illusts success e'.
  assert (ownObjects (illustrations (memory Scenario.engine)) illusts) as Hown.
  { unfold ownObjects.
    assert (withoutId illusts = []) as -> by (vm_compute; reflexivity).
    assert (imagesWithoutId (allImages illusts) = [mkImage None ["x"] []]) as ->
      by (vm_compute; reflexivity).
    assert (allImages (illustrations (memory Scenario.engine)) = [mkImage (Some 2) [] []])
      as -> by (vm_compute; reflexivity).
    split; [apply NoDup_nil_2|]. split; [apply NoDup_singleton|]. split.
    - intros y Hy. by apply elem_of_nil in Hy.
    - intros i Hi Hin. apply list_elem_of_singleton in Hi. subst i.
      apply list_elem_of_singleton in Hin. discriminate. }
  assert (exactCounters (nextImageId (memory Scenario.engine)) (length (allImages illusts)))
    as Hrange by (unfold exactCounters; cbn; lia).
  pose proof (updateIllustration_spec illusts Scenario.engine Hown Hrange) as Hspec.
  cbn zeta in Hspec.
  split; [exact (proj1 Hspec)|]. split; [exact (proj1 (proj2 Hspec))|].
  split; vm_compute; reflexivity.
Defined.

Section EngineExtras.
Context `{Platform}.

Lemma collectTags_spec illusts m :
  sameButTags m (collectTags illusts m)
  /\ (NoDup (tags m) -> NoDup (tags (collectTags illusts m)))
  /\ forall tag, tag ∈ tags (collectTags illusts m)
       <-> tag ∈ tags m \/ exists x, x ∈ illusts /\ tag ∈ allTags x.
Proof.
  unfold collectTags. revert m. induction illusts as [|x illusts IH]; intros m; cbn [foldl].
  - split; [by repeat split|]. split; [done|]. intros tag. split; [by left|].
    intros [?|(x & Hnil & _)]; [done | by apply elem_of_nil in Hnil].
  - destruct (putTags_spec (illust_tags x) m) as (Hsame1 & Hnd1 & Hin1).
    destruct (putSubTags_spec (images x) (putTags (illust_tags x) m)) as (Hsame2 & Hnd2 & Hin2).
    destruct (IH (putSubTags (images x) (putTags (illust_tags x) m))) as (Hsame & Hnd & Hin).
    destruct Hsame as (? & ? & ? & ? & ? & ? & ?), Hsame1 as (? & ? & ? & ? & ? & ? & ?),
      Hsame2 as (? & ? & ? & ? & ? & ? & ?).
    split; [repeat split; congruence|]. split; [auto|].
    intros tag. rewrite Hin, Hin2, Hin1, elem_of_subTags. unfold allTags. split.
    + intros [[[?|?]|?]|(y & Hy & ?)]; [by left | | |].
      * right. exists x. split; [left|]. apply elem_of_app. by left.
      * right. exists x. split; [left|]. apply elem_of_app. by right.
      * right. exists y. split; [by right | done].
    + intros [?|(y & Hy & Htag)]; [by left; left; left|].
      apply elem_of_cons in Hy as [->|Hy]; [|right; by exists y].
      apply elem_of_app in Htag as [?|?]; [by left; left; right | by left; right].
Qed.

Lemma load_reads_document (e : LocalDataEngine) (fs : FS) (buf : Buffer) (data : Json)
    (doc : Document) :
  files fs !! (storageFolder e +:+ "/" +:+ STORAGE) = Some buf ->
  decrypt (key e) buf = Normal data -> data <> JNull ->
  document_of_json data = Some doc ->
  exists m',
    load e fs = Normal (true, with_memory m' e, fs)
    /\ illustrations m' = doc_illustrations doc
    /\ nextIllustrationId m' = doc_nextIllustrationId doc
    /\ nextImageId m' = doc_nextImageId doc
    /\ nextBlockIndex m' = doc_nextBlockIndex doc
    /\ blocks m' = doc_blocks doc
    /\ unusedBlocks m' = doc_unusedBlocks doc
    /\ config m' = default (config (memory e)) (doc_config doc)
    /\ NoDup (tags m')
    /\ forall tag, tag ∈ tags m'
         <-> exists x, x ∈ doc_illustrations doc /\ tag ∈ allTags x.
Proof.
  intros Hfile Hdata Hnull Hdoc. unfold load. rewrite Hfile, Hdata. cbn [cbind]. rewrite Hdoc.
  set (m0 := with_tags [] _).
  assert (illustrations m0 = doc_illustrations doc
          /\ nextIllustrationId m0 = doc_nextIllustrationId doc
          /\ nextImageId m0 = doc_nextImageId doc
          /\ nextBlockIndex m0 = doc_nextBlockIndex doc
          /\ blocks m0 = doc_blocks doc
          /\ unusedBlocks m0 = doc_unusedBlocks doc
          /\ config m0 = default (config (memory e)) (doc_config doc)
          /\ tags m0 = []) as (Hi & H1 & H2 & H3 & H4 & H5 & H6 & H7).
  { subst m0. destruct (doc_config doc); by repeat split. }
  destruct (collectTags_spec (illustrations m0) m0) as (Hsame & Hnd & Hin).
  destruct Hsame as (? & ? & ? & ? & ? & ? & ?).
  exists (collectTags (illustrations m0) m0).
  split; [by destruct data|]. do 7 (split; [congruence|]).
  split; [apply Hnd; rewrite H7; constructor|].
  intros tag. rewrite Hin, H7, Hi. split; [intros [Hnil|?]; [by apply elem_of_nil in Hnil | done]|].
  by right.
Qed.

(** X22.  When the data file exists and decrypts under the key of the
    engine to a document, [load] returns [true], leaves the files as they
    are, and the store holds what the document holds: the entries, the
    three counters, the block map and the free list, and the config if
    the document has one (the config of the engine stays otherwise).  The
    tag cache is made anew: it holds exactly the tags of the entries of
    the document and of their sub-items, each once. *)
Theorem load_restores (e : LocalDataEngine) (fs : FS) (buf : Buffer) (data : Json)
    (doc : Document) :
  files fs !! (storageFolder e +:+ "/" +:+ STORAGE) = Some buf ->
  decrypt (key e) buf = Normal data -> data <> JNull ->
  document_of_json data = Some doc ->
  exists m',
    load e fs = Normal (true, with_memory m' e, fs)
    /\ illustrations m' = doc_illustrations doc
    /\ nextIllustrationId m' = doc_nextIllustrationId doc
    /\ nextImageId m' = doc_nextImageId doc
    /\ nextBlockIndex m' = doc_nextBlockIndex doc
    /\ blocks m' = doc_blocks doc
    /\ unusedBlocks m' = doc_unusedBlocks doc
    /\ config m' = default (config (memory e)) (doc_config doc)
    /\ NoDup (tags m')
    /\ forall tag, tag ∈ tags m'
         <-> exists x, x ∈ doc_illustrations doc /\ tag ∈ allTags x.
Proof. apply load_reads_document. Qed.

(** X21.  A payload loaded is cached.  When the variant asked for (origin
    if origin is asked for, exhibition otherwise) has no cached value but
    a record with blocks and a size from 0 up, and the read delivers one
    buffer, [loadImageURL]
    gives the callback, if there is one, the data URL made of [PREFIX] and
    the base64 text of the decrypted buffer, and stores it in the cache
    under that variant and the sub-item id; the store is not changed.
    The same request made again is answered with the same data URL
    whatever the files hold then, without any read, and changes
    nothing. *)
Theorem loadImageURL_caches (imageId : Z) (specification : option ImageSpecification)
    (callback : bool) (e : LocalDataEngine) (fs : FS) variants record indices buf :
  let spec := if bool_decide (specification = Some Origin) then Origin else Exhibition in
  BufferCache.get (imageURLCache e) spec imageId = None ->
  blocks (memory e) !! imageId = Some variants ->
  at_spec spec variants = Some record ->
  rec_blocks record = Some indices ->
  0 <= rec_size record ->
  loadImageBuffer (storageFolder e) indices (rec_size record) fs = Normal [buf] ->
  let dataUrl := PREFIX +:+ base64 (decryptBuffer (key e) buf) in
  let e' := with_imageURLCache (BufferCache.set (imageURLCache e) spec imageId dataUrl) e in
  loadImageURL imageId specification callback e fs
  = Normal (notify callback (Some dataUrl), e')
  /\ memory e' = memory e
  /\ forall callback' fs',
       loadImageURL imageId specification callback' e' fs'
       = Normal (notify callback' (Some dataUrl), e').
Proof.
  intros spec Hmiss Hvariants Hrecord Hblocks _ Hload dataUrl e'. split; [|split; [done|]].
  - unfold loadImageURL. fold spec. rewrite Hmiss, Hvariants, Hrecord, Hblocks, Hload.
    cbn [cbind deliver]. by rewrite app_nil_r.
  - intros callback' fs'. unfold loadImageURL. fold spec. subst e'.
    cbn [imageURLCache with_imageURLCache].
    by rewrite (BufferCache_get_set (imageURLCache e) spec imageId dataUrl).
Qed.
End EngineExtras.

Lemma loadImageURL_caches_witness :
  let P := Sample.platform false in
  let dataUrl := PREFIX +:+ base64 (decryptBuffer "k" (list_byte_of_string "h")) in
  let e' := with_imageURLCache (BufferCache.set BufferCache.empty Origin 2 dataUrl)
              Runs.stored in
  loadImageURL 2 (Some Origin) true Runs.stored Runs.disk
  = Normal (notify true (Some dataUrl), e')
  /\ memory e' = memory Runs.stored
  /\ forall callback' fs',
       loadImageURL 2 (Some Origin) callback' e' fs'
       = Normal (notify callback' (Some dataUrl), e').
Proof.
  intros P.
  exact (loadImageURL_caches 2 (Some Origin) true Runs.stored Runs.disk
           (mkPerSpec None None (Some (mkBlockRecord 1 (Some [0]))))
           (mkBlockRecord 1 (Some [0])) [0] (list_byte_of_string "h")
           eq_refl eq_refl eq_refl eq_refl ltac:(cbn; lia) eq_refl).
Defined.

Lemma load_restores_witness :
  let doc := storedDocument Scenario.store in
  let P := Runs.reading doc in
  exists m',
    load Runs.fresh Runs.disk = Normal (true, with_memory m' Runs.fresh, Runs.disk)
    /\ illustrations m' = doc_illustrations doc
    /\ nextIllustrationId m' = doc_nextIllustrationId doc
    /\ nextImageId m' = doc_nextImageId doc
    /\ nextBlockIndex m' = doc_nextBlockIndex doc
    /\ blocks m' = doc_blocks doc
    /\ unusedBlocks m' = doc_unusedBlocks doc
    /\ config m' = default (config (memory Runs.fresh)) (doc_config doc)
    /\ NoDup (tags m')
    /\ forall tag, tag ∈ tags m'
         <-> exists x, x ∈ doc_illustrations doc /\ tag ∈ allTags x.
Proof.
  intros doc P.
  refine (load_restores Runs.fresh Runs.disk (@cipher Sample.runtime "k" (JObj []))
            (JObj []) doc eq_refl _ _ eq_refl).
  - vm_compute. reflexivity.
  - discriminate.
Defined.

Section SaveLoad.
Context `{Platform}.
(** The writing of the store as JSON that [save] relies on. *)
Variable json_of_document : Document -> Json.

End SaveLoad.

